(** * py-maze: a shallow embedding of [maze.py]

    The generator builds a rectangular grid whose cells are closed on all
    sides, picks two distant cells, carves passages with an iterative
    depth-first traversal and renders the result as text.  Python lists are
    modelled as Rocq lists with Python's indexing (negative indices count
    from the end, anything else out of range raises [IndexError]), Python
    integers as [Z], Python floats as binary64 primitive floats, and the
    module [random] as a tape of draws read through a cursor. *)

From Stdlib Require Import ZArith List String Ascii Bool Arith Lia.
From Stdlib Require Import Permutation Relations.
From Stdlib Require Import Floats.
From Stdlib Require Import DecimalString.
Import ListNotations.

Local Open Scope string_scope.
Local Open Scope list_scope.
Local Open Scope Z_scope.

(** ** Exceptions and results *)

Inductive exn : Type :=
| ValueError (msg : string)
| IndexError.

(** A call returns a value, raises, or is cut off because the loop budget of
    the model is exhausted. *)
Inductive result (A : Type) : Type :=
| Ret (a : A)
| Raise (e : exn)
| OutOfFuel.

Arguments Ret {A} a.
Arguments Raise {A} e.
Arguments OutOfFuel {A}.

Definition bind {A B : Type} (m : result A) (k : A -> result B) : result B :=
  match m with
  | Ret a => k a
  | Raise e => Raise e
  | OutOfFuel => OutOfFuel
  end.

Notation "x <- m ;; k" := (bind m (fun x => k))
  (at level 61, m at next level, right associativity).
Notation "' p <- m ;; k" := (bind m (fun x => let p := x in k))
  (at level 61, p pattern, m at next level, right associativity).

Fixpoint mapM {A B : Type} (f : A -> result B) (l : list A) : result (list B) :=
  match l with
  | [] => Ret []
  | a :: l' => b <- f a ;; bs <- mapM f l' ;; Ret (b :: bs)
  end.

(** ** Python sequences *)

(** [norm_index len i] resolves a Python index against a sequence of length
    [len]: [0 <= i < len] is itself, [-len <= i < 0] counts from the end. *)
Definition norm_index (len : nat) (i : Z) : option nat :=
  if (0 <=? i) && (i <? Z.of_nat len) then Some (Z.to_nat i)
  else if (i <? 0) && (- Z.of_nat len <=? i) then Some (Z.to_nat (Z.of_nat len + i))
  else None.

Fixpoint list_set {A : Type} (l : list A) (n : nat) (v : A) : list A :=
  match l, n with
  | [], _ => []
  | _ :: t, O => v :: t
  | a :: t, S k => a :: list_set t k v
  end.

(** [l[i]] *)
Definition getitem {A : Type} (l : list A) (i : Z) : result A :=
  match norm_index (List.length l) i with
  | Some k => match nth_error l k with
              | Some v => Ret v
              | None => Raise IndexError
              end
  | None => Raise IndexError
  end.

(** [l[i] = v] *)
Definition setitem {A : Type} (l : list A) (i : Z) (v : A) : result (list A) :=
  match norm_index (List.length l) i with
  | Some k => Ret (list_set l k v)
  | None => Raise IndexError
  end.

(** [m[y][x]] *)
Definition getitem2 {A : Type} (m : list (list A)) (y x : Z) : result A :=
  row <- getitem m y ;; getitem row x.

(** [m[y][x] = v]: the row object is updated in place; the rows of the
    matrices of this program are never shared, so the update shows in row
    [y] only. *)
Definition setitem2 {A : Type} (m : list (list A)) (y x : Z) (v : A)
  : result (list (list A)) :=
  row <- getitem m y ;;
  row' <- setitem row x v ;;
  setitem m y row'.

(** ** Python strings *)

Definition NL : string := String "010"%char EmptyString.

(** [s[i]], a one-character string *)
Definition str_getitem (s : string) (i : Z) : result string :=
  match norm_index (String.length s) i with
  | Some k => match String.get k s with
              | Some c => Ret (String c EmptyString)
              | None => Raise IndexError
              end
  | None => Raise IndexError
  end.

(** [s[:-1]] *)
Fixpoint str_drop_last (s : string) : string :=
  match s with
  | EmptyString => EmptyString
  | String c EmptyString => EmptyString
  | String c s' => String c (str_drop_last s')
  end.

(** [''.join(l)] *)
Definition join (l : list string) : string := String.concat "" l.

(** ["%d" % n] for a Python integer. *)
Definition format_d (n : Z) : string := NilZero.string_of_int (Z.to_int n).

(** The text of the [ValueError] that [random.randrange(start, stop)]
    raises on an empty range, as CPython 3.11 words it:
    ["empty range for randrange() (%d, %d, %d)" % (start, stop, width)]. *)
Definition empty_range (start stop : Z) : string :=
  ("empty range for randrange() (" ++ format_d start ++ ", " ++
   format_d stop ++ ", " ++ format_d (stop - start) ++ ")")%string.

(** [s.split('\n')] *)
Fixpoint split_lines_aux (cur : string) (s : string) : list string :=
  match s with
  | EmptyString => [cur]
  | String c s' =>
      if Ascii.eqb c "010"%char then cur :: split_lines_aux "" s'
      else split_lines_aux (cur ++ String c EmptyString)%string s'
  end.

Definition split_lines (s : string) : list string := split_lines_aux "" s.

(** ** The terminal *)

(** The capabilities of the [blessings] terminal the program formats its
    markers with; each is the empty string when the output is not a
    terminal. *)
Record Terminal : Type := {
  green : string;
  red : string;
  normal : string
}.

Definition plain_terminal : Terminal :=
  {| green := ""; red := ""; normal := "" |}.

(** The codes of a colour terminal: [ESC[32m], [ESC[31m] and
    [ESC(B ESC[m]. *)
Definition ESC : string := String "027"%char EmptyString.

Definition colour_terminal : Terminal :=
  {| green := (ESC ++ "[32m")%string;
     red := (ESC ++ "[31m")%string;
     normal := (ESC ++ "(B" ++ ESC ++ "[m")%string |}.

(** ** Grid parts *)

Definition CORNER : string := "+".
Definition WALL : string := "|".
Definition CEILING : string := "-".
Definition EMPTY : string := " ".

Definition START (term : Terminal) : string :=
  (green term ++ "S" ++ normal term)%string.
Definition END (term : Terminal) : string :=
  (red term ++ "E" ++ normal term)%string.

Definition pos : Type := (Z * Z)%type.

Definition pos_eqb (a b : pos) : bool :=
  (fst a =? fst b) && (snd a =? snd b).

Definition get_grid_part (part : string) (path : bool) : result string :=
  if negb (existsb (String.eqb part) [CORNER; WALL]) then
    Raise (ValueError ("unknown part: '" ++ part ++ "'")%string)
  else
    let rest := if negb path then CEILING else EMPTY in
    if String.eqb part WALL then
      let part := if negb path then WALL else EMPTY in
      let rest := EMPTY in
      Ret (part ++ rest ++ rest)%string
    else Ret (part ++ rest ++ rest)%string.

Definition generate_boundaries (w h : Z) : list (list Z) :=
  map (fun _ => repeat 0 (Z.to_nat w) ++ [1]) (seq 0 (Z.to_nat h))
  ++ [repeat 1 (Z.to_nat (w + 1))].

Definition generate_grid (w h : Z)
  : result (list (list string) * list (list string)) :=
  vertical <- mapM (fun _ => cell <- get_grid_part WALL false ;;
                             Ret (repeat cell (Z.to_nat w) ++ [WALL]))
                   (seq 0 (Z.to_nat h)) ;;
  horizontal <- mapM (fun _ => cell <- get_grid_part CORNER false ;;
                               Ret (repeat cell (Z.to_nat w) ++ [CORNER]))
                     (seq 0 (Z.to_nat (h + 1))) ;;
  Ret (vertical ++ [[]], horizontal).

Definition get_maze_string (vertical horizontal : list (list string)) : string :=
  let maze :=
    fold_left (fun maze hv =>
                 String.append maze (join (fst hv ++ [NL] ++ snd hv ++ [NL])))
              (combine horizontal vertical) "" in
  str_drop_last maze.

(** ** The traversal state *)

(** The objects [dfs] works on: the two wall matrices and the visited matrix
    it mutates, its stack (the deque, right end first), the cursor of the
    random tape, and the frames printed so far (newest first). *)
Record dfs_state : Type := {
  vertical : list (list string);
  horizontal : list (list string);
  visited : list (list Z);
  stack : list (Z * Z * Z * Z);
  cursor : nat;
  frames : list string
}.

(** ** Sample instances

    A reference [hypot], exact as long as the sum of squares is below
    [2^53], and the tape whose draws are all [0]. *)
Definition hypot_sqrt (a b : Z) : float :=
  PrimFloat.sqrt (PrimFloat.of_uint63 (Uint63.of_Z (a * a + b * b))).

Definition zero_tape (n : nat) : Z := 0.

Definition count_tape (n : nat) : Z := Z.of_nat n * 7 + 3.

(** The tape whose first three draws are [j3], [j2] and [j1]. *)
Definition draws3 (j3 j2 j1 : Z) (n : nat) : Z :=
  match n with
  | O => j3
  | S O => j2
  | _ => j1
  end.

(** The run [make_maze(2, 2)] on the tape of zeros: the fresh matrices, the
    state [dfs] enters its loop with, the state it returns, and the text. *)
Definition sample_vertical : list (list string) :=
  [["|  "; "|  "; "|"]; ["|  "; "|  "; "|"]; []].

Definition sample_horizontal : list (list string) :=
  [["+--"; "+--"; "+"]; ["+--"; "+--"; "+"]; ["+--"; "+--"; "+"]].

Definition sample_init : dfs_state :=
  {| vertical := sample_vertical;
     horizontal := sample_horizontal;
     visited := [[1; 0; 1]; [0; 0; 1]; [1; 1; 1]];
     stack := [(0, 0, -1, 0); (0, 0, 0, 1); (0, 0, 0, -1); (0, 0, 1, 0)];
     cursor := 3;
     frames := [] |}.

Definition sample_carved : dfs_state :=
  {| vertical := [["|  "; "|  "; "|"]; ["|  "; "   "; "|"]; []];
     horizontal := [["+--"; "+--"; "+"]; ["+  "; "+  "; "+"]; ["+--"; "+--"; "+"]];
     visited := [[1; 1; 1]; [1; 1; 1]; [1; 1; 1]];
     stack := [];
     cursor := 16;
     frames := [] |}.


(** The text of the run [make_maze(2, 2)] on the tape of zeros with the
    colour terminal: the start is the end, and the cell of the end mark
    ends in a character of the code of the start mark. *)
Definition sample_colour_text : string :=
  String.concat NL
    ["+--+--+"; ("|" ++ END colour_terminal ++ "[|  |")%string;
     "+  +  +"; "|     |"; "+--+--+"; EmptyString].

Definition sample_text : string :=
  String.concat NL ["+--+--+"; "|E |  |"; "+  +  +"; "|     |"; "+--+--+"; ""].

Section Maze.

(** The random source: [tape n] is the [n]-th raw draw; every request
    reduces its draw to the requested range, so the tapes cover every
    outcome of the random choices. *)
Variable tape : nat -> Z.

(** [math.hypot] on two Python integers. *)
Variable hypot : Z -> Z -> float.

Variable term : Terminal.

Set Default Proof Using "Type".

(** [tauto] that leaves the section's variables alone. *)
Ltac stauto := try clear term; try clear hypot; try clear tape; tauto.

(** ** The module [random] *)

(** [randint(a, b)] is [randrange(a, b + 1)]: an integer of [a..b], and
    on an empty range the [ValueError] of [randrange], whose text carries
    the range. *)
Definition randint (a b : Z) (c : nat) : result (Z * nat) :=
  if b <? a then Raise (ValueError (empty_range a (b + 1)))
  else Ret (a + tape c mod (b - a + 1), S c).

(** [x[i], x[j] = x[j], x[i]] *)
Definition swap {A : Type} (l : list A) (i j : nat) : list A :=
  match nth_error l i, nth_error l j with
  | Some a, Some b => list_set (list_set l i b) j a
  | _, _ => l
  end.

(** [shuffle]: for [i] from [len - 1] down to [1], swap [x[i]] with
    [x[randbelow(i + 1)]]. *)
Fixpoint shuffle_from {A : Type} (i : nat) (l : list A) (c : nat) : list A * nat :=
  match i with
  | O => (l, c)
  | S k => shuffle_from k (swap l i (Z.to_nat (tape c mod Z.of_nat (S i)))) (S c)
  end.

Definition shuffle {A : Type} (l : list A) (c : nat) : list A * nat :=
  shuffle_from (List.length l - 1) l c.

(** ** Start and end points *)

Definition get_random_pos (w h : Z) (c : nat) : result (pos * nat) :=
  xc <- randint 0 (w - 1) c ;;
  yc <- randint 0 (h - 1) (snd xc) ;;
  Ret ((fst xc, fst yc), snd yc).

Definition get_distance (x y : pos) : float :=
  hypot (snd y - snd x) (fst y - fst x).

Definition distance_threshold (w h : Z) : float :=
  let d := get_distance (0, 0) (w, h) in
  (4 * d / 5 - 3)%float.

(** The [while] loop of [get_distant_points]; [fuel] bounds the number of
    redraws. *)
Fixpoint distant_loop (fuel : nat) (w h : Z) (start end_ : pos) (c : nat)
  : result (pos * pos * nat) :=
  if (get_distance start end_ <? distance_threshold w h)%float then
    match fuel with
    | O => OutOfFuel
    | S fuel' =>
        sc <- get_random_pos w h c ;;
        ec <- get_random_pos w h (snd sc) ;;
        distant_loop fuel' w h (fst sc) (fst ec) (snd ec)
    end
  else Ret (start, end_, c).

Definition get_distant_points (fuel : nat) (w h : Z) (c : nat)
  : result (pos * pos * nat) :=
  sc <- get_random_pos w h c ;;
  ec <- get_random_pos w h (snd sc) ;;
  distant_loop fuel w h (fst sc) (fst ec) (snd ec).

(** ** Carving *)

Definition get_neighbors (x y : Z) (c : nat) : list pos * nat :=
  shuffle [(x - 1, y); (x + 1, y); (x, y - 1); (x, y + 1)] c.

(** [for next_x, next_y in nbrs: if not visited[next_y][next_x]:
    stack.append((x, y, next_x, next_y))] *)
Fixpoint push_unvisited (vis : list (list Z)) (x y : Z) (nbrs : list pos)
    (stk : list (Z * Z * Z * Z)) : result (list (Z * Z * Z * Z)) :=
  match nbrs with
  | [] => Ret stk
  | (next_x, next_y) :: nbrs' =>
      v <- getitem2 vis next_y next_x ;;
      push_unvisited vis x y nbrs'
        (if v =? 0 then (x, y, next_x, next_y) :: stk else stk)
  end.

(** The wall or ceiling passed through on the way from [(prev_x, prev_y)] to
    [(x, y)] is replaced by its open part. *)
Definition carve (vt hz : list (list string)) (prev_x prev_y x y : Z)
  : result (list (list string) * list (list string)) :=
  if x =? prev_x then
    cell <- get_grid_part CORNER true ;;
    hz' <- setitem2 hz (Z.max prev_y y) prev_x cell ;;
    Ret (vt, hz')
  else if y =? prev_y then
    cell <- get_grid_part WALL true ;;
    vt' <- setitem2 vt prev_y (Z.max prev_x x) cell ;;
    Ret (vt', hz)
  else Ret (vt, hz).

(** One iteration of [while stack:]. *)
Definition dfs_body (end_ : pos) (print_progress : bool) (st : dfs_state)
  : result dfs_state :=
  match stack st with
  | [] => Ret st
  | (prev_x, prev_y, x, y) :: rest =>
      v <- getitem2 (visited st) y x ;;
      if v =? 0 then
        vis <- setitem2 (visited st) y x 1 ;;
        walls <- carve (vertical st) (horizontal st) prev_x prev_y x y ;;
        if pos_eqb (x, y) end_ then
          Ret {| vertical := fst walls; horizontal := snd walls;
                 visited := vis; stack := rest;
                 cursor := cursor st; frames := frames st |}
        else
          let out := if print_progress
                     then get_maze_string (fst walls) (snd walls) :: frames st
                     else frames st in
          let nc := get_neighbors x y (cursor st) in
          stk <- push_unvisited vis x y (fst nc) rest ;;
          Ret {| vertical := fst walls; horizontal := snd walls;
                 visited := vis; stack := stk;
                 cursor := snd nc; frames := out |}
      else
        Ret {| vertical := vertical st; horizontal := horizontal st;
               visited := visited st; stack := rest;
               cursor := cursor st; frames := frames st |}
  end.

Fixpoint dfs_loop (fuel : nat) (end_ : pos) (print_progress : bool)
    (st : dfs_state) : result dfs_state :=
  match stack st with
  | [] => Ret st
  | _ :: _ =>
      match fuel with
      | O => OutOfFuel
      | S fuel' =>
          st' <- dfs_body end_ print_progress st ;;
          dfs_loop fuel' end_ print_progress st'
      end
  end.

(** The state [dfs] enters its loop with. *)
Definition dfs_init (vt hz : list (list string)) (vis : list (list Z))
    (start : pos) (c : nat) : result dfs_state :=
  let nc := get_neighbors (fst start) (snd start) c in
  let stk := rev (map (fun adj : pos => (fst start, snd start, fst adj, snd adj))
                      (fst nc)) in
  vis' <- setitem2 vis (snd start) (fst start) 1 ;;
  Ret {| vertical := vt; horizontal := hz; visited := vis'; stack := stk;
         cursor := snd nc; frames := [] |}.

Definition dfs (fuel : nat) (vt hz : list (list string)) (vis : list (list Z))
    (start end_ : pos) (print_progress : bool) (c : nat) : result dfs_state :=
  st <- dfs_init vt hz vis start c ;;
  dfs_loop fuel end_ print_progress st.

(** ** The generator *)

(** Lines 27-36 of [make_maze]: the state [dfs] leaves, with the two
    points. *)
Definition carved_maze (fuel : nat) (w h : Z) (print_progress : bool) (c : nat)
  : result (dfs_state * pos * pos) :=
  if (w <? 2) || (h <? 2) then Raise (ValueError "maze dimension too small")
  else
    let vis := generate_boundaries w h in
    grid <- generate_grid w h ;;
    pts <- get_distant_points fuel w h c ;;
    let start := fst (fst pts) in
    let end_ := snd (fst pts) in
    st <- dfs fuel (fst grid) (snd grid) vis start end_ print_progress (snd pts) ;;
    Ret (st, start, end_).

(** Lines 39-42: the start and the end are written into the vertical
    matrix. *)
Definition mark_points (vt : list (list string)) (start end_ : pos)
  : result (list (list string)) :=
  s <- getitem2 vt (snd start) (fst start) ;;
  s0 <- str_getitem s 0 ;;
  s2 <- str_getitem s 2 ;;
  vt1 <- setitem2 vt (snd start) (fst start) (s0 ++ START term ++ s2)%string ;;
  e <- getitem2 vt1 (snd end_) (fst end_) ;;
  e0 <- str_getitem e 0 ;;
  e2 <- str_getitem e 2 ;;
  setitem2 vt1 (snd end_) (fst end_) (e0 ++ END term ++ e2)%string.

(** The two matrices [make_maze] passes to [get_maze_string] on line 45. *)
Definition rendered_grid (fuel : nat) (w h : Z) (print_progress : bool) (c : nat)
  : result (list (list string) * list (list string)) :=
  r <- carved_maze fuel w h print_progress c ;;
  let st := fst (fst r) in
  vt <- mark_points (vertical st) (snd (fst r)) (snd r) ;;
  Ret (vt, horizontal st).

Definition make_maze (fuel : nat) (w h : Z) (print_progress : bool) (c : nat)
  : result string :=
  g <- rendered_grid fuel w h print_progress c ;;
  Ret (get_maze_string (fst g) (snd g)).

(** ** The maze as a graph

    What the two matrices mean: [vertical[y][x]] is the wall between the
    cells [(x - 1, y)] and [(x, y)], present when its first character is
    [WALL]; [horizontal[y][x]] is the ceiling between [(x, y - 1)] and
    [(x, y)], present when its second character is [CEILING]. *)

Inductive wall : Type :=
| VWall (x y : Z)
| HWall (x y : Z).

Definition in_grid (w h : Z) (p : pos) : bool :=
  (0 <=? fst p) && (fst p <? w) && (0 <=? snd p) && (snd p <? h).

(** The wall segment that separates two orthogonally adjacent cells. *)
Definition wall_between (a b : pos) : option wall :=
  if (fst a =? fst b) && (Z.abs (snd a - snd b) =? 1) then
    Some (HWall (fst a) (Z.max (snd a) (snd b)))
  else if (snd a =? snd b) && (Z.abs (fst a - fst b) =? 1) then
    Some (VWall (Z.max (fst a) (fst b)) (snd a))
  else None.

Definition char_is (s : string) (i : Z) (c : string) : bool :=
  match str_getitem s i with
  | Ret c' => String.eqb c' c
  | _ => false
  end.

Definition is_open_wall (vt hz : list (list string)) (wl : wall) : bool :=
  match wl with
  | VWall x y => match getitem2 vt y x with
                 | Ret s => char_is s 0 EMPTY
                 | _ => false
                 end
  | HWall x y => match getitem2 hz y x with
                 | Ret s => char_is s 1 EMPTY
                 | _ => false
                 end
  end.

(** [zrange a n] is [a, a + 1, ..., a + n - 1]. *)
Definition zrange (a : Z) (n : nat) : list Z :=
  map (fun k => a + Z.of_nat k) (seq 0 n).

Definition all_cells (w h : Z) : list pos :=
  list_prod (zrange 0 (Z.to_nat w)) (zrange 0 (Z.to_nat h)).

(** The wall segments between two cells of the grid: [x] in [1..w-1] for the
    vertical ones, [y] in [1..h-1] for the horizontal ones. *)
Definition interior_walls (w h : Z) : list wall :=
  map (fun p => VWall (fst p) (snd p))
      (list_prod (zrange 1 (Z.to_nat (w - 1))) (zrange 0 (Z.to_nat h)))
  ++ map (fun p => HWall (fst p) (snd p))
         (list_prod (zrange 0 (Z.to_nat w)) (zrange 1 (Z.to_nat (h - 1)))).

(** The outer boundary: [x = 0] and [x = w] of every row of [vertical],
    [y = 0] and [y = h] of every column of [horizontal]. *)
Definition boundary_walls (w h : Z) : list wall :=
  flat_map (fun y => [VWall 0 y; VWall w y]) (zrange 0 (Z.to_nat h))
  ++ flat_map (fun x => [HWall x 0; HWall x h]) (zrange 0 (Z.to_nat w)).

Definition removed_walls (vt hz : list (list string)) (w h : Z) : nat :=
  List.length (filter (is_open_wall vt hz) (interior_walls w h)).

(** Two cells of the grid with the wall between them removed. *)
Definition passage (vt hz : list (list string)) (w h : Z) (a b : pos) : Prop :=
  in_grid w h a = true /\ in_grid w h b = true /\
  exists wl, wall_between a b = Some wl /\ is_open_wall vt hz wl = true.

Definition connected (adj : pos -> pos -> Prop) (a b : pos) : Prop :=
  clos_refl_trans pos adj a b.

(** [walk adj l]: consecutive cells of [l] are adjacent. *)
Fixpoint walk (adj : pos -> pos -> Prop) (l : list pos) : Prop :=
  match l with
  | a :: (b :: _) as t => adj a b /\ walk adj t
  | _ => True
  end.

(** A cycle: at least three distinct cells, each adjacent to the next and
    the last to the first. *)
Definition simple_cycle (adj : pos -> pos -> Prop) (c : list pos) : Prop :=
  (3 <= List.length c)%nat /\ NoDup c /\ walk adj (c ++ firstn 1 c).

Definition spanning_tree (vt hz : list (list string)) (w h : Z) : Prop :=
  Z.of_nat (removed_walls vt hz w h) = w * h - 1 /\
  (forall a b, in_grid w h a = true -> in_grid w h b = true ->
               connected (passage vt hz w h) a b) /\
  (forall c, ~ simple_cycle (passage vt hz w h) c).

Definition boundary_intact (vt hz : list (list string)) (w h : Z) : Prop :=
  (forall y, 0 <= y < h ->
     getitem2 vt y 0 = get_grid_part WALL false /\ getitem2 vt y w = Ret WALL) /\
  (forall x, 0 <= x < w ->
     getitem2 hz 0 x = get_grid_part CORNER false /\
     getitem2 hz h x = get_grid_part CORNER false) /\
  forall wl, In wl (boundary_walls w h) -> is_open_wall vt hz wl = false.

(** The states the loop of [dfs] passes through. *)
Inductive dfs_reaches (end_ : pos) (print_progress : bool)
  : dfs_state -> dfs_state -> Prop :=
| reaches_here : forall st, dfs_reaches end_ print_progress st st
| reaches_step : forall st st' st'',
    stack st <> [] ->
    dfs_body end_ print_progress st = Ret st' ->
    dfs_reaches end_ print_progress st' st'' ->
    dfs_reaches end_ print_progress st st''.

(** ** Rendered text *)

Definition unlines (ls : list string) : string :=
  join (map (fun l => String.append l NL) ls).

Fixpoint interleave {A : Type} (l1 l2 : list A) : list A :=
  match l1 with
  | [] => l2
  | a :: l1' =>
      a :: match l2 with
           | [] => l1'
           | b :: l2' => b :: interleave l1' l2'
           end
  end.

Definition no_newline (s : string) : Prop :=
  ~ In "010"%char (list_ascii_of_string s).

Definition separator_line (w : Z) (l : string) : Prop :=
  exists cells, List.length cells = Z.to_nat w /\
    Forall (fun c => c = "+--" \/ c = "+  ") cells /\
    l = String.append (join cells) CORNER.

Definition cell_row_line (w : Z) (l : string) : Prop :=
  exists cells, List.length cells = Z.to_nat w /\
    Forall (fun c => exists a b, (a = "|" \/ a = " ") /\
                       (b = " " \/ b = "S" \/ b = "E") /\
                       c = (a ++ b ++ " ")%string) cells /\
    l = String.append (join cells) WALL.

(** ** Ghost description of the matrices

    [tab rows cols f] is the matrix of [rows] rows whose row [j] has
    [cols j] entries, the entry of column [i] being [f i j]. *)
Definition tab {A : Type} (rows : nat) (cols : nat -> nat) (f : nat -> nat -> A)
  : list (list A) :=
  map (fun j => map (fun i => f i j) (seq 0 (cols j))) (seq 0 rows).

Definition upd {A : Type} (f : nat -> nat -> A) (i j : nat) (v : A)
  : nat -> nat -> A :=
  fun i' j' => if ((i' =? i) && (j' =? j))%nat then v else f i' j'.

Definition wall_eqb (a b : wall) : bool :=
  match a, b with
  | VWall x y, VWall x' y' => (x =? x') && (y =? y')
  | HWall x y, HWall x' y' => (x =? x') && (y =? y')
  | _, _ => false
  end.

Definition mem_pos (p : pos) (V : list pos) : bool := existsb (pos_eqb p) V.
Definition mem_wall (wl : wall) (ws : list wall) : bool :=
  existsb (wall_eqb wl) ws.

(** The visited matrix when the cells of [V] have been visited: the extra
    column and the extra row hold 1. *)
Definition vis_fun (w h : Z) (V : list pos) (i j : nat) : Z :=
  let p := (Z.of_nat i, Z.of_nat j) in
  if in_grid w h p && negb (mem_pos p V) then 0 else 1.

(** The wall matrices when the walls of [O] have been carved. *)
Definition vert_fun (w : Z) (ws : list wall) (i j : nat) : string :=
  if Z.of_nat i <? w then
    if mem_wall (VWall (Z.of_nat i) (Z.of_nat j)) ws then "   " else "|  "
  else "|".

Definition horiz_fun (w : Z) (ws : list wall) (i j : nat) : string :=
  if Z.of_nat i <? w then
    if mem_wall (HWall (Z.of_nat i) (Z.of_nat j)) ws then "+  " else "+--"
  else "+".

Definition vis_matrix (w h : Z) (V : list pos) : list (list Z) :=
  tab (S (Z.to_nat h)) (fun _ => S (Z.to_nat w)) (vis_fun w h V).

Definition vert_matrix (w h : Z) (ws : list wall) : list (list string) :=
  tab (S (Z.to_nat h))
      (fun j => if (j <? Z.to_nat h)%nat then S (Z.to_nat w) else 0%nat)
      (vert_fun w ws).

Definition horiz_matrix (w h : Z) (ws : list wall) : list (list string) :=
  tab (S (Z.to_nat h)) (fun _ => S (Z.to_nat w)) (horiz_fun w ws).

(** ** The traversal invariant *)

(** The four positions [get_neighbors] shuffles. *)
Definition nbrs4 (p : pos) : list pos :=
  [(fst p - 1, snd p); (fst p + 1, snd p); (fst p, snd p - 1); (fst p, snd p + 1)].

(** A stack entry [(prev_x, prev_y, x, y)]. *)
Definition edge4 (p c : pos) : Z * Z * Z * Z := (fst p, snd p, fst c, snd c).

(** The matrix entry [carve] overwrites on the way from [p] to [c]. *)
Definition carved_wall (e : pos * pos) : wall :=
  let p := fst e in
  let c := snd e in
  if fst c =? fst p then HWall (fst p) (Z.max (snd p) (snd c))
  else VWall (Z.max (fst p) (fst c)) (snd p).

(** The cells visited once the edges [T] (newest first) have been carved. *)
Definition verts (start : pos) (T : list (pos * pos)) : list pos :=
  map snd T ++ [start].

(** Every carved edge leads from a cell visited before to a cell of the
    grid visited then for the first time. *)
Fixpoint tree (w h : Z) (start : pos) (T : list (pos * pos)) : Prop :=
  match T with
  | [] => True
  | e :: T' =>
      tree w h start T' /\
      In (fst e) (verts start T') /\
      ~ In (snd e) (verts start T') /\
      in_grid w h (snd e) = true /\
      In (snd e) (nbrs4 (fst e))
  end.

Record dfs_inv (w h : Z) (start end_ : pos) (T : list (pos * pos))
    (st : dfs_state) : Prop := {
  inv_start : in_grid w h start = true;
  inv_tree : tree w h start T;
  inv_visited : visited st = vis_matrix w h (verts start T);
  inv_vertical : vertical st = vert_matrix w h (map carved_wall T);
  inv_horizontal : horizontal st = horiz_matrix w h (map carved_wall T);
  inv_stack : forall p c, In (edge4 p c) (stack st) ->
                In p (verts start T) /\ In c (nbrs4 p);
  inv_frontier : forall u n,
      In u (verts start T) -> u = start \/ u <> end_ ->
      In n (nbrs4 u) -> in_grid w h n = true -> ~ In n (verts start T) ->
      In (edge4 u n) (stack st)
}.

(** The number of iterations the loop has left, at most. *)
Definition potential (w h : Z) (T : list (pos * pos)) (st : dfs_state) : nat :=
  4 * (Z.to_nat (w * h) - S (List.length T)) + List.length (stack st).

(** The undirected graph of the carved edges. *)
Definition tree_edge (T : list (pos * pos)) (a b : pos) : Prop :=
  In (a, b) T \/ In (b, a) T.

(** An unvisited cell of the grid: what [not visited[y][x]] tests. *)
Definition unvisited (w h : Z) (V : list pos) (n : pos) : bool :=
  in_grid w h n && negb (mem_pos n V).

(** The coordinates of the interior wall segments. *)
Definition interior (w h : Z) (wl : wall) : Prop :=
  match wl with
  | VWall x y => 1 <= x <= w - 1 /\ 0 <= y < h
  | HWall x y => 0 <= x < w /\ 1 <= y <= h - 1
  end.

(** A cell of a rendered line: three characters, no newline. *)
Definition cell3 (c : string) : Prop :=
  String.length c = 3%nat /\ no_newline c.

(** The vertical matrix once [make_maze] has written the markers [ms] at
    the start and [me] at the end. *)
Definition marked (f : nat -> nat -> string) (s e : pos) (ms me : string)
  : nat -> nat -> string :=
  upd (upd f (Z.to_nat (fst s)) (Z.to_nat (snd s)) ms)
      (Z.to_nat (fst e)) (Z.to_nat (snd e)) me.

(** Case analysis on the integer comparisons of the goal. *)
Ltac zbool :=
  repeat match goal with
    | |- context [?a <=? ?b] => destruct (Z.leb_spec a b)
    | |- context [?a <? ?b] => destruct (Z.ltb_spec a b)
    | |- context [?a =? ?b] => destruct (Z.eqb_spec a b)
    | H : context [?a <=? ?b] |- _ => destruct (Z.leb_spec a b)
    | H : context [?a <? ?b] |- _ => destruct (Z.ltb_spec a b)
    | H : context [?a =? ?b] |- _ => destruct (Z.eqb_spec a b)
    end.

(** ** Following the traversal edge by edge *)

(** The carved edges whose cell was expanded: all but the one into the end. *)
Definition expanded (end_ : pos) (T : list (pos * pos)) : list (pos * pos) :=
  filter (fun e => negb (pos_eqb (snd e) end_)) T.

(** One iteration, seen on the list of carved edges: the popped edge is
    dropped, or it is carved and its cell expanded unless it is the end. *)
Definition dfs_step (w h : Z) (start end_ : pos) (pp : bool)
    (T : list (pos * pos)) (st : dfs_state)
    (T' : list (pos * pos)) (st' : dfs_state) : Prop :=
  exists px py x y rest,
    stack st = (px, py, x, y) :: rest /\
    dfs_body end_ pp st = Ret st' /\
    ((unvisited w h (verts start T) (x, y) = false /\ T' = T /\
      stack st' = rest /\ cursor st' = cursor st /\ frames st' = frames st)
     \/
     (unvisited w h (verts start T) (x, y) = true /\
      In (px, py) (verts start T) /\ T' = ((px, py), (x, y)) :: T /\
      (((x, y) = end_ /\ stack st' = rest /\ cursor st' = cursor st /\
        frames st' = frames st)
       \/
       ((x, y) <> end_ /\
        stack st' =
          rev (map (edge4 (x, y))
                 (filter (unvisited w h ((x, y) :: verts start T))
                         (fst (get_neighbors x y (cursor st))))) ++ rest /\
        cursor st' = (cursor st + 3)%nat /\
        frames st' =
          if pp
          then get_maze_string (vertical st') (horizontal st') :: frames st
          else frames st)))).

(** A state without its printed frames. *)
Definition erase_frames (st : dfs_state) : dfs_state :=
  {| vertical := vertical st; horizontal := horizontal st;
     visited := visited st; stack := stack st;
     cursor := cursor st; frames := [] |}.

Definition map_result {A B : Type} (f : A -> B) (r : result A) : result B :=
  match r with
  | Ret a => Ret (f a)
  | Raise e => Raise e
  | OutOfFuel => OutOfFuel
  end.

(** ** Following the rejection sampling draw by draw *)

(** The position [get_random_pos] makes of the draws [c] and [c + 1]. *)
Definition drawn_pos (w h : Z) (c : nat) : pos :=
  (tape c mod w, tape (S c) mod h).

(** The test of the [while] loop on the pair drawn from cursor [c] on. *)
Definition too_close (w h : Z) (c : nat) : bool :=
  (get_distance (drawn_pos w h c) (drawn_pos w h (c + 2))
   <? distance_threshold w h)%float.


(** ** Reading the text *)

(** The character at line [row], column [col] of a text, both counted from
    0. *)
Definition text_char (txt : string) (row col : nat) : option ascii :=
  match nth_error (split_lines txt) row with
  | Some l => String.get col l
  | None => None
  end.


(** ** Coloured text *)

(** A piece of a line of the text: characters of the picture, or a colour
    code, which a terminal does not show. *)
Inductive piece : Type :=
| Chars (s : string)
| Code (s : string).

(** The line as it is written, and the line with its colour codes
    stripped. *)
Definition written (l : list piece) : string :=
  join (map (fun p => match p with Chars s => s | Code s => s end) l).

Definition stripped (l : list piece) : string :=
  join (map (fun p => match p with Chars s => s | Code _ => "" end) l).

(** The colour codes are those of the terminal. *)
Definition terminal_code (p : piece) : Prop :=
  match p with
  | Chars _ => True
  | Code s => s = green term \/ s = red term \/ s = normal term
  end.

(** A cell-row line with the colours stripped: [w] cells and the right
    edge.  A cell is a wall or a blank, the mark of the cell and a blank;
    only after the mark of the end may another character stand. *)
Definition stripped_row_line (w : Z) (l : string) : Prop :=
  exists cells, List.length cells = Z.to_nat w /\
    Forall (fun c =>
              (exists a b, (a = "|" \/ a = " ") /\
                           (b = " " \/ b = "S" \/ b = "E") /\
                           c = (a ++ b ++ " ")%string) \/
              (exists a z, (a = "|" \/ a = " ") /\
                           String.length z = 1%nat /\ no_newline z /\
                           c = (a ++ "E" ++ z)%string)) cells /\
    l = String.append (join cells) WALL.

(** The pieces of the cell [(i, j)] of the vertical matrix that
    [make_maze] renders, where [a], [a'] are the walls of the start and of
    the end and [e2] is the last character of the end's cell. *)
Definition cell_pieces (w : Z) (ws : list wall) (s e : pos)
    (a a' e2 : string) : nat -> nat -> list piece :=
  upd (upd (fun i j => [Chars (vert_fun w ws i j)])
           (Z.to_nat (fst s)) (Z.to_nat (snd s))
           [Chars a; Code (green term); Chars "S"; Code (normal term);
            Chars " "])
      (Z.to_nat (fst e)) (Z.to_nat (snd e))
      [Chars a'; Code (red term); Chars "E"; Code (normal term); Chars e2].


(** * Python indexing *)

Lemma norm_index_pos (len : nat) (i : Z) :
  0 <= i < Z.of_nat len -> norm_index len i = Some (Z.to_nat i).
Proof.
  intros Hi. unfold norm_index.
  destruct (Z.leb_spec 0 i); [|lia].
  destruct (Z.ltb_spec i (Z.of_nat len)); [|lia].
  reflexivity.
Qed.

Lemma norm_index_neg (len : nat) (i : Z) :
  - Z.of_nat len <= i < 0 ->
  norm_index len i = Some (Z.to_nat (Z.of_nat len + i)).
Proof.
  intros Hi. unfold norm_index.
  destruct (Z.leb_spec 0 i); [lia|]. cbn [andb].
  destruct (Z.ltb_spec i 0); [|lia].
  destruct (Z.leb_spec (- Z.of_nat len) i); [|lia].
  reflexivity.
Qed.

Lemma norm_index_lt (len : nat) (i : Z) (k : nat) :
  norm_index len i = Some k -> (k < len)%nat.
Proof.
  unfold norm_index.
  destruct (Z.leb_spec 0 i), (Z.ltb_spec i (Z.of_nat len)); cbn [andb];
    try (intros [= <-]; lia);
    destruct (Z.ltb_spec i 0), (Z.leb_spec (- Z.of_nat len) i); cbn [andb];
    try discriminate; intros [= <-]; lia.
Qed.

Lemma length_list_set {A : Type} (l : list A) (n : nat) (v : A) :
  List.length (list_set l n v) = List.length l.
Proof.
  revert n; induction l as [|a l IH]; intros [|n]; cbn; auto.
Qed.

Lemma nth_error_list_set_eq {A : Type} (l : list A) (n : nat) (v : A) :
  (n < List.length l)%nat -> nth_error (list_set l n v) n = Some v.
Proof.
  revert n; induction l as [|a l IH]; intros [|n]; cbn; intros H;
    try lia; auto.
  apply IH; lia.
Qed.

Lemma nth_error_list_set_ne {A : Type} (l : list A) (n k : nat) (v : A) :
  k <> n -> nth_error (list_set l n v) k = nth_error l k.
Proof.
  revert n k; induction l as [|a l IH]; intros [|n] [|k] H; cbn; auto;
    try congruence.
Qed.

Lemma list_set_map_seq {A : Type} (g : nat -> A) (n k : nat) (v : A) :
  (k < n)%nat ->
  list_set (map g (seq 0 n)) k v =
  map (fun j => if (j =? k)%nat then v else g j) (seq 0 n).
Proof.
  intros Hk. apply nth_error_ext. intros m.
  destruct (Nat.eq_dec m k) as [->|Hne].
  - rewrite nth_error_list_set_eq by (rewrite length_map, length_seq; lia).
    rewrite nth_error_map, nth_error_seq.
    destruct (Nat.ltb_spec k n); [|lia]. cbn. now rewrite Nat.eqb_refl.
  - rewrite nth_error_list_set_ne by assumption.
    rewrite !nth_error_map, nth_error_seq.
    destruct (Nat.ltb_spec m n); cbn; auto.
    destruct (Nat.eqb_spec m k); congruence.
Qed.

(** * Tabulated matrices *)

Lemma length_tab {A : Type} rows cols (f : nat -> nat -> A) :
  List.length (tab rows cols f) = rows.
Proof. unfold tab. now rewrite length_map, length_seq. Qed.

Lemma nth_error_tab {A : Type} rows cols (f : nat -> nat -> A) (j : nat) :
  (j < rows)%nat ->
  nth_error (tab rows cols f) j = Some (map (fun i => f i j) (seq 0 (cols j))).
Proof.
  intros Hj. unfold tab. rewrite nth_error_map, nth_error_seq.
  destruct (Nat.ltb_spec j rows); [reflexivity|lia].
Qed.

Lemma tab_ext {A : Type} rows cols (f g : nat -> nat -> A) :
  (forall i j, (j < rows)%nat -> (i < cols j)%nat -> f i j = g i j) ->
  tab rows cols f = tab rows cols g.
Proof.
  intros H. unfold tab. apply map_ext_in. intros j Hj.
  apply in_seq in Hj. apply map_ext_in. intros i Hi. apply in_seq in Hi.
  apply H; lia.
Qed.

Lemma getitem_tab {A : Type} rows cols (f : nat -> nat -> A) (y : Z) (j : nat) :
  norm_index rows y = Some j ->
  getitem (tab rows cols f) y = Ret (map (fun i => f i j) (seq 0 (cols j))).
Proof.
  intros Hy. unfold getitem. rewrite length_tab, Hy.
  rewrite nth_error_tab by (eapply norm_index_lt; eauto). reflexivity.
Qed.

Lemma getitem2_tab {A : Type} rows cols (f : nat -> nat -> A) (y x : Z)
    (i j : nat) :
  norm_index rows y = Some j -> norm_index (cols j) x = Some i ->
  getitem2 (tab rows cols f) y x = Ret (f i j).
Proof.
  intros Hy Hx. unfold getitem2. rewrite (getitem_tab _ _ _ _ _ Hy). cbn.
  unfold getitem. rewrite length_map, length_seq, Hx.
  rewrite nth_error_map, nth_error_seq.
  pose proof (norm_index_lt _ _ _ Hx).
  destruct (Nat.ltb_spec i (cols j)); [reflexivity|lia].
Qed.

Lemma setitem2_tab {A : Type} rows cols (f : nat -> nat -> A) (y x : Z)
    (i j : nat) (v : A) :
  norm_index rows y = Some j -> norm_index (cols j) x = Some i ->
  setitem2 (tab rows cols f) y x v = Ret (tab rows cols (upd f i j v)).
Proof.
  intros Hy Hx. unfold setitem2. rewrite (getitem_tab _ _ _ _ _ Hy). cbn.
  pose proof (norm_index_lt _ _ _ Hx) as Hi.
  pose proof (norm_index_lt _ _ _ Hy) as Hj.
  unfold setitem. rewrite length_map, length_seq, Hx. cbn.
  rewrite length_tab, Hy. f_equal.
  unfold tab. rewrite list_set_map_seq by assumption.
  apply map_ext_in. intros j' Hj'. apply in_seq in Hj'.
  destruct (Nat.eqb_spec j' j) as [->|Hne].
  - rewrite list_set_map_seq by assumption.
    apply map_ext. intros i'. unfold upd. rewrite Nat.eqb_refl.
    now rewrite andb_true_r.
  - apply map_ext. intros i'. unfold upd.
    destruct (Nat.eqb_spec j' j); [congruence|]. now rewrite andb_false_r.
Qed.

(** * Fresh grids *)

Lemma map_seq_const {A : Type} (f : nat -> A) (c : A) (n : nat) :
  (forall i, (i < n)%nat -> f i = c) -> map f (seq 0 n) = repeat c n.
Proof.
  intros H. transitivity (map (fun _ : nat => c) (seq 0 n)).
  2: { now rewrite map_const, length_seq. }
  apply map_ext_in. intros i Hi. apply in_seq in Hi. apply H. lia.
Qed.

Lemma mapM_const {A B : Type} (b : B) (l : list A) :
  mapM (fun _ => Ret b) l = Ret (map (fun _ => b) l).
Proof. induction l as [|a l IH]; cbn; [|rewrite IH]; reflexivity. Qed.

Lemma tab_snoc {A : Type} rows cols (f : nat -> nat -> A) :
  tab (S rows) cols f =
  tab rows cols f ++ [map (fun i => f i rows) (seq 0 (cols rows))].
Proof. unfold tab. now rewrite seq_S, map_app. Qed.

Lemma map_seq_snoc {A : Type} (g : nat -> A) (n : nat) :
  map g (seq 0 (S n)) = map g (seq 0 n) ++ [g n].
Proof. now rewrite seq_S, map_app. Qed.

Lemma generate_boundaries_fresh (w h : Z) :
  0 <= w -> 0 <= h -> generate_boundaries w h = vis_matrix w h [].
Proof.
  intros Hw Hh. unfold generate_boundaries, vis_matrix.
  rewrite tab_snoc. f_equal.
  - unfold tab. apply map_ext_in. intros j Hj. apply in_seq in Hj.
    rewrite map_seq_snoc. f_equal.
    + symmetry. apply map_seq_const. intros i Hi. unfold vis_fun, in_grid. cbn.
      destruct (Z.ltb_spec (Z.of_nat i) w), (Z.ltb_spec (Z.of_nat j) h);
        try lia.
      destruct (Z.leb_spec 0 (Z.of_nat i)), (Z.leb_spec 0 (Z.of_nat j));
        try lia. reflexivity.
    + unfold vis_fun, in_grid. cbn.
      destruct (Z.ltb_spec (Z.of_nat (Z.to_nat w)) w); [lia|].
      now rewrite andb_false_r.
  - f_equal. replace (Z.to_nat (w + 1)) with (S (Z.to_nat w)) by lia.
    symmetry. apply map_seq_const. intros i Hi. unfold vis_fun, in_grid. cbn.
    destruct (Z.ltb_spec (Z.of_nat (Z.to_nat h)) h); [lia|].
    now rewrite andb_false_r.
Qed.

Lemma generate_grid_fresh (w h : Z) :
  0 <= h ->
  generate_grid w h = Ret (vert_matrix w h [], horiz_matrix w h []).
Proof.
  intros Hh. unfold generate_grid. cbn [get_grid_part existsb negb bind].
  change (mapM _ (seq 0 (Z.to_nat h))) with
    (mapM (A := nat) (fun _ => Ret (repeat "|  " (Z.to_nat w) ++ [WALL]))
          (seq 0 (Z.to_nat h))).
  change (mapM _ (seq 0 (Z.to_nat (h + 1)))) with
    (mapM (A := nat) (fun _ => Ret (repeat "+--" (Z.to_nat w) ++ [CORNER]))
          (seq 0 (Z.to_nat (h + 1)))).
  rewrite !mapM_const. cbn [bind]. f_equal. f_equal.
  - unfold vert_matrix. rewrite tab_snoc.
    rewrite Nat.ltb_irrefl. cbn [seq map]. f_equal.
    unfold tab. apply map_ext_in. intros j Hj. apply in_seq in Hj.
    destruct (Nat.ltb_spec j (Z.to_nat h)); [|lia].
    rewrite map_seq_snoc. f_equal.
    + symmetry. apply map_seq_const. intros i Hi. unfold vert_fun. cbn.
      destruct (Z.ltb_spec (Z.of_nat i) w); [reflexivity|lia].
    + unfold vert_fun. destruct (Z.ltb_spec (Z.of_nat (Z.to_nat w)) w);
        [lia|reflexivity].
  - unfold horiz_matrix, tab.
    replace (Z.to_nat (h + 1)) with (S (Z.to_nat h)) by lia.
    apply map_ext. intros j.
    rewrite map_seq_snoc. f_equal.
    + symmetry. apply map_seq_const. intros i Hi. unfold horiz_fun. cbn.
      destruct (Z.ltb_spec (Z.of_nat i) w); [reflexivity|lia].
    + unfold horiz_fun. destruct (Z.ltb_spec (Z.of_nat (Z.to_nat w)) w);
        [lia|reflexivity].
Qed.

(** * Shuffling *)

Lemma list_set_swap_perm {A : Type} (t : list A) (j : nat) (b x : A) :
  nth_error t j = Some b -> Permutation (b :: list_set t j x) (x :: t).
Proof.
  revert j. induction t as [|y t IH]; intros [|j] H; cbn in H; try discriminate.
  - injection H as ->. cbn. apply perm_swap.
  - cbn. eapply perm_trans; [apply perm_swap|].
    eapply perm_trans; [apply perm_skip, IH, H|]. apply perm_swap.
Qed.

Lemma list_set_same {A : Type} (l : list A) (i : nat) (a : A) :
  nth_error l i = Some a -> list_set l i a = l.
Proof.
  revert i. induction l as [|y l IH]; intros [|i] H; cbn in *;
    try discriminate.
  - now injection H as ->.
  - f_equal. now apply IH.
Qed.

Lemma swap_perm {A : Type} (l : list A) (i j : nat) :
  Permutation (swap l i j) l.
Proof.
  revert i j. induction l as [|x t IH]; intros i j.
  - unfold swap. destruct i, j; reflexivity.
  - unfold swap. destruct i as [|i], j as [|j]; cbn [nth_error].
    + cbn. reflexivity.
    + destruct (nth_error t j) as [b|] eqn:Hj; [|reflexivity].
      cbn. now apply list_set_swap_perm.
    + destruct (nth_error t i) as [a|] eqn:Hi; [|reflexivity].
      cbn. now apply list_set_swap_perm.
    + specialize (IH i j). unfold swap in IH.
      destruct (nth_error t i) as [a|]; [|reflexivity].
      destruct (nth_error t j) as [b|]; [|reflexivity].
      cbn. now apply perm_skip.
Qed.

Lemma shuffle_from_perm {A : Type} (i : nat) (l : list A) (c : nat) :
  Permutation (fst (shuffle_from i l c)) l.
Proof.
  revert l c. induction i as [|k IH]; intros l c; cbn [shuffle_from].
  - reflexivity.
  - eapply perm_trans; [apply IH|]. apply swap_perm.
Qed.

Lemma shuffle_from_cursor {A : Type} (i : nat) (l : list A) (c : nat) :
  snd (shuffle_from i l c) = (c + i)%nat.
Proof.
  revert l c. induction i as [|k IH]; intros l c; cbn [shuffle_from].
  - cbn. lia.
  - rewrite IH. lia.
Qed.

Lemma shuffle_perm {A : Type} (l : list A) (c : nat) :
  Permutation (fst (shuffle l c)) l.
Proof. apply shuffle_from_perm. Qed.

Lemma nbrs4_NoDup (p : pos) : NoDup (nbrs4 p).
Proof.
  destruct p as [x y]. unfold nbrs4. cbn [fst snd].
  repeat constructor; cbn; intros H;
    repeat (destruct H as [H|H]; [injection H; lia|]); exact H.
Qed.

Lemma get_neighbors_perm (x y : Z) (c : nat) :
  Permutation (fst (get_neighbors x y c)) (nbrs4 (x, y)).
Proof. apply shuffle_perm. Qed.

Lemma get_neighbors_In (x y : Z) (c : nat) (n : pos) :
  In n (fst (get_neighbors x y c)) <-> In n (nbrs4 (x, y)).
Proof.
  split; apply Permutation_in;
    [|symmetry]; apply get_neighbors_perm.
Qed.

(** C9: whatever the random source draws, [get_neighbors(x, y)] returns the
    four axis-aligned neighbours of [(x, y)], each exactly once, in some
    order; it consumes three draws. *)
Theorem get_neighbors_permutation (x y : Z) (c : nat) :
  Permutation (fst (get_neighbors x y c))
              [(x - 1, y); (x + 1, y); (x, y - 1); (x, y + 1)] /\
  NoDup (fst (get_neighbors x y c)).
Proof.
  pose proof (get_neighbors_perm x y c) as HP. split; [exact HP|].
  eapply Permutation_NoDup; [symmetry; exact HP|]. apply nbrs4_NoDup.
Qed.

(** * Decidable membership *)

Lemma pos_eqb_spec (a b : pos) : reflect (a = b) (pos_eqb a b).
Proof.
  destruct a as [x y], b as [x' y']. unfold pos_eqb. cbn [fst snd].
  zbool; cbn; constructor; congruence.
Qed.

Lemma wall_eqb_spec (a b : wall) : reflect (a = b) (wall_eqb a b).
Proof.
  destruct a as [x y|x y], b as [x' y'|x' y']; cbn;
    try (constructor; congruence); zbool; cbn; constructor; congruence.
Qed.

Lemma mem_pos_In (p : pos) (V : list pos) : mem_pos p V = true <-> In p V.
Proof.
  unfold mem_pos. rewrite existsb_exists. split.
  - intros [q [Hq He]]. destruct (pos_eqb_spec p q); [now subst|discriminate].
  - intros H. exists p. split; [exact H|]. now destruct (pos_eqb_spec p p).
Qed.

Lemma mem_wall_In (wl : wall) (ws : list wall) :
  mem_wall wl ws = true <-> In wl ws.
Proof.
  unfold mem_wall. rewrite existsb_exists. split.
  - intros [q [Hq He]]. destruct (wall_eqb_spec wl q); [now subst|discriminate].
  - intros H. exists wl. split; [exact H|]. now destruct (wall_eqb_spec wl wl).
Qed.

Lemma mem_pos_false (p : pos) (V : list pos) : mem_pos p V = false <-> ~ In p V.
Proof.
  rewrite <- mem_pos_In. destruct (mem_pos p V); split; congruence.
Qed.

Lemma in_grid_iff (w h : Z) (p : pos) :
  in_grid w h p = true <-> 0 <= fst p < w /\ 0 <= snd p < h.
Proof. unfold in_grid. zbool; cbn; split; intros; try lia; discriminate. Qed.

(** * The visited matrix *)

Lemma norm_index_sentinel (n : nat) (i : Z) :
  -1 <= i <= Z.of_nat n ->
  exists k, norm_index (S n) i = Some k /\
            ((i = -1 /\ k = n) \/ (0 <= i /\ k = Z.to_nat i)).
Proof.
  intros Hi. destruct (Z.eq_dec i (-1)) as [->|Hne].
  - exists n. split; [|left; auto]. rewrite norm_index_neg by lia. f_equal. lia.
  - exists (Z.to_nat i). split; [|right; lia]. apply norm_index_pos. lia.
Qed.

Lemma getitem2_vis (w h : Z) (V : list pos) (x y : Z) :
  0 <= w -> 0 <= h -> -1 <= x <= w -> -1 <= y <= h ->
  getitem2 (vis_matrix w h V) y x =
  Ret (if in_grid w h (x, y) && negb (mem_pos (x, y) V) then 0 else 1).
Proof.
  intros Hw Hh Hx Hy.
  destruct (norm_index_sentinel (Z.to_nat h) y) as [j [Hj Hj']]; [lia|].
  destruct (norm_index_sentinel (Z.to_nat w) x) as [i [Hi Hi']]; [lia|].
  unfold vis_matrix. rewrite (getitem2_tab _ _ _ _ _ i j Hj Hi). f_equal.
  unfold vis_fun.
  destruct Hj' as [[-> ->]|[Hy0 ->]], Hi' as [[-> ->]|[Hx0 ->]];
    rewrite ?Z2Nat.id by lia.
  - unfold in_grid; cbn [fst snd]. zbool; cbn; try lia; reflexivity.
  - unfold in_grid; cbn [fst snd]. zbool; cbn; try lia; reflexivity.
  - unfold in_grid; cbn [fst snd]. zbool; cbn; try lia; reflexivity.
  - reflexivity.
Qed.

Lemma setitem2_vis (w h : Z) (V : list pos) (p : pos) :
  in_grid w h p = true ->
  setitem2 (vis_matrix w h V) (snd p) (fst p) 1 = Ret (vis_matrix w h (p :: V)).
Proof.
  intros Hp. apply in_grid_iff in Hp. destruct p as [x y]. cbn [fst snd] in *.
  unfold vis_matrix.
  rewrite (setitem2_tab _ _ _ _ _ (Z.to_nat x) (Z.to_nat y))
    by (apply norm_index_pos; lia).
  f_equal. apply tab_ext. intros i j Hj Hi. unfold upd, vis_fun.
  cbn [mem_pos existsb].
  destruct (Nat.eqb_spec i (Z.to_nat x)), (Nat.eqb_spec j (Z.to_nat y));
    cbn [andb].
  - subst. rewrite !Z2Nat.id by lia.
    destruct (pos_eqb_spec (x, y) (x, y)); [|congruence].
    cbn. now rewrite andb_false_r.
  - destruct (pos_eqb_spec (Z.of_nat i, Z.of_nat j) (x, y)) as [E|E];
      [injection E; lia|reflexivity].
  - destruct (pos_eqb_spec (Z.of_nat i, Z.of_nat j) (x, y)) as [E|E];
      [injection E; lia|reflexivity].
  - destruct (pos_eqb_spec (Z.of_nat i, Z.of_nat j) (x, y)) as [E|E];
      [injection E; lia|reflexivity].
Qed.

(** * The wall matrices *)

Lemma vert_matrix_cons_H (w h : Z) (ws : list wall) (a b : Z) :
  vert_matrix w h (HWall a b :: ws) = vert_matrix w h ws.
Proof. reflexivity. Qed.

Lemma horiz_matrix_cons_V (w h : Z) (ws : list wall) (a b : Z) :
  horiz_matrix w h (VWall a b :: ws) = horiz_matrix w h ws.
Proof. reflexivity. Qed.

Lemma setitem2_horiz (w h : Z) (ws : list wall) (x y : Z) :
  0 <= x < w -> 0 <= y <= h ->
  setitem2 (horiz_matrix w h ws) y x "+  " =
  Ret (horiz_matrix w h (HWall x y :: ws)).
Proof.
  intros Hx Hy. unfold horiz_matrix.
  rewrite (setitem2_tab _ _ _ _ _ (Z.to_nat x) (Z.to_nat y))
    by (apply norm_index_pos; lia).
  f_equal. apply tab_ext. intros i j Hj Hi. unfold upd, horiz_fun.
  cbn [mem_wall existsb wall_eqb].
  destruct (Nat.eqb_spec i (Z.to_nat x)), (Nat.eqb_spec j (Z.to_nat y));
    cbn [andb]; subst; rewrite ?Z2Nat.id by lia;
    zbool; cbn [andb orb]; try lia; reflexivity.
Qed.

Lemma setitem2_vert (w h : Z) (ws : list wall) (x y : Z) :
  0 <= x < w -> 0 <= y < h ->
  setitem2 (vert_matrix w h ws) y x "   " =
  Ret (vert_matrix w h (VWall x y :: ws)).
Proof.
  intros Hx Hy. unfold vert_matrix.
  rewrite (setitem2_tab _ _ _ _ _ (Z.to_nat x) (Z.to_nat y)).
  - f_equal. apply tab_ext. intros i j Hj Hi. unfold upd, vert_fun.
    cbn [mem_wall existsb wall_eqb].
    destruct (Nat.eqb_spec i (Z.to_nat x)), (Nat.eqb_spec j (Z.to_nat y));
      cbn [andb]; subst; rewrite ?Z2Nat.id by lia;
      zbool; cbn [andb orb]; try lia; reflexivity.
  - apply norm_index_pos; lia.
  - destruct (Nat.ltb_spec (Z.to_nat y) (Z.to_nat h)); [|lia].
    apply norm_index_pos; lia.
Qed.

Lemma nbrs4_cases (p c : pos) :
  In c (nbrs4 p) ->
  (fst c = fst p - 1 /\ snd c = snd p) \/ (fst c = fst p + 1 /\ snd c = snd p) \/
  (fst c = fst p /\ snd c = snd p - 1) \/ (fst c = fst p /\ snd c = snd p + 1).
Proof.
  unfold nbrs4. cbn. intros [<-|[<-|[<-|[<-|[]]]]]; cbn; auto.
Qed.

Lemma carve_spec (w h : Z) (ws : list wall) (p c : pos) :
  in_grid w h p = true -> in_grid w h c = true -> In c (nbrs4 p) ->
  carve (vert_matrix w h ws) (horiz_matrix w h ws)
        (fst p) (snd p) (fst c) (snd c) =
  Ret (vert_matrix w h (carved_wall (p, c) :: ws),
       horiz_matrix w h (carved_wall (p, c) :: ws)).
Proof.
  intros Hp Hc Hn. apply in_grid_iff in Hp, Hc. apply nbrs4_cases in Hn.
  unfold carve, carved_wall. cbn [fst snd].
  destruct (Z.eqb_spec (fst c) (fst p)) as [E|E].
  - cbn [get_grid_part existsb negb bind String.eqb Ascii.eqb Bool.eqb orb
         CORNER WALL EMPTY CEILING String.append].
    rewrite setitem2_horiz by lia. reflexivity.
  - destruct (Z.eqb_spec (snd c) (snd p)) as [E'|E']; [|lia].
    cbn [get_grid_part existsb negb bind String.eqb Ascii.eqb Bool.eqb orb
         CORNER WALL EMPTY CEILING String.append].
    rewrite setitem2_vert by lia. reflexivity.
Qed.

(** * Cells of the grid *)

Lemma zrange_In (a : Z) (n : nat) (z : Z) :
  In z (zrange a n) <-> a <= z < a + Z.of_nat n.
Proof.
  unfold zrange. rewrite in_map_iff. split.
  - intros [k [<- Hk]]. apply in_seq in Hk. lia.
  - intros Hz. exists (Z.to_nat (z - a)). split; [lia|]. apply in_seq. lia.
Qed.

Lemma zrange_NoDup (a : Z) (n : nat) : NoDup (zrange a n).
Proof.
  unfold zrange. apply Finite.Injective_map_NoDup; [|apply seq_NoDup].
  intros i j H. lia.
Qed.

Lemma length_zrange (a : Z) (n : nat) : List.length (zrange a n) = n.
Proof. unfold zrange. now rewrite length_map, length_seq. Qed.

Lemma NoDup_list_prod {A B : Type} (l : list A) (l' : list B) :
  NoDup l -> NoDup l' -> NoDup (list_prod l l').
Proof.
  intros Hl Hl'. induction Hl as [|a l Ha Hl IH]; cbn; [constructor|].
  apply NoDup_app.
  - apply Finite.Injective_map_NoDup; [|exact Hl']. intros x y H. congruence.
  - exact IH.
  - intros [x y] Hin Hin'. apply in_map_iff in Hin as [b [E _]].
    injection E as <- <-. apply in_prod_iff in Hin'. stauto.
Qed.

Lemma all_cells_In (w h : Z) (p : pos) :
  In p (all_cells w h) <-> in_grid w h p = true.
Proof.
  destruct p as [x y]. unfold all_cells.
  etransitivity; [apply in_prod_iff|].
  rewrite !zrange_In, in_grid_iff. cbn [fst snd]. lia.
Qed.

Lemma all_cells_NoDup (w h : Z) : NoDup (all_cells w h).
Proof. apply NoDup_list_prod; apply zrange_NoDup. Qed.

Lemma length_all_cells (w h : Z) :
  0 <= w -> 0 <= h -> List.length (all_cells w h) = Z.to_nat (w * h).
Proof.
  intros Hw Hh. unfold all_cells.
  etransitivity; [apply length_prod|]. rewrite !length_zrange. nia.
Qed.

(** * Trees of carved edges *)

Lemma verts_cons (start : pos) (e : pos * pos) (T : list (pos * pos)) :
  verts start (e :: T) = snd e :: verts start T.
Proof. reflexivity. Qed.

Lemma length_verts (start : pos) (T : list (pos * pos)) :
  List.length (verts start T) = S (List.length T).
Proof. unfold verts. rewrite length_app, length_map. cbn. lia. Qed.

Lemma start_in_verts (start : pos) (T : list (pos * pos)) :
  In start (verts start T).
Proof. unfold verts. apply in_or_app. right. now left. Qed.

Lemma tree_verts_NoDup (w h : Z) (start : pos) (T : list (pos * pos)) :
  tree w h start T -> NoDup (verts start T).
Proof.
  induction T as [|e T IH]; cbn [tree].
  - intros _. cbn. constructor; [intros []|constructor].
  - intros (HT & _ & Hc & _). rewrite verts_cons. constructor; auto.
Qed.

Lemma tree_verts_in_grid (w h : Z) (start : pos) (T : list (pos * pos)) :
  in_grid w h start = true -> tree w h start T ->
  forall v, In v (verts start T) -> in_grid w h v = true.
Proof.
  intros Hs. induction T as [|e T IH]; cbn [tree].
  - intros _ v [<-|[]]. exact Hs.
  - intros (HT & _ & _ & Hc & _) v. rewrite verts_cons. intros [<-|Hv]; auto.
Qed.

Lemma tree_size (w h : Z) (start : pos) (T : list (pos * pos)) :
  0 <= w -> 0 <= h -> in_grid w h start = true -> tree w h start T ->
  (S (List.length T) <= Z.to_nat (w * h))%nat.
Proof.
  intros Hw Hh Hs HT. rewrite <- length_verts with (start := start).
  rewrite <- length_all_cells by assumption.
  apply NoDup_incl_length; [eapply tree_verts_NoDup; eauto|].
  intros v Hv. apply all_cells_In. eapply tree_verts_in_grid; eauto.
Qed.

Lemma nbrs4_range (w h : Z) (p n : pos) :
  in_grid w h p = true -> In n (nbrs4 p) ->
  -1 <= fst n <= w /\ -1 <= snd n <= h.
Proof.
  intros Hp Hn. apply in_grid_iff in Hp. apply nbrs4_cases in Hn. lia.
Qed.

(** * Pushing the unvisited neighbours *)

Lemma push_unvisited_spec (w h : Z) (V : list pos) (x y : Z)
    (nbrs : list pos) (stk : list (Z * Z * Z * Z)) :
  0 <= w -> 0 <= h ->
  (forall n, In n nbrs -> -1 <= fst n <= w /\ -1 <= snd n <= h) ->
  push_unvisited (vis_matrix w h V) x y nbrs stk =
  Ret (rev (map (edge4 (x, y)) (filter (unvisited w h V) nbrs)) ++ stk).
Proof.
  intros Hw Hh. revert stk.
  induction nbrs as [|[nx ny] nbrs IH]; intros stk Hr; cbn [push_unvisited].
  - reflexivity.
  - destruct (Hr (nx, ny) (or_introl eq_refl)) as [Hx Hy]. cbn [fst snd] in *.
    rewrite getitem2_vis by assumption. cbn [bind].
    rewrite IH by (intros n Hn; apply Hr; now right).
    cbn [filter]. unfold unvisited at 2.
    destruct (in_grid w h (nx, ny) && negb (mem_pos (nx, ny) V)); cbn.
    + now rewrite <- app_assoc.
    + reflexivity.
Qed.

(** * One iteration preserves the invariant *)

Lemma edge4_inj (p c p' c' : pos) :
  edge4 p c = edge4 p' c' -> p = p' /\ c = c'.
Proof.
  destruct p, c, p', c'. unfold edge4. cbn [fst snd].
  intros [= -> -> -> ->]. auto.
Qed.

Lemma unvisited_true (w h : Z) (V : list pos) (n : pos) :
  unvisited w h V n = true <-> in_grid w h n = true /\ ~ In n V.
Proof.
  unfold unvisited. rewrite andb_true_iff, negb_true_iff, mem_pos_false.
  reflexivity.
Qed.

Lemma length_pushed (w h : Z) (V : list pos) (x y : Z) (c : nat) :
  (List.length (rev (map (edge4 (x, y))
      (filter (unvisited w h V) (fst (get_neighbors x y c))))) <= 4)%nat.
Proof.
  rewrite length_rev, length_map.
  eapply Nat.le_trans; [apply filter_length_le|].
  rewrite (Permutation_length (get_neighbors_perm x y c)). cbn. lia.
Qed.

Lemma dfs_body_inv (w h : Z) (start end_ : pos) (pp : bool)
    (T : list (pos * pos)) (st : dfs_state) :
  0 <= w -> 0 <= h ->
  dfs_inv w h start end_ T st -> stack st <> [] ->
  exists T' st',
    dfs_body end_ pp st = Ret st' /\
    dfs_inv w h start end_ T' st' /\
    (potential w h T' st' < potential w h T st)%nat.
Proof.
  intros Hw Hh [Hs HT Hvis Hvt Hhz Hstk Hfr] Hne.
  destruct st as [vt hz vis stk cur frs].
  cbn [vertical horizontal visited stack cursor frames] in *. subst vt hz vis.
  destruct stk as [|e rest]; [congruence|]. clear Hne.
  destruct e as [[[px py] x] y].
  destruct (Hstk (px, py) (x, y) (or_introl eq_refl)) as [Hp Hc].
  assert (Hpg : in_grid w h (px, py) = true)
    by (eapply tree_verts_in_grid; eauto).
  destruct (nbrs4_range w h _ _ Hpg Hc) as [Hxr Hyr]. cbn [fst snd] in Hxr, Hyr.
  unfold dfs_body. cbn [vertical horizontal visited stack cursor frames].
  rewrite getitem2_vis by assumption. cbn [bind].
  fold (unvisited w h (verts start T) (x, y)).
  destruct (unvisited w h (verts start T) (x, y)) eqn:Hunv.
  - (* the cell is new: mark it, carve, and expand unless it is the end *)
    apply unvisited_true in Hunv as [Hcg Hcn].
    change (0 =? 0) with true. cbv iota.
    pose proof (setitem2_vis w h (verts start T) (x, y) Hcg) as Evis.
    cbn [fst snd] in Evis. rewrite Evis. clear Evis. cbn [bind].
    pose proof (carve_spec w h (map carved_wall T) (px, py) (x, y) Hpg Hcg Hc)
      as Ecarve.
    cbn [fst snd] in Ecarve. rewrite Ecarve. clear Ecarve. cbn [bind fst snd].
    assert (HT' : tree w h start (((px, py), (x, y)) :: T))
      by (cbn [tree fst snd]; auto).
    pose proof (tree_size w h start _ Hw Hh Hs HT') as Hsize.
    cbn [List.length] in Hsize.
    assert (Hold : forall u n, In u (verts start T) -> u = start \/ u <> end_ ->
              In n (nbrs4 u) -> in_grid w h n = true ->
              ~ In n ((x, y) :: verts start T) -> In (edge4 u n) rest).
    { intros u n Hu Hue Hn Hng Hnv.
      destruct (Hfr u n Hu Hue Hn Hng) as [E|Hin]; [| |exact Hin].
      - intros Hin. apply Hnv. now right.
      - apply (edge4_inj (px, py) (x, y)) in E as [_ <-].
        exfalso. apply Hnv. now left. }
    destruct (pos_eqb_spec (x, y) end_) as [Eend|Nend].
    + eexists (((px, py), (x, y)) :: T), _. split; [reflexivity|]. split.
      * constructor; cbn [vertical horizontal visited stack]; auto.
        -- intros p c Hin. destruct (Hstk p c (or_intror Hin)) as [Hp' Hc'].
           split; [|exact Hc']. rewrite verts_cons. now right.
        -- intros u n Hu Hue Hn Hng Hnv. rewrite verts_cons in Hu, Hnv.
           cbn [snd] in Hu, Hnv. destruct Hu as [<-|Hu].
           ++ exfalso. destruct Hue as [E|E]; [|congruence].
              apply Hcn. rewrite E. apply start_in_verts.
           ++ eapply Hold; eauto.
      * unfold potential. cbn [stack List.length]. lia.
    + rewrite push_unvisited_spec; try assumption.
      2: { intros n Hn. apply get_neighbors_In in Hn.
           eapply nbrs4_range; eauto. }
      cbn [bind]. eexists (((px, py), (x, y)) :: T), _.
      split; [reflexivity|]. split.
      * constructor; cbn [vertical horizontal visited stack]; auto.
        -- intros p c Hin. apply in_app_or in Hin as [Hin|Hin].
           ++ apply in_rev, in_map_iff in Hin as [n [E Hn]].
              apply edge4_inj in E as [<- <-].
              apply filter_In in Hn as [Hn _]. apply get_neighbors_In in Hn.
              split; [rewrite verts_cons; now left|exact Hn].
           ++ destruct (Hstk p c (or_intror Hin)) as [Hp' Hc'].
              split; [|exact Hc']. rewrite verts_cons. now right.
        -- intros u n Hu Hue Hn Hng Hnv. rewrite verts_cons in Hu, Hnv.
           cbn [snd] in Hu, Hnv. apply in_or_app. destruct Hu as [<-|Hu].
           ++ left. apply -> in_rev. apply in_map. apply filter_In. split.
              ** now apply get_neighbors_In.
              ** apply unvisited_true. auto.
           ++ right. eapply Hold; eauto.
      * unfold potential. cbn [stack List.length]. rewrite length_app.
        pose proof (length_pushed w h (verts start (((px, py), (x, y)) :: T))
                      x y cur).
        rewrite verts_cons in H. cbn [snd] in H. lia.
  - (* the cell is visited or outside the grid: the edge is dropped *)
    change (1 =? 0) with false. cbv iota.
    eexists T, _. split; [reflexivity|]. split.
    + constructor; cbn [vertical horizontal visited stack]; auto.
      * intros p c Hin. apply Hstk. now right.
      * intros u n Hu Hue Hn Hng Hnv.
        destruct (Hfr u n Hu Hue Hn Hng Hnv) as [E|Hin]; [|exact Hin].
        apply (edge4_inj (px, py) (x, y)) in E as [_ <-].
        assert (unvisited w h (verts start T) (x, y) = true)
          by (apply unvisited_true; auto).
        congruence.
    + unfold potential. cbn [stack List.length]. lia.
Qed.

(** * The loop *)

Lemma dfs_init_inv (w h : Z) (start end_ : pos) (c : nat) :
  0 <= w -> 0 <= h -> in_grid w h start = true ->
  exists st,
    dfs_init (vert_matrix w h []) (horiz_matrix w h []) (vis_matrix w h [])
             start c = Ret st /\
    dfs_inv w h start end_ [] st /\
    (potential w h [] st <= 4 * Z.to_nat (w * h))%nat.
Proof.
  intros Hw Hh Hs. unfold dfs_init.
  rewrite (setitem2_vis w h [] start Hs). cbn [bind].
  eexists. split; [reflexivity|]. split.
  - constructor; cbn [vertical horizontal visited stack tree map]; auto.
    + intros p n Hin. apply in_rev, in_map_iff in Hin as [adj [E Hadj]].
      apply (edge4_inj start adj) in E as [<- <-].
      split; [apply start_in_verts|]. now apply get_neighbors_In in Hadj.
    + intros u n [<-|[]] _ Hn _ _. apply -> in_rev.
      apply in_map_iff. exists n. split; [reflexivity|].
      now apply get_neighbors_In.
  - unfold potential. cbn [stack List.length]. rewrite length_rev, length_map.
    rewrite (Permutation_length (get_neighbors_perm _ _ c)). cbn [List.length nbrs4].
    pose proof (tree_size w h start [] Hw Hh Hs I). cbn [List.length] in H. lia.
Qed.

Lemma dfs_loop_inv (w h : Z) (start end_ : pos) (pp : bool) (fuel : nat) :
  0 <= w -> 0 <= h ->
  forall T st,
    dfs_inv w h start end_ T st -> (potential w h T st <= fuel)%nat ->
    exists T' st',
      dfs_loop fuel end_ pp st = Ret st' /\
      dfs_inv w h start end_ T' st' /\ stack st' = [] /\
      dfs_reaches end_ pp st st'.
Proof.
  intros Hw Hh. induction fuel as [|fuel IH]; intros T st Hinv Hpot.
  - destruct (stack st) as [|e rest] eqn:Hstk.
    + exists T, st. cbn. rewrite Hstk.
      split; [reflexivity|]. split; [exact Hinv|]. split; [reflexivity|].
      constructor.
    + unfold potential in Hpot. rewrite Hstk in Hpot. cbn in Hpot. lia.
  - destruct (stack st) as [|e rest] eqn:Hstk.
    + exists T, st. cbn. rewrite Hstk.
      split; [reflexivity|]. split; [exact Hinv|]. split; [reflexivity|].
      constructor.
    + assert (Hne : stack st <> []) by congruence.
      destruct (dfs_body_inv w h start end_ pp T st Hw Hh Hinv Hne)
        as (T1 & st1 & Hbody & Hinv1 & Hlt).
      destruct (IH T1 st1 Hinv1) as (T' & st' & Hloop & Hinv' & Hemp & Hreach);
        [lia|].
      exists T', st'. cbn [dfs_loop]. rewrite Hstk, Hbody. cbn [bind].
      split; [exact Hloop|]. split; [exact Hinv'|]. split; [exact Hemp|].
      econstructor; eauto.
Qed.

Lemma dfs_reaches_inv (w h : Z) (start end_ : pos) (pp : bool)
    (st st' : dfs_state) :
  0 <= w -> 0 <= h ->
  dfs_reaches end_ pp st st' ->
  forall T, dfs_inv w h start end_ T st ->
  exists T', dfs_inv w h start end_ T' st'.
Proof.
  intros Hw Hh Hr. induction Hr as [st|st st1 st' Hne Hbody Hr IH]; intros T Hinv.
  - now exists T.
  - destruct (dfs_body_inv w h start end_ pp T st Hw Hh Hinv Hne)
      as (T1 & st1' & Hbody' & Hinv1 & _).
    rewrite Hbody in Hbody'. injection Hbody' as <-. eauto.
Qed.

Lemma dfs_fresh (w h : Z) (start end_ : pos) (pp : bool) (c fuel : nat) :
  0 <= w -> 0 <= h -> in_grid w h start = true ->
  (4 * Z.to_nat (w * h) <= fuel)%nat ->
  exists T st0 st,
    dfs_init (vert_matrix w h []) (horiz_matrix w h []) (vis_matrix w h [])
             start c = Ret st0 /\
    dfs fuel (vert_matrix w h []) (horiz_matrix w h []) (vis_matrix w h [])
        start end_ pp c = Ret st /\
    dfs_inv w h start end_ T st /\ stack st = [] /\
    dfs_reaches end_ pp st0 st.
Proof.
  intros Hw Hh Hs Hfuel.
  destruct (dfs_init_inv w h start end_ c Hw Hh Hs) as (st0 & Hinit & Hinv0 & Hpot).
  destruct (dfs_loop_inv w h start end_ pp fuel Hw Hh [] st0 Hinv0)
    as (T & st & Hloop & Hinv & Hemp & Hreach); [lia|].
  exists T, st0, st. unfold dfs. rewrite Hinit. cbn [bind]. auto.
Qed.

(** * Reading the wall matrices *)

Lemma getitem2_vert (w h : Z) (ws : list wall) (x y : Z) :
  0 <= x <= w -> 0 <= y < h ->
  getitem2 (vert_matrix w h ws) y x =
  Ret (vert_fun w ws (Z.to_nat x) (Z.to_nat y)).
Proof.
  intros Hx Hy. unfold vert_matrix. apply getitem2_tab.
  - apply norm_index_pos; lia.
  - destruct (Nat.ltb_spec (Z.to_nat y) (Z.to_nat h)); [|lia].
    apply norm_index_pos; lia.
Qed.

Lemma getitem2_horiz (w h : Z) (ws : list wall) (x y : Z) :
  0 <= x <= w -> 0 <= y <= h ->
  getitem2 (horiz_matrix w h ws) y x =
  Ret (horiz_fun w ws (Z.to_nat x) (Z.to_nat y)).
Proof.
  intros Hx Hy. unfold horiz_matrix. apply getitem2_tab;
    apply norm_index_pos; lia.
Qed.

Lemma is_open_vert (w h : Z) (ws : list wall) hz (x y : Z) :
  0 <= x <= w -> 0 <= y < h ->
  is_open_wall (vert_matrix w h ws) hz (VWall x y) =
  (x <? w) && mem_wall (VWall x y) ws.
Proof.
  intros Hx Hy. cbn [is_open_wall]. rewrite getitem2_vert by assumption.
  unfold vert_fun. rewrite !Z2Nat.id by lia.
  destruct (x <? w); [|reflexivity].
  destruct (mem_wall (VWall x y) ws); reflexivity.
Qed.

Lemma is_open_horiz (w h : Z) (ws : list wall) vt (x y : Z) :
  0 <= x <= w -> 0 <= y <= h ->
  is_open_wall vt (horiz_matrix w h ws) (HWall x y) =
  (x <? w) && mem_wall (HWall x y) ws.
Proof.
  intros Hx Hy. cbn [is_open_wall]. rewrite getitem2_horiz by assumption.
  unfold horiz_fun. rewrite !Z2Nat.id by lia.
  destruct (x <? w); [|reflexivity].
  destruct (mem_wall (HWall x y) ws); reflexivity.
Qed.

Lemma interior_walls_In (w h : Z) (wl : wall) :
  In wl (interior_walls w h) <-> interior w h wl.
Proof.
  unfold interior_walls. rewrite in_app_iff, !in_map_iff. split.
  - intros [[[x y] [<- Hin]]|[[x y] [<- Hin]]];
      apply in_prod_iff in Hin; rewrite !zrange_In in Hin; cbn; lia.
  - destruct wl as [x y|x y]; cbn; intros Hi; [left|right];
      exists (x, y); (split; [reflexivity|]);
      apply in_prod_iff; rewrite !zrange_In; lia.
Qed.

Lemma boundary_walls_In (w h : Z) (wl : wall) :
  In wl (boundary_walls w h) ->
  match wl with
  | VWall x y => (x = 0 \/ x = w) /\ 0 <= y < h
  | HWall x y => 0 <= x < w /\ (y = 0 \/ y = h)
  end.
Proof.
  unfold boundary_walls. rewrite in_app_iff, !in_flat_map.
  intros [[y [Hy Hin]]|[x [Hx Hin]]]; apply zrange_In in Hy || apply zrange_In in Hx;
    cbn in Hin; destruct Hin as [<-|[<-|[]]]; lia.
Qed.

Lemma carved_wall_interior (w h : Z) (p c : pos) :
  in_grid w h p = true -> in_grid w h c = true -> In c (nbrs4 p) ->
  interior w h (carved_wall (p, c)).
Proof.
  intros Hp Hc Hn. apply in_grid_iff in Hp, Hc. apply nbrs4_cases in Hn.
  unfold carved_wall. cbn [fst snd].
  destruct (Z.eqb_spec (fst c) (fst p)); cbn; lia.
Qed.

Lemma tree_walls_interior (w h : Z) (start : pos) (T : list (pos * pos)) :
  in_grid w h start = true -> tree w h start T ->
  forall wl, In wl (map carved_wall T) -> interior w h wl.
Proof.
  intros Hs. induction T as [|[p c] T IH]; cbn [tree map fst snd].
  - intros _ wl [].
  - intros (HT & Hp & _ & Hc & Hn) wl [<-|Hin].
    + apply carved_wall_interior; auto.
      exact (tree_verts_in_grid w h start T Hs HT p Hp).
    + now apply IH.
Qed.

Lemma inv_boundary_intact (w h : Z) (start end_ : pos) T st :
  0 < w -> 0 <= h -> dfs_inv w h start end_ T st ->
  boundary_intact (vertical st) (horizontal st) w h.
Proof.
  intros Hw Hh [Hs HT _ Hvt Hhz _ _]. rewrite Hvt, Hhz.
  pose proof (tree_walls_interior w h start T Hs HT) as Hint.
  assert (HV : forall x y, x = 0 \/ x = w ->
            mem_wall (VWall x y) (map carved_wall T) = false).
  { intros x y Hx. destruct (mem_wall _ _) eqn:E; [|reflexivity].
    apply mem_wall_In, Hint in E. cbn in E. lia. }
  assert (HH : forall x y, y = 0 \/ y = h ->
            mem_wall (HWall x y) (map carved_wall T) = false).
  { intros x y Hy. destruct (mem_wall _ _) eqn:E; [|reflexivity].
    apply mem_wall_In, Hint in E. cbn in E. lia. }
  split; [|split].
  - intros y Hy. rewrite !getitem2_vert by lia. unfold vert_fun.
    rewrite !Z2Nat.id by lia. rewrite !HV by auto.
    destruct (Z.ltb_spec 0 w), (Z.ltb_spec w w); try lia; split; reflexivity.
  - intros x Hx. rewrite !getitem2_horiz by lia. unfold horiz_fun.
    rewrite !Z2Nat.id by lia. rewrite !HH by auto.
    destruct (Z.ltb_spec x w); try lia; split; reflexivity.
  - intros wl Hin. apply boundary_walls_In in Hin.
    destruct wl as [x y|x y].
    + rewrite is_open_vert by lia. rewrite HV by stauto. apply andb_false_r.
    + rewrite is_open_horiz by lia. rewrite HH by stauto. apply andb_false_r.
Qed.

Lemma dfs_loop_reaches (end_ : pos) (pp : bool) (fuel : nat) :
  forall st st', dfs_loop fuel end_ pp st = Ret st' -> dfs_reaches end_ pp st st'.
Proof.
  induction fuel as [|fuel IH]; intros st st'; cbn [dfs_loop];
    destruct (stack st) as [|e rest] eqn:Hstk; try discriminate.
  - intros [= <-]. constructor.
  - intros [= <-]. constructor.
  - destruct (dfs_body end_ pp st) as [st1| |] eqn:Hbody; cbn [bind];
      try discriminate.
    intros Hloop. econstructor; eauto. congruence.
Qed.

(** * Every cell is reached

    A set of cells that contains the start and is closed under taking
    neighbours, except that the end is not expanded, is the whole grid: a
    grid of at least two rows and columns stays connected without one of
    its cells. *)

Lemma nbrs4_adjacent (x y x' y' : Z) :
  Z.abs (x - x') + Z.abs (y - y') = 1 -> In (x', y') (nbrs4 (x, y)).
Proof.
  intros H. unfold nbrs4. cbn [fst snd In].
  assert (Hc : (x' = x - 1 /\ y' = y) \/ (x' = x + 1 /\ y' = y) \/
               (x' = x /\ y' = y - 1) \/ (x' = x /\ y' = y + 1)) by lia.
  destruct Hc as [[-> ->]|[[-> ->]|[[-> ->]|[-> ->]]]]; auto.
Qed.

Section Closure.

Variables (w h : Z) (e : pos) (P : pos -> Prop).
Hypothesis Hw : 2 <= w.
Hypothesis Hh : 2 <= h.
Hypothesis Hstep : forall x y x' y',
  P (x, y) -> in_grid w h (x, y) = true -> (x, y) <> e ->
  in_grid w h (x', y') = true ->
  Z.abs (x - x') + Z.abs (y - y') = 1 -> P (x', y').

Lemma row_walk (x0 y : Z) :
  y <> snd e -> P (x0, y) -> in_grid w h (x0, y) = true ->
  forall x, 0 <= x < w -> P (x, y).
Proof using Hstep.
  intros Hy HP Hg. apply in_grid_iff in Hg. cbn [fst snd] in Hg.
  assert (Hk : forall k : nat,
            (x0 + Z.of_nat k < w -> P (x0 + Z.of_nat k, y)) /\
            (0 <= x0 - Z.of_nat k -> P (x0 - Z.of_nat k, y))).
  { induction k as [|k [IH1 IH2]].
    - cbn. rewrite Z.add_0_r, Z.sub_0_r. auto.
    - split; intros Hb.
      + apply (Hstep (x0 + Z.of_nat k) y); [apply IH1; lia| | | |lia].
        * apply in_grid_iff. cbn. lia.
        * intros E. apply Hy. now rewrite <- E.
        * apply in_grid_iff. cbn. lia.
      + apply (Hstep (x0 - Z.of_nat k) y); [apply IH2; lia| | | |lia].
        * apply in_grid_iff. cbn. lia.
        * intros E. apply Hy. now rewrite <- E.
        * apply in_grid_iff. cbn. lia. }
  intros x Hx. destruct (Z_le_gt_dec x0 x).
  - replace x with (x0 + Z.of_nat (Z.to_nat (x - x0))) by lia.
    apply Hk. lia.
  - replace x with (x0 - Z.of_nat (Z.to_nat (x0 - x))) by lia.
    apply Hk. lia.
Qed.

Lemma column_walk (x y0 : Z) :
  x <> fst e -> P (x, y0) -> in_grid w h (x, y0) = true ->
  forall y, 0 <= y < h -> P (x, y).
Proof using Hstep.
  intros Hx HP Hg. apply in_grid_iff in Hg. cbn [fst snd] in Hg.
  assert (Hk : forall k : nat,
            (y0 + Z.of_nat k < h -> P (x, y0 + Z.of_nat k)) /\
            (0 <= y0 - Z.of_nat k -> P (x, y0 - Z.of_nat k))).
  { induction k as [|k [IH1 IH2]].
    - cbn. rewrite Z.add_0_r, Z.sub_0_r. auto.
    - split; intros Hb.
      + apply (Hstep x (y0 + Z.of_nat k)); [apply IH1; lia| | | |lia].
        * apply in_grid_iff. cbn. lia.
        * intros E. apply Hx. now rewrite <- E.
        * apply in_grid_iff. cbn. lia.
      + apply (Hstep x (y0 - Z.of_nat k)); [apply IH2; lia| | | |lia].
        * apply in_grid_iff. cbn. lia.
        * intros E. apply Hx. now rewrite <- E.
        * apply in_grid_iff. cbn. lia. }
  intros y Hy. destruct (Z_le_gt_dec y0 y).
  - replace y with (y0 + Z.of_nat (Z.to_nat (y - y0))) by lia.
    apply Hk. lia.
  - replace y with (y0 - Z.of_nat (Z.to_nat (y0 - y))) by lia.
    apply Hk. lia.
Qed.

Lemma closure_core (s : pos) :
  in_grid w h s = true -> s <> e -> P s ->
  forall t, in_grid w h t = true -> P t.
Proof using Hw Hh Hstep.
  intros Hs Hse HPs [tx ty] Ht. destruct s as [sx sy].
  pose proof Hs as Hs'. pose proof Ht as Ht'.
  apply in_grid_iff in Hs', Ht'. cbn [fst snd] in Hs', Ht'.
  destruct (Z.eq_dec sy (snd e)) as [Ey|Ny].
  - (* the start shares its row with the end: go along its column first *)
    assert (Nx : sx <> fst e).
    { intros Ex. apply Hse. destruct e. cbn in *. congruence. }
    assert (Hrows : forall x y, 0 <= x < w -> 0 <= y < h -> y <> snd e -> P (x, y)).
    { intros x y Hx Hy Hne. apply (row_walk sx y); auto.
      - apply (column_walk sx sy); auto.
      - apply in_grid_iff. cbn. lia. }
    destruct (Z.eq_dec ty (snd e)) as [Ety|Nty]; [|apply Hrows; lia].
    set (y' := if Z.eq_dec ty 0 then 1 else ty - 1).
    assert (Hy' : 0 <= y' < h /\ y' <> snd e /\ Z.abs (y' - ty) = 1)
      by (unfold y'; destruct (Z.eq_dec ty 0); lia).
    apply (Hstep tx y'); [apply Hrows; lia| | |exact Ht|lia].
    + apply in_grid_iff. cbn. lia.
    + intros E. destruct Hy' as (_ & Hne & _). apply Hne. now rewrite <- E.
  - (* otherwise along its row first *)
    assert (Hcols : forall x y, 0 <= x < w -> 0 <= y < h -> x <> fst e -> P (x, y)).
    { intros x y Hx Hy Hne. apply (column_walk x sy); auto.
      - apply (row_walk sx sy); auto.
      - apply in_grid_iff. cbn. lia. }
    destruct (Z.eq_dec tx (fst e)) as [Etx|Ntx]; [|apply Hcols; lia].
    set (x' := if Z.eq_dec tx 0 then 1 else tx - 1).
    assert (Hx' : 0 <= x' < w /\ x' <> fst e /\ Z.abs (x' - tx) = 1)
      by (unfold x'; destruct (Z.eq_dec tx 0); lia).
    apply (Hstep x' ty); [apply Hcols; lia| | |exact Ht|lia].
    + apply in_grid_iff. cbn. lia.
    + intros E. destruct Hx' as (_ & Hne & _). apply Hne. now rewrite <- E.
Qed.

End Closure.

Lemma pos_eq_dec (a b : pos) : {a = b} + {a <> b}.
Proof. destruct (pos_eqb_spec a b); auto. Qed.

Lemma all_visited (w h : Z) (start end_ : pos) T st :
  2 <= w -> 2 <= h ->
  dfs_inv w h start end_ T st -> stack st = [] ->
  forall p, in_grid w h p = true -> In p (verts start T).
Proof.
  intros Hw Hh Hinv Hemp.
  assert (Hcl : forall u n, In u (verts start T) -> u = start \/ u <> end_ ->
            In n (nbrs4 u) -> in_grid w h n = true -> In n (verts start T)).
  { intros u n Hu Hue Hn Hng.
    destruct (in_dec pos_eq_dec n (verts start T)) as [Hin|Hnin]; [exact Hin|].
    pose proof (inv_frontier _ _ _ _ _ _ Hinv u n Hu Hue Hn Hng Hnin) as Hin.
    rewrite Hemp in Hin. destruct Hin. }
  pose proof (inv_start _ _ _ _ _ _ Hinv) as Hs.
  destruct (pos_eq_dec start end_) as [E|N].
  - (* the start is the end: it was expanded like every other cell *)
    apply (closure_core w h (-1, -1) (fun p => In p (verts start T)) Hw Hh)
      with (s := start); auto.
    + intros x y x' y' HP Hg _ Hg' Hadj.
      apply (Hcl (x, y)); auto.
      * destruct (pos_eq_dec (x, y) start); [left|right]; congruence.
      * now apply nbrs4_adjacent.
    + intros ->. discriminate.
    + apply start_in_verts.
  - apply (closure_core w h end_ (fun p => In p (verts start T)) Hw Hh)
      with (s := start); auto.
    + intros x y x' y' HP Hg Hne Hg' Hadj.
      apply (Hcl (x, y)); auto. now apply nbrs4_adjacent.
    + apply start_in_verts.
Qed.

(** * Carved edges and open walls *)

Lemma tree_edge_verts (w h : Z) (start : pos) (T : list (pos * pos)) :
  tree w h start T ->
  forall a b, In (a, b) T ->
    In a (verts start T) /\ In b (verts start T) /\ In b (nbrs4 a).
Proof.
  induction T as [|[p c] T IH]; cbn [tree fst snd]; [intros _ a b []|].
  intros (HT & Hp & _ & _ & Hn) a b [E|Hin].
  - injection E as <- <-. rewrite verts_cons. cbn. auto.
  - destruct (IH HT a b Hin) as (Ha & Hb & Hab). rewrite verts_cons. cbn. auto.
Qed.

Lemma wall_between_nbr (p c : pos) :
  In c (nbrs4 p) -> wall_between p c = Some (carved_wall (p, c)).
Proof.
  intros Hn. apply nbrs4_cases in Hn. unfold wall_between, carved_wall.
  cbn [fst snd].
  destruct (Z.eqb_spec (fst p) (fst c)), (Z.eqb_spec (fst c) (fst p));
    try lia; cbn [andb].
  - destruct (Z.eqb_spec (Z.abs (snd p - snd c)) 1); [reflexivity|lia].
  - destruct (Z.eqb_spec (snd p) (snd c)); [|lia].
    destruct (Z.eqb_spec (Z.abs (fst p - fst c)) 1); [reflexivity|lia].
Qed.

Lemma wall_between_some (a b : pos) (wl : wall) :
  wall_between a b = Some wl -> In b (nbrs4 a).
Proof.
  unfold wall_between. destruct a as [ax ay], b as [bx by_]. cbn [fst snd].
  intros H. apply nbrs4_adjacent.
  destruct (Z.eqb_spec ax bx), (Z.eqb_spec (Z.abs (ay - by_)) 1);
    cbn [andb] in H; try lia;
    destruct (Z.eqb_spec ay by_), (Z.eqb_spec (Z.abs (ax - bx)) 1);
    cbn [andb] in H; try discriminate; lia.
Qed.

Lemma nbrs4_sym (a b : pos) : In b (nbrs4 a) -> In a (nbrs4 b).
Proof.
  intros H. apply nbrs4_cases in H. destruct a as [ax ay], b as [bx by_].
  cbn [fst snd] in H. apply nbrs4_adjacent. lia.
Qed.

Lemma carved_wall_inj (p c a b : pos) :
  In c (nbrs4 p) -> In b (nbrs4 a) ->
  carved_wall (p, c) = carved_wall (a, b) ->
  (p = a /\ c = b) \/ (p = b /\ c = a).
Proof.
  intros Hc Hb. apply nbrs4_cases in Hc, Hb.
  destruct p as [px py], c as [cx cy], a as [ax ay], b as [bx by_].
  unfold carved_wall. cbn [fst snd] in *.
  destruct (Z.eqb_spec cx px), (Z.eqb_spec bx ax); intros E;
    try discriminate; injection E as E1 E2;
    assert (Hcase : (px = ax /\ py = ay /\ cx = bx /\ cy = by_) \/
                    (px = bx /\ py = by_ /\ cx = ax /\ cy = ay)) by lia;
    destruct Hcase as [(-> & -> & -> & ->)|(-> & -> & -> & ->)]; auto.
Qed.

Lemma carved_wall_sym (p c : pos) :
  In c (nbrs4 p) -> carved_wall (c, p) = carved_wall (p, c).
Proof.
  intros Hn. apply nbrs4_cases in Hn. unfold carved_wall. cbn [fst snd].
  destruct (Z.eqb_spec (fst p) (fst c)), (Z.eqb_spec (fst c) (fst p));
    try lia; f_equal; lia.
Qed.

Lemma is_open_interior (w h : Z) (ws : list wall) (wl : wall) :
  interior w h wl ->
  is_open_wall (vert_matrix w h ws) (horiz_matrix w h ws) wl = mem_wall wl ws.
Proof.
  destruct wl as [x y|x y]; cbn [interior]; intros Hi.
  - rewrite is_open_vert by lia. destruct (Z.ltb_spec x w); [reflexivity|lia].
  - rewrite is_open_horiz by lia. destruct (Z.ltb_spec x w); [reflexivity|lia].
Qed.

Lemma passage_tree_edge (w h : Z) (start end_ : pos) T st (a b : pos) :
  dfs_inv w h start end_ T st ->
  passage (vertical st) (horizontal st) w h a b <-> tree_edge T a b.
Proof.
  intros [Hs HT _ Hvt Hhz _ _]. rewrite Hvt, Hhz. unfold passage, tree_edge.
  pose proof (tree_walls_interior w h start T Hs HT) as Hint.
  pose proof (tree_verts_in_grid w h start T Hs HT) as Hgrid.
  assert (Hedge : forall p c, In (p, c) T ->
            passage (vert_matrix w h (map carved_wall T))
                    (horiz_matrix w h (map carved_wall T)) w h p c /\
            passage (vert_matrix w h (map carved_wall T))
                    (horiz_matrix w h (map carved_wall T)) w h c p).
  { intros p c Hin.
    destruct (tree_edge_verts w h start T HT p c Hin) as (Hp & Hc & Hn).
    assert (Hw : In (carved_wall (p, c)) (map carved_wall T))
      by (apply in_map; exact Hin).
    assert (Hopen : is_open_wall (vert_matrix w h (map carved_wall T))
                      (horiz_matrix w h (map carved_wall T))
                      (carved_wall (p, c)) = true).
    { rewrite is_open_interior by auto. now apply mem_wall_In. }
    split; (split; [auto|split; [auto|]]).
    - exists (carved_wall (p, c)). split; [now apply wall_between_nbr|exact Hopen].
    - exists (carved_wall (p, c)). split; [|exact Hopen].
      rewrite <- carved_wall_sym by exact Hn.
      apply wall_between_nbr. now apply nbrs4_sym. }
  split.
  - intros (Ha & Hb & wl & Hwb & Hopen).
    pose proof (wall_between_some _ _ _ Hwb) as Hn.
    rewrite (wall_between_nbr _ _ Hn) in Hwb. injection Hwb as <-.
    rewrite is_open_interior in Hopen by (apply carved_wall_interior; auto).
    apply mem_wall_In, in_map_iff in Hopen as [[p c] [E Hin]].
    destruct (tree_edge_verts w h start T HT p c Hin) as (_ & _ & Hpc).
    destruct (carved_wall_inj p c a b Hpc Hn E) as [[-> ->]|[-> ->]]; auto.
  - intros [Hin|Hin]; apply Hedge in Hin; destruct Hin as [H1 H2];
      [exact H1|exact H2].
Qed.

(** * Counting the removed walls *)

Lemma interior_walls_NoDup (w h : Z) : NoDup (interior_walls w h).
Proof.
  unfold interior_walls. apply NoDup_app.
  - apply Finite.Injective_map_NoDup.
    + intros [x y] [x' y']. cbn. congruence.
    + apply NoDup_list_prod; apply zrange_NoDup.
  - apply Finite.Injective_map_NoDup.
    + intros [x y] [x' y']. cbn. congruence.
    + apply NoDup_list_prod; apply zrange_NoDup.
  - intros wl H1 H2. apply in_map_iff in H1 as [? [<- _]].
    apply in_map_iff in H2 as [? [E _]]. discriminate.
Qed.

Lemma tree_walls_NoDup (w h : Z) (start : pos) (T : list (pos * pos)) :
  tree w h start T -> NoDup (map carved_wall T).
Proof.
  induction T as [|[p c] T IH]; cbn [tree map fst snd]; [constructor|].
  intros (HT & Hp & Hc & Hg & Hn). constructor; [|auto].
  intros Hin. apply in_map_iff in Hin as [[a b] [E Hab]].
  destruct (tree_edge_verts w h start T HT a b Hab) as (Ha & Hb & Hnb).
  destruct (carved_wall_inj a b p c Hnb Hn E) as [[-> ->]|[-> ->]]; stauto.
Qed.

Lemma removed_walls_tree (w h : Z) (start end_ : pos) T st :
  dfs_inv w h start end_ T st ->
  removed_walls (vertical st) (horizontal st) w h = List.length T.
Proof.
  intros [Hs HT _ Hvt Hhz _ _]. rewrite Hvt, Hhz. unfold removed_walls.
  rewrite <- (length_map carved_wall T).
  apply Permutation_length, NoDup_Permutation.
  - apply NoDup_filter, interior_walls_NoDup.
  - eapply tree_walls_NoDup; eauto.
  - intros wl. rewrite filter_In, interior_walls_In. split.
    + intros [Hi Hopen]. rewrite is_open_interior in Hopen by exact Hi.
      now apply mem_wall_In.
    + intros Hin. pose proof (tree_walls_interior w h start T Hs HT wl Hin) as Hi.
      split; [exact Hi|]. rewrite is_open_interior by exact Hi.
      now apply mem_wall_In.
Qed.

(** * The carved edges form a tree *)

Lemma connected_mono (R R' : pos -> pos -> Prop) (a b : pos) :
  (forall x y, R x y -> R' x y) -> connected R a b -> connected R' a b.
Proof.
  intros HR H. induction H as [x y Hxy|x|x y z _ IH1 _ IH2].
  - apply rt_step. auto.
  - apply rt_refl.
  - eapply rt_trans; eauto.
Qed.

Lemma connected_sym (R : pos -> pos -> Prop) (a b : pos) :
  (forall x y, R x y -> R y x) -> connected R a b -> connected R b a.
Proof.
  intros HR H. induction H as [x y Hxy|x|x y z _ IH1 _ IH2].
  - apply rt_step. auto.
  - apply rt_refl.
  - eapply rt_trans; eauto.
Qed.

Lemma tree_edge_sym (T : list (pos * pos)) (a b : pos) :
  tree_edge T a b -> tree_edge T b a.
Proof. unfold tree_edge. stauto. Qed.

Lemma tree_edge_cons (e : pos * pos) (T : list (pos * pos)) (a b : pos) :
  tree_edge T a b -> tree_edge (e :: T) a b.
Proof. unfold tree_edge. cbn. stauto. Qed.

Lemma tree_connected (w h : Z) (start : pos) (T : list (pos * pos)) :
  tree w h start T ->
  forall v, In v (verts start T) -> connected (tree_edge T) start v.
Proof.
  induction T as [|[p c] T IH]; cbn [tree fst snd].
  - intros _ v [<-|[]]. apply rt_refl.
  - intros (HT & Hp & _ & _ & _) v. rewrite verts_cons. cbn [snd].
    intros [<-|Hv].
    + eapply rt_trans.
      * eapply connected_mono; [apply tree_edge_cons|]. apply IH; eauto.
      * apply rt_step. left. now left.
    + eapply connected_mono; [apply tree_edge_cons|]. now apply IH.
Qed.

(** Cycles *)

Lemma walk_mid (adj : pos -> pos -> Prop) (l1 l2 : list pos) (a b : pos) :
  walk adj (l1 ++ a :: b :: l2) -> adj a b.
Proof.
  induction l1 as [|x l1 IH].
  - cbn. stauto.
  - intros H. apply IH. destruct l1; cbn in H |- *; stauto.
Qed.

Lemma walk_mono (adj adj' : pos -> pos -> Prop) (l : list pos) :
  (forall x y, In x l -> In y l -> adj x y -> adj' x y) ->
  walk adj l -> walk adj' l.
Proof.
  induction l as [|a l IH]; [auto|].
  destruct l as [|b l]; [auto|].
  intros Hm [Hab Hw]. split.
  - apply Hm; cbn; auto.
  - apply IH; [|exact Hw]. intros x y Hx Hy. apply Hm; now right.
Qed.

Lemma NoDup_app_disjoint {A : Type} (l1 l2 : list A) (a : A) :
  NoDup (l1 ++ l2) -> In a l1 -> In a l2 -> False.
Proof.
  induction l1 as [|x l1 IH]; cbn; [stauto|].
  intros Hnd [->|Hin] H2.
  - apply NoDup_cons_iff in Hnd as [Hx _]. apply Hx, in_or_app. now right.
  - apply NoDup_cons_iff in Hnd as [_ Hnd]. eauto.
Qed.

(** A cell of a cycle has two distinct neighbours on it. *)
Lemma cycle_two_neighbours (adj : pos -> pos -> Prop) (c : list pos) (v : pos) :
  simple_cycle adj c -> In v c ->
  exists a b, a <> b /\ adj a v /\ adj v b.
Proof.
  intros (Hlen & Hnd & Hwalk) Hin.
  apply in_split in Hin as (l1 & l2 & ->).
  destruct l1 as [|u l1].
  - (* [v] is the first cell: its predecessor is the last one *)
    cbn [app firstn] in *.
    destruct l2 as [|b l2]; [cbn in Hlen; lia|].
    destruct (exists_last (l := b :: l2)) as (m & a & E); [discriminate|].
    exists a, b. split; [|split].
    + intros Eab. destruct m as [|b' m].
      * cbn in E. injection E as _ ->. cbn in Hlen. lia.
      * cbn in E. injection E as <- ->.
        apply NoDup_cons_iff in Hnd as [_ Hnd].
        apply NoDup_cons_iff in Hnd as [Hb _]. apply Hb, in_or_app.
        right. left. exact Eab.
    + rewrite E in Hwalk.
      apply (walk_mid adj (v :: m) []).
      cbn [app]. rewrite <- app_assoc in Hwalk. exact Hwalk.
    + apply (walk_mid adj [] (l2 ++ [v])). exact Hwalk.
  - (* otherwise its predecessor is on [u :: l1] *)
    cbn [app firstn] in Hwalk.
    destruct (exists_last (l := u :: l1)) as (m & a & E); [discriminate|].
    assert (Ha : adj a v).
    { apply (walk_mid adj m (l2 ++ [u])).
      change (u :: (l1 ++ v :: l2) ++ [u])
        with ((u :: l1 ++ v :: l2) ++ [u]) in Hwalk.
      rewrite (app_comm_cons l1), E in Hwalk.
      rewrite <- !app_assoc in Hwalk. exact Hwalk. }
    destruct l2 as [|b l2].
    + exists a, u. split; [|split; [exact Ha|]].
      * intros Eau. destruct m as [|u' m].
        -- cbn in E. injection E as _ ->. cbn in Hlen. lia.
        -- cbn in E. injection E as <- E.
           rewrite E in Hnd. cbn in Hnd.
           apply NoDup_cons_iff in Hnd as [Hu _]. apply Hu.
           apply in_or_app. left. apply in_or_app. right. left. exact Eau.
      * apply (walk_mid adj (u :: l1) []).
        cbn [app]. rewrite <- app_assoc in Hwalk. exact Hwalk.
    + exists a, b. split; [|split; [exact Ha|]].
      * intros Eab.
        apply (NoDup_app_disjoint (u :: l1) (v :: b :: l2) b Hnd).
        -- rewrite E. apply in_or_app. right. left. exact Eab.
        -- right. now left.
      * apply (walk_mid adj (u :: l1) (l2 ++ [u])).
        cbn [app]. rewrite <- app_assoc in Hwalk. exact Hwalk.
Qed.

Lemma simple_cycle_mono (adj adj' : pos -> pos -> Prop) (c : list pos) :
  (forall x y, In x c -> In y c -> adj x y -> adj' x y) ->
  simple_cycle adj c -> simple_cycle adj' c.
Proof.
  intros Hm (Hlen & Hnd & Hwalk). split; [exact Hlen|split; [exact Hnd|]].
  eapply walk_mono; [|exact Hwalk].
  assert (Hin : forall x, In x (c ++ firstn 1 c) -> In x c).
  { intros x Hx. apply in_app_or in Hx as [Hx|Hx]; [exact Hx|].
    destruct c as [|v c']; cbn in Hx; [stauto|].
    destruct Hx as [<-|[]]. now left. }
  intros x y Hx Hy. apply Hm; auto.
Qed.

Lemma tree_acyclic (w h : Z) (start : pos) (T : list (pos * pos)) :
  tree w h start T -> forall c, ~ simple_cycle (tree_edge T) c.
Proof.
  induction T as [|[p ch] T IH]; cbn [tree fst snd].
  - intros _ c Hc. destruct c as [|v c]; [destruct Hc as [Hlen _]; cbn in Hlen; lia|].
    destruct (cycle_two_neighbours _ _ v Hc (or_introl eq_refl))
      as (a & b & _ & [[]|[]] & _).
  - intros (HT & Hp & Hch & _ & _) c Hc.
    assert (Honly : forall x, tree_edge ((p, ch) :: T) x ch -> x = p).
    { intros x [[E|Hin]|[E|Hin]].
      - congruence.
      - exfalso. apply Hch.
        now destruct (tree_edge_verts w h start T HT x ch Hin) as (_ & H2 & _).
      - exfalso. injection E as E1 E2. apply Hch. now rewrite <- E1.
      - exfalso. apply Hch.
        now destruct (tree_edge_verts w h start T HT ch x Hin) as (H1 & _). }
    destruct (in_dec pos_eq_dec ch c) as [Hin|Hnin].
    + destruct (cycle_two_neighbours _ _ ch Hc Hin) as (a & b & Hab & Ha & Hb).
      apply Hab. rewrite (Honly a Ha).
      symmetry. apply Honly. now apply tree_edge_sym.
    + apply (IH HT c). eapply simple_cycle_mono; [|exact Hc].
      intros x y Hx Hy [[E|H1]|[E|H1]].
      * injection E as <- <-. contradiction.
      * now left.
      * injection E as <- <-. contradiction.
      * now right.
Qed.

(** * The traversal of a fresh grid *)

Lemma dfs_loop_stack (end_ : pos) (pp : bool) (fuel : nat) :
  forall st st', dfs_loop fuel end_ pp st = Ret st' -> stack st' = [].
Proof.
  induction fuel as [|fuel IH]; intros st st'; cbn [dfs_loop];
    destruct (stack st) as [|e rest] eqn:Hstk; try discriminate.
  - intros [= <-]. exact Hstk.
  - intros [= <-]. exact Hstk.
  - destruct (dfs_body end_ pp st) as [st1| |]; cbn [bind]; try discriminate.
    apply IH.
Qed.

Lemma dfs_result_inv (w h : Z) (start end_ : pos) (pp : bool) (c fuel : nat)
    (st : dfs_state) :
  0 <= w -> 0 <= h -> in_grid w h start = true ->
  dfs fuel (vert_matrix w h []) (horiz_matrix w h []) (vis_matrix w h [])
      start end_ pp c = Ret st ->
  exists T, dfs_inv w h start end_ T st /\ stack st = [].
Proof.
  intros Hw Hh Hs Hdfs. unfold dfs in Hdfs.
  destruct (dfs_init_inv w h start end_ c Hw Hh Hs) as (st0 & Hinit & Hinv0 & _).
  rewrite Hinit in Hdfs. cbn [bind] in Hdfs.
  destruct (dfs_reaches_inv w h start end_ pp st0 st Hw Hh
              (dfs_loop_reaches _ _ _ _ _ Hdfs) [] Hinv0) as [T HT].
  exists T. split; [exact HT|]. eapply dfs_loop_stack; eauto.
Qed.

Lemma inv_spanning_tree (w h : Z) (start end_ : pos) T st :
  2 <= w -> 2 <= h ->
  dfs_inv w h start end_ T st -> stack st = [] ->
  spanning_tree (vertical st) (horizontal st) w h.
Proof.
  intros Hw Hh Hinv Hemp.
  pose proof (inv_start _ _ _ _ _ _ Hinv) as Hs.
  pose proof (inv_tree _ _ _ _ _ _ Hinv) as HT.
  pose proof (all_visited w h start end_ T st Hw Hh Hinv Hemp) as Hall.
  split; [|split].
  - rewrite (removed_walls_tree w h start end_ T st Hinv).
    assert (Hlen : List.length (verts start T) = Z.to_nat (w * h)).
    { rewrite <- length_all_cells by lia.
      apply Permutation_length, NoDup_Permutation.
      - eapply tree_verts_NoDup; eauto.
      - apply all_cells_NoDup.
      - intros p. rewrite all_cells_In. split; [|apply Hall].
        eapply tree_verts_in_grid; eauto. }
    rewrite length_verts in Hlen. nia.
  - intros a b Ha Hb.
    apply connected_mono with (R := tree_edge T).
    { intros x y. apply (passage_tree_edge w h start end_ T st x y Hinv). }
    eapply rt_trans.
    + apply connected_sym; [apply tree_edge_sym|].
      eapply tree_connected; eauto.
    + eapply tree_connected; eauto.
  - intros c Hc. apply (tree_acyclic w h start T HT c).
    eapply simple_cycle_mono; [|exact Hc].
    intros x y _ _. apply (passage_tree_edge w h start end_ T st x y Hinv).
Qed.

(** C1: on a freshly generated grid of at least two rows and two columns,
    from any start cell of the grid and whatever the random source draws,
    [dfs] returns within [4 * w * h] iterations, and the passages it leaves
    form a spanning tree of the [w * h] cells: exactly [w * h - 1] interior
    wall segments are removed, every cell is connected to every other, and
    no cycle exists. *)
Theorem dfs_carves_spanning_tree (w h : Z) (start end_ : pos) (pp : bool)
    (c fuel : nat) (vt hz : list (list string)) :
  2 <= w -> 2 <= h -> in_grid w h start = true ->
  generate_grid w h = Ret (vt, hz) ->
  (4 * Z.to_nat (w * h) <= fuel)%nat ->
  exists st,
    dfs fuel vt hz (generate_boundaries w h) start end_ pp c = Ret st /\
    spanning_tree (vertical st) (horizontal st) w h.
Proof.
  intros Hw Hh Hs Hgrid Hfuel.
  rewrite generate_grid_fresh in Hgrid by lia. injection Hgrid as <- <-.
  rewrite generate_boundaries_fresh by lia.
  destruct (dfs_fresh w h start end_ pp c fuel) as (T & st0 & st & _ & Hdfs & Hinv & Hemp & _);
    try lia; auto.
  exists st. split; [exact Hdfs|].
  eapply inv_spanning_tree; eauto.
Qed.

(** C6: the outer boundary walls (the vertical walls at [x = 0] and
    [x = w], the horizontal ones at [y = 0] and [y = h]) are present in the
    fresh grid, in every state the loop of [dfs] passes through, and in the
    state [dfs] returns. *)
Theorem boundary_never_carved (w h : Z) (start end_ : pos) (pp : bool)
    (c : nat) (vt hz : list (list string)) (st0 : dfs_state) :
  2 <= w -> 2 <= h -> in_grid w h start = true ->
  generate_grid w h = Ret (vt, hz) ->
  dfs_init vt hz (generate_boundaries w h) start c = Ret st0 ->
  boundary_intact vt hz w h /\
  (forall st, dfs_reaches end_ pp st0 st ->
              boundary_intact (vertical st) (horizontal st) w h) /\
  (forall fuel st,
      dfs fuel vt hz (generate_boundaries w h) start end_ pp c = Ret st ->
      boundary_intact (vertical st) (horizontal st) w h).
Proof.
  intros Hw Hh Hs Hgrid Hinit.
  rewrite generate_grid_fresh in Hgrid by lia. injection Hgrid as <- <-.
  rewrite generate_boundaries_fresh in * by lia.
  destruct (dfs_init_inv w h start end_ c) as (st0' & Hinit' & Hinv0 & _);
    try lia; auto.
  rewrite Hinit in Hinit'. injection Hinit' as <-.
  assert (Hreach : forall st, dfs_reaches end_ pp st0 st ->
            boundary_intact (vertical st) (horizontal st) w h).
  { intros st Hr.
    destruct (dfs_reaches_inv w h start end_ pp st0 st) with (T := @nil (pos * pos))
      as [T HT]; try lia; auto.
    eapply inv_boundary_intact; eauto; lia. }
  split; [|split].
  - pose proof (inv_boundary_intact w h start end_ [] st0) as H0.
    rewrite (inv_vertical _ _ _ _ _ _ Hinv0), (inv_horizontal _ _ _ _ _ _ Hinv0) in H0.
    apply H0; auto; lia.
  - exact Hreach.
  - intros fuel st Hdfs. apply Hreach. unfold dfs in Hdfs.
    rewrite Hinit in Hdfs. cbn [bind] in Hdfs.
    eapply dfs_loop_reaches; eauto.
Qed.

(** C7: on a fresh grid of at least two rows and two columns, whose extra
    row and column are marked visited, from any start and end cell of the
    grid and whatever the random source draws, the loop of [dfs] ends with
    an empty stack after at most [4 * w * h] iterations. *)
Theorem dfs_terminates (w h : Z) (start end_ : pos) (pp : bool)
    (c fuel : nat) (vt hz : list (list string)) :
  2 <= w -> 2 <= h ->
  in_grid w h start = true -> in_grid w h end_ = true ->
  generate_grid w h = Ret (vt, hz) ->
  (4 * Z.to_nat (w * h) <= fuel)%nat ->
  exists st,
    dfs fuel vt hz (generate_boundaries w h) start end_ pp c = Ret st /\
    stack st = [].
Proof.
  intros Hw Hh Hs _ Hgrid Hfuel.
  rewrite generate_grid_fresh in Hgrid by lia. injection Hgrid as <- <-.
  rewrite generate_boundaries_fresh by lia.
  destruct (dfs_fresh w h start end_ pp c fuel)
    as (T & st0 & st & _ & Hdfs & _ & Hemp & _); try lia; auto.
  exists st. auto.
Qed.

(** * Strings *)

Lemma str_app_assoc (s1 s2 s3 : string) :
  ((s1 ++ s2) ++ s3)%string = (s1 ++ (s2 ++ s3))%string.
Proof. induction s1 as [|c s1 IH]; cbn; [reflexivity|now rewrite IH]. Qed.

Lemma str_app_nil_r (s : string) : (s ++ "")%string = s.
Proof. induction s as [|c s IH]; cbn; [reflexivity|now rewrite IH]. Qed.

Lemma str_length_app (s1 s2 : string) :
  String.length (s1 ++ s2) = (String.length s1 + String.length s2)%nat.
Proof. induction s1 as [|c s1 IH]; cbn; [reflexivity|now rewrite IH]. Qed.

Lemma chars_app (s1 s2 : string) :
  list_ascii_of_string (s1 ++ s2) =
  list_ascii_of_string s1 ++ list_ascii_of_string s2.
Proof. induction s1 as [|c s1 IH]; cbn; [reflexivity|now rewrite IH]. Qed.

Lemma join_cons (x : string) (l : list string) :
  join (x :: l) = (x ++ join l)%string.
Proof.
  unfold join. destruct l as [|y l]; cbn [String.concat].
  - now rewrite str_app_nil_r.
  - reflexivity.
Qed.

Lemma join_app (l1 l2 : list string) :
  join (l1 ++ l2) = (join l1 ++ join l2)%string.
Proof.
  induction l1 as [|x l1 IH]; [reflexivity|].
  cbn [app]. now rewrite !join_cons, IH, str_app_assoc.
Qed.

Lemma str_drop_last_snoc (s : string) (c : ascii) :
  str_drop_last (s ++ String c "") = s.
Proof.
  induction s as [|a s IH]; [reflexivity|].
  cbn [String.append str_drop_last]. rewrite IH.
  destruct s; reflexivity.
Qed.

Lemma unlines_cons (l : string) (ls : list string) :
  unlines (l :: ls) = (l ++ NL ++ unlines ls)%string.
Proof.
  unfold unlines. cbn [map]. now rewrite join_cons, str_app_assoc.
Qed.

Lemma split_lines_aux_line (cur l rest : string) :
  no_newline l ->
  split_lines_aux cur (l ++ NL ++ rest) =
  (cur ++ l)%string :: split_lines_aux "" rest.
Proof.
  revert cur. induction l as [|a l IH]; intros cur Hl.
  - cbn. now rewrite str_app_nil_r.
  - cbn [String.append split_lines_aux].
    destruct (Ascii.eqb_spec a "010"%char) as [->|Hne].
    + exfalso. apply Hl. now left.
    + rewrite IH by (intros Hin; apply Hl; now right).
      now rewrite str_app_assoc.
Qed.

Lemma split_lines_unlines (ls : list string) :
  Forall no_newline ls -> split_lines (unlines ls) = ls ++ [""].
Proof.
  unfold split_lines. induction 1 as [|l ls Hl _ IH]; [reflexivity|].
  rewrite unlines_cons, split_lines_aux_line by exact Hl.
  cbn [String.append app]. now rewrite IH.
Qed.

(** * Rendering *)

Lemma fold_maze (l : list (list string * list string)) (acc : string) :
  fold_left (fun maze hv =>
               String.append maze (join (fst hv ++ [NL] ++ snd hv ++ [NL])))
            l acc =
  (acc ++ join (map (fun hv => join (fst hv ++ [NL] ++ snd hv ++ [NL])) l))%string.
Proof.
  revert acc. induction l as [|hv l IH]; intros acc; cbn [fold_left map].
  - now rewrite str_app_nil_r.
  - now rewrite IH, join_cons, str_app_assoc.
Qed.

Lemma join_single (x : string) : join [x] = x.
Proof. reflexivity. Qed.

Lemma join_block (hr vr : list string) :
  join (hr ++ [NL] ++ vr ++ [NL]) = (join hr ++ NL ++ join vr ++ NL)%string.
Proof.
  rewrite join_app. cbn [app]. now rewrite join_cons, join_app, join_single.
Qed.

Lemma maze_body_lines (hs vs : list (list string)) (hlast : list string) :
  List.length hs = List.length vs ->
  join (map (fun hv => join (fst hv ++ [NL] ++ snd hv ++ [NL]))
            (combine (hs ++ [hlast]) (vs ++ [[]]))) =
  (unlines (interleave (map join (hs ++ [hlast])) (map join vs)) ++ NL)%string.
Proof.
  revert vs. induction hs as [|hr hs IH]; intros [|vr vs] Hlen;
    try discriminate.
  - change ([] ++ [hlast]) with [hlast].
    change (@nil (list string) ++ [[]]) with [@nil string].
    cbn [combine map interleave fst snd].
    rewrite join_single, join_block, unlines_cons.
    unfold unlines at 1. cbn [map]. change (join []) with "".
    now rewrite !str_app_assoc.
  - change ((hr :: hs) ++ [hlast]) with (hr :: (hs ++ [hlast])).
    change ((vr :: vs) ++ [[]]) with (vr :: (vs ++ [[]])).
    cbn [combine map interleave fst snd].
    rewrite join_cons, IH by (cbn in Hlen; lia).
    rewrite !unlines_cons, join_block.
    now rewrite !str_app_assoc.
Qed.

Lemma get_maze_string_lines (hs vs : list (list string)) (hlast : list string) :
  List.length hs = List.length vs ->
  get_maze_string (vs ++ [[]]) (hs ++ [hlast]) =
  unlines (interleave (map join (hs ++ [hlast])) (map join vs)).
Proof.
  intros Hlen. unfold get_maze_string. rewrite fold_maze.
  cbn [String.append]. rewrite maze_body_lines by exact Hlen.
  apply str_drop_last_snoc.
Qed.

Lemma get_maze_string_tab (H W : nat) (fv fh : nat -> nat -> string) :
  get_maze_string
    (tab (S H) (fun j => if (j <? H)%nat then S W else 0%nat) fv)
    (tab (S H) (fun _ => S W) fh) =
  unlines (interleave
    (map (fun j => join (map (fun i => fh i j) (seq 0 (S W)))) (seq 0 (S H)))
    (map (fun j => join (map (fun i => fv i j) (seq 0 (S W)))) (seq 0 H))).
Proof.
  rewrite !tab_snoc. rewrite Nat.ltb_irrefl.
  change (seq 0 0) with (@nil nat). cbn [map].
  rewrite get_maze_string_lines by now rewrite !length_tab.
  f_equal. f_equal.
  - rewrite (map_seq_snoc _ H), map_app. cbn [map]. f_equal.
    unfold tab. now rewrite map_map.
  - unfold tab. rewrite map_map. apply map_ext_in. intros j Hj.
    apply in_seq in Hj. destruct (Nat.ltb_spec j H); [reflexivity|lia].
Qed.

(** The shape of a line *)

Lemma join_cell3 (cells : list string) :
  Forall cell3 cells ->
  String.length (join cells) = (3 * List.length cells)%nat /\
  no_newline (join cells).
Proof.
  induction 1 as [|c cells [Hlen Hnl] _ [IHlen IHnl]].
  - split; [reflexivity|]. intros [].
  - rewrite join_cons. split.
    + rewrite str_length_app, Hlen, IHlen. cbn [List.length]. lia.
    + unfold no_newline. rewrite chars_app. intros Hin.
      apply in_app_or in Hin as [Hin|Hin]; [now apply Hnl|now apply IHnl].
Qed.

Lemma line_of_cells (w : Z) (cells : list string) (last : string) :
  List.length cells = Z.to_nat w ->
  Forall cell3 cells -> String.length last = 1%nat -> no_newline last ->
  (0 <= w ->
   Z.of_nat (String.length (String.append (join cells) last)) = 3 * w + 1) /\
  no_newline (String.append (join cells) last).
Proof.
  intros Hlen Hc Hl Hnl. destruct (join_cell3 cells Hc) as [Hjl Hjn].
  split.
  - intros Hw. rewrite str_length_app, Hjl, Hl, Hlen. lia.
  - unfold no_newline. rewrite chars_app. intros Hin.
    apply in_app_or in Hin as [Hin|Hin]; [now apply Hjn|now apply Hnl].
Qed.

Lemma separator_line_shape (w : Z) (l : string) :
  separator_line w l ->
  (0 <= w -> Z.of_nat (String.length l) = 3 * w + 1) /\ no_newline l.
Proof.
  intros (cells & Hlen & Hcells & ->).
  apply line_of_cells; auto.
  - eapply Forall_impl; [|exact Hcells]. intros c [->| ->]; split;
      try reflexivity; cbn; intros H; repeat (destruct H as [H|H]; [discriminate|]);
      exact H.
  - cbn. intros H; repeat (destruct H as [H|H]; [discriminate|]); exact H.
Qed.

Lemma cell_row_line_shape (w : Z) (l : string) :
  cell_row_line w l ->
  (0 <= w -> Z.of_nat (String.length l) = 3 * w + 1) /\ no_newline l.
Proof.
  intros (cells & Hlen & Hcells & ->).
  apply line_of_cells; auto.
  - eapply Forall_impl; [|exact Hcells].
    intros c (a & b & Ha & Hb & ->).
    destruct Ha as [->| ->], Hb as [->|[->| ->]]; split;
      try reflexivity; cbn; intros H;
      repeat (destruct H as [H|H]; [discriminate|]); exact H.
  - cbn. intros H; repeat (destruct H as [H|H]; [discriminate|]); exact H.
Qed.

Lemma horiz_row_separator (w : Z) (ws : list wall) (j : nat) :
  separator_line w
    (join (map (fun i => horiz_fun w ws i j) (seq 0 (S (Z.to_nat w))))).
Proof.
  exists (map (fun i => horiz_fun w ws i j) (seq 0 (Z.to_nat w))).
  split; [now rewrite length_map, length_seq|]. split.
  - apply Forall_forall. intros c Hc. apply in_map_iff in Hc as [i [<- Hi]].
    apply in_seq in Hi. unfold horiz_fun.
    destruct (Z.ltb_spec (Z.of_nat i) w); [|lia].
    destruct (mem_wall _ ws); auto.
  - rewrite map_seq_snoc, join_app, join_single. f_equal.
    unfold horiz_fun. destruct (Z.ltb_spec (Z.of_nat (Z.to_nat w)) w);
      [lia|reflexivity].
Qed.

Lemma vert_row_cells (w : Z) (g : nat -> nat -> string) (j : nat) :
  (forall i, (i < Z.to_nat w)%nat ->
     exists a b, (a = "|" \/ a = " ") /\ (b = " " \/ b = "S" \/ b = "E") /\
                 g i j = (a ++ b ++ " ")%string) ->
  g (Z.to_nat w) j = WALL ->
  cell_row_line w (join (map (fun i => g i j) (seq 0 (S (Z.to_nat w))))).
Proof.
  intros Hcells Hlast.
  exists (map (fun i => g i j) (seq 0 (Z.to_nat w))).
  split; [now rewrite length_map, length_seq|]. split.
  - apply Forall_forall. intros c Hc. apply in_map_iff in Hc as [i [<- Hi]].
    apply in_seq in Hi. destruct (Hcells i) as (a & b & Ha & Hb & E); [lia|].
    exists a, b. auto.
  - rewrite map_seq_snoc, join_app, join_single. now rewrite Hlast.
Qed.

Lemma vert_fun_cell (w : Z) (ws : list wall) (i j : nat) :
  (i < Z.to_nat w)%nat ->
  exists a b, (a = "|" \/ a = " ") /\ (b = " " \/ b = "S" \/ b = "E") /\
              vert_fun w ws i j = (a ++ b ++ " ")%string.
Proof.
  intros Hi. unfold vert_fun. destruct (Z.ltb_spec (Z.of_nat i) w); [|lia].
  destruct (mem_wall _ ws).
  - exists " ", " ". auto.
  - exists "|", " ". auto.
Qed.

Lemma vert_fun_last (w : Z) (ws : list wall) (j : nat) :
  vert_fun w ws (Z.to_nat w) j = WALL.
Proof.
  unfold vert_fun. destruct (Z.ltb_spec (Z.of_nat (Z.to_nat w)) w);
    [lia|reflexivity].
Qed.

Lemma length_interleave {A : Type} (l1 l2 : list A) :
  List.length l1 = S (List.length l2) ->
  List.length (interleave l1 l2) = (2 * List.length l2 + 1)%nat.
Proof.
  revert l2. induction l1 as [|a l1 IH]; intros l2 H; [discriminate|].
  destruct l2 as [|b l2]; cbn [interleave].
  - destruct l1; [reflexivity|discriminate].
  - cbn [List.length]. rewrite IH by (cbn in H; lia). lia.
Qed.

Lemma Forall_interleave {A : Type} (P : A -> Prop) (l1 l2 : list A) :
  Forall P l1 -> Forall P l2 -> Forall P (interleave l1 l2).
Proof.
  intros H1. revert l2. induction H1 as [|a l1 Ha H1 IH]; intros l2 H2.
  - exact H2.
  - cbn [interleave]. constructor; [exact Ha|].
    destruct H2 as [|b l2 Hb H2]; [exact H1|].
    constructor; [exact Hb|]. now apply IH.
Qed.

Lemma unlines_snoc (ls : list string) (l : string) :
  unlines (ls ++ [l]) = (unlines ls ++ l ++ NL)%string.
Proof.
  induction ls as [|a ls IH].
  - cbn [app]. rewrite unlines_cons. unfold unlines. cbn [map].
    change (join []) with "". now rewrite str_app_nil_r.
  - cbn [app]. now rewrite !unlines_cons, IH, !str_app_assoc.
Qed.

Lemma fresh_lines (w h : Z) :
  0 <= h ->
  exists seps rows,
    List.length seps = S (Z.to_nat h) /\ List.length rows = Z.to_nat h /\
    Forall (separator_line w) seps /\ Forall (cell_row_line w) rows /\
    get_maze_string (vert_matrix w h []) (horiz_matrix w h []) =
    unlines (interleave seps rows).
Proof.
  intros Hh. unfold vert_matrix, horiz_matrix. rewrite get_maze_string_tab.
  eexists _, _. split; [|split; [|split; [|split; [|reflexivity]]]].
  - now rewrite length_map, length_seq.
  - now rewrite length_map, length_seq.
  - apply Forall_forall. intros l Hl. apply in_map_iff in Hl as [j [<- _]].
    apply horiz_row_separator.
  - apply Forall_forall. intros l Hl. apply in_map_iff in Hl as [j [<- _]].
    apply vert_row_cells; [|apply vert_fun_last].
    intros i Hi. now apply vert_fun_cell.
Qed.

(** C10: for a grid made by [generate_grid(w, h)] with [h >= 0], the text of
    [get_maze_string] is [2 * h + 1] lines, each followed by a newline: it
    ends with a newline character, so splitting it at newlines leaves an
    empty last piece after the bottom boundary line. *)
Theorem maze_string_ends_with_newline (w h : Z) (vt hz : list (list string)) :
  0 <= h -> generate_grid w h = Ret (vt, hz) ->
  exists ls,
    List.length ls = (2 * Z.to_nat h + 1)%nat /\
    Forall no_newline ls /\
    get_maze_string vt hz = unlines ls /\
    split_lines (get_maze_string vt hz) = ls ++ [""] /\
    exists body, get_maze_string vt hz = (body ++ NL)%string.
Proof.
  intros Hh Hgrid. rewrite generate_grid_fresh in Hgrid by exact Hh.
  injection Hgrid as <- <-.
  destruct (fresh_lines w h Hh) as (seps & rows & Hls & Hlr & Hseps & Hrows & E).
  exists (interleave seps rows).
  assert (Hlen : List.length (interleave seps rows) = (2 * Z.to_nat h + 1)%nat).
  { rewrite length_interleave by lia. lia. }
  assert (Hnl : Forall no_newline (interleave seps rows)).
  { apply Forall_interleave.
    - eapply Forall_impl; [|exact Hseps]. intros l Hl.
      now apply separator_line_shape in Hl.
    - eapply Forall_impl; [|exact Hrows]. intros l Hl.
      now apply cell_row_line_shape in Hl. }
  rewrite E. split; [exact Hlen|]. split; [exact Hnl|].
  split; [reflexivity|]. split; [now apply split_lines_unlines|].
  destruct (exists_last (l := interleave seps rows)) as (ls' & l & El).
  { intros E0. rewrite E0 in Hlen. cbn in Hlen. lia. }
  rewrite El, unlines_snoc. exists (unlines ls' ++ l)%string.
  now rewrite str_app_assoc.
Qed.

(** * Floats *)




(** * Start and end points *)

Lemma randint_ret (a b : Z) (c : nat) (v : Z) (c' : nat) :
  randint a b c = Ret (v, c') -> a <= v <= b /\ c' = S c.
Proof.
  unfold randint. destruct (Z.ltb_spec b a); [discriminate|].
  intros [= <- <-]. pose proof (Z.mod_pos_bound (tape c) (b - a + 1)). lia.
Qed.

Lemma randint_ok (a b : Z) (c : nat) :
  a <= b -> exists v, randint a b c = Ret (v, S c) /\ a <= v <= b.
Proof.
  intros Hab. unfold randint. destruct (Z.ltb_spec b a); [lia|].
  eexists. split; [reflexivity|].
  pose proof (Z.mod_pos_bound (tape c) (b - a + 1)). lia.
Qed.

Lemma get_random_pos_ret (w h : Z) (c : nat) (p : pos) (c' : nat) :
  get_random_pos w h c = Ret (p, c') -> in_grid w h p = true.
Proof.
  unfold get_random_pos.
  destruct (randint 0 (w - 1) c) as [[x c1]| |] eqn:Ex; cbn [bind];
    try discriminate.
  destruct (randint 0 (h - 1) (snd (x, c1))) as [[y c2]| |] eqn:Ey; cbn [bind];
    try discriminate.
  intros [= <- <-]. apply randint_ret in Ex, Ey.
  apply in_grid_iff. cbn [fst snd]. lia.
Qed.

Lemma get_random_pos_ok (w h : Z) (c : nat) :
  1 <= w -> 1 <= h ->
  exists p, get_random_pos w h c = Ret (p, S (S c)) /\ in_grid w h p = true.
Proof.
  intros Hw Hh. unfold get_random_pos.
  destruct (randint_ok 0 (w - 1) c) as (x & Ex & Hx); [lia|].
  rewrite Ex. cbn [bind snd].
  destruct (randint_ok 0 (h - 1) (S c)) as (y & Ey & Hy); [lia|].
  rewrite Ey. cbn [bind fst snd].
  eexists. split; [reflexivity|]. apply in_grid_iff. cbn [fst snd]. lia.
Qed.

Lemma distant_loop_ret (fuel : nat) (w h : Z) :
  forall (s e : pos) (c : nat) (s' e' : pos) (c' : nat),
    in_grid w h s = true -> in_grid w h e = true ->
    distant_loop fuel w h s e c = Ret (s', e', c') ->
    in_grid w h s' = true /\ in_grid w h e' = true /\
    (get_distance s' e' <? distance_threshold w h)%float = false.
Proof.
  induction fuel as [|fuel IH]; intros s e c s' e' c' Hs He; cbn [distant_loop];
    destruct (get_distance s e <? distance_threshold w h)%float eqn:Hlt;
    try discriminate; try (intros [= <- <- <-]; auto).
  destruct (get_random_pos w h c) as [[s1 c1]| |] eqn:E1; cbn [bind];
    try discriminate.
  destruct (get_random_pos w h (snd (s1, c1))) as [[e1 c2]| |] eqn:E2;
    cbn [bind]; try discriminate.
  cbn [fst snd]. apply IH; eapply get_random_pos_ret; eauto.
Qed.

Lemma distant_loop_no_raise (fuel : nat) (w h : Z) :
  1 <= w -> 1 <= h ->
  forall (s e : pos) (c : nat) (x : exn),
    distant_loop fuel w h s e c <> Raise x.
Proof.
  intros Hw Hh. induction fuel as [|fuel IH]; intros s e c x;
    cbn [distant_loop];
    destruct (get_distance s e <? distance_threshold w h)%float;
    try discriminate.
  destruct (get_random_pos_ok w h c Hw Hh) as (s1 & E1 & _).
  rewrite E1. cbn [bind snd].
  destruct (get_random_pos_ok w h (S (S c)) Hw Hh) as (e1 & E2 & _).
  rewrite E2. cbn [bind fst snd]. apply IH.
Qed.

Lemma get_distant_points_ret (fuel : nat) (w h : Z) (c : nat)
    (s e : pos) (c' : nat) :
  get_distant_points fuel w h c = Ret (s, e, c') ->
  in_grid w h s = true /\ in_grid w h e = true /\
  (get_distance s e <? distance_threshold w h)%float = false.
Proof.
  unfold get_distant_points.
  destruct (get_random_pos w h c) as [[s1 c1]| |] eqn:E1; cbn [bind];
    try discriminate.
  destruct (get_random_pos w h (snd (s1, c1))) as [[e1 c2]| |] eqn:E2;
    cbn [bind]; try discriminate.
  cbn [fst snd]. apply distant_loop_ret; eapply get_random_pos_ret; eauto.
Qed.

Lemma get_distant_points_no_raise (fuel : nat) (w h : Z) (c : nat) (x : exn) :
  1 <= w -> 1 <= h -> get_distant_points fuel w h c <> Raise x.
Proof.
  intros Hw Hh. unfold get_distant_points.
  destruct (get_random_pos_ok w h c Hw Hh) as (s1 & E1 & _).
  rewrite E1. cbn [bind snd].
  destruct (get_random_pos_ok w h (S (S c)) Hw Hh) as (e1 & E2 & _).
  rewrite E2. cbn [bind fst snd]. now apply distant_loop_no_raise.
Qed.


(** C4, as the code has it: the two points are cells of the grid; they are
    distinct when the threshold exceeds the distance of a cell to itself,
    and nothing else keeps them apart. *)
Theorem distant_points_in_grid (fuel : nat) (w h : Z) (c : nat)
    (s e : pos) (c' : nat) :
  2 <= w -> 2 <= h ->
  get_distant_points fuel w h c = Ret (s, e, c') ->
  in_grid w h s = true /\ in_grid w h e = true /\
  ((hypot 0 0 <? distance_threshold w h)%float = true -> s <> e).
Proof.
  intros _ _ Hret. apply get_distant_points_ret in Hret as (Hs & He & Hlt).
  split; [exact Hs|]. split; [exact He|].
  intros Hthr ->. unfold get_distance in Hlt. rewrite !Z.sub_diag in Hlt.
  congruence.
Qed.

(** * Marking the start and the end *)

Lemma getitem2_tab_gen {A : Type} rows cols (f : nat -> nat -> A) (y x : Z) :
  getitem2 (tab rows cols f) y x =
  match norm_index rows y with
  | Some j => match norm_index (cols j) x with
              | Some i => Ret (f i j)
              | None => Raise IndexError
              end
  | None => Raise IndexError
  end.
Proof.
  destruct (norm_index rows y) as [j|] eqn:Hy.
  - destruct (norm_index (cols j) x) as [i|] eqn:Hx.
    + now apply getitem2_tab.
    + unfold getitem2. rewrite (getitem_tab _ _ _ _ _ Hy). cbn [bind].
      unfold getitem. now rewrite length_map, length_seq, Hx.
  - unfold getitem2, getitem. now rewrite length_tab, Hy.
Qed.

Lemma str_get_lt (s : string) (k : nat) :
  (k < String.length s)%nat -> exists c, String.get k s = Some c.
Proof.
  revert k. induction s as [|a s IH]; intros k Hk; cbn in Hk; [lia|].
  destruct k as [|k]; cbn; [eauto|]. apply IH. lia.
Qed.

Lemma str_getitem_0 (c : ascii) (s : string) :
  str_getitem (String c s) 0 = Ret (String c "").
Proof.
  unfold str_getitem. rewrite norm_index_pos by (cbn [String.length]; lia).
  reflexivity.
Qed.

Lemma str_getitem_ok (s : string) (i : Z) :
  0 <= i < Z.of_nat (String.length s) ->
  exists c, str_getitem s i = Ret (String c "").
Proof.
  intros Hi. unfold str_getitem. rewrite norm_index_pos by exact Hi.
  destruct (str_get_lt s (Z.to_nat i)) as [c Hc]; [lia|].
  rewrite Hc. eauto.
Qed.

Lemma START_length : (1 <= String.length (START term))%nat.
Proof. unfold START. rewrite !str_length_app. cbn. lia. Qed.

Lemma mark_points_spec (w h : Z) (ws : list wall) (s e : pos) :
  in_grid w h s = true -> in_grid w h e = true ->
  exists a a' e2,
    (a = "|" \/ a = " ") /\ (a' = "|" \/ a' = " ") /\
    vert_fun w ws (Z.to_nat (fst s)) (Z.to_nat (snd s)) = (a ++ "  ")%string /\
    vert_fun w ws (Z.to_nat (fst e)) (Z.to_nat (snd e)) = (a' ++ "  ")%string /\
    ((s <> e \/ START term = "S" -> e2 = " ") /\
     (s = e -> a' = a /\
               str_getitem (a ++ START term ++ " ") 2 = Ret e2) /\
     (exists c2, e2 = String c2 "")) /\
    mark_points (vert_matrix w h ws) s e =
    Ret (tab (S (Z.to_nat h))
             (fun j => if (j <? Z.to_nat h)%nat then S (Z.to_nat w) else 0%nat)
             (marked (vert_fun w ws) s e
                     (a ++ START term ++ " ")%string
                     (a' ++ END term ++ e2)%string)).
Proof.
  intros Hs He. apply in_grid_iff in Hs, He.
  destruct s as [sx sy], e as [ex ey]. cbn [fst snd] in *.
  assert (Hcell : forall x y, 0 <= x < w ->
            exists a, (a = "|" \/ a = " ") /\
              vert_fun w ws (Z.to_nat x) y = (a ++ "  ")%string).
  { intros x y Hx. unfold vert_fun.
    destruct (Z.ltb_spec (Z.of_nat (Z.to_nat x)) w); [|lia].
    destruct (mem_wall _ ws); [exists " "|exists "|"]; auto. }
  destruct (Hcell sx (Z.to_nat sy)) as (a & Ha & Ea); [lia|].
  destruct (Hcell ex (Z.to_nat ey)) as (a' & Ha' & Ea'); [lia|].
  assert (Nrow : forall y, 0 <= y < h ->
            norm_index (S (Z.to_nat h)) y = Some (Z.to_nat y))
    by (intros; apply norm_index_pos; lia).
  assert (Ncol : forall x y, 0 <= x < w -> 0 <= y < h ->
            norm_index (if (Z.to_nat y <? Z.to_nat h)%nat
                        then S (Z.to_nat w) else 0%nat) x = Some (Z.to_nat x)).
  { intros x y Hx Hy. destruct (Nat.ltb_spec (Z.to_nat y) (Z.to_nat h)); [|lia].
    apply norm_index_pos; lia. }
  unfold mark_points, vert_matrix. cbn [fst snd].
  rewrite (getitem2_tab _ _ _ _ _ (Z.to_nat sx) (Z.to_nat sy))
    by (first [apply Nrow|apply Ncol]; lia).
  cbn [bind]. rewrite Ea.
  assert (E0 : str_getitem (a ++ "  ") 0 = Ret a /\
               str_getitem (a ++ "  ") 2 = Ret " ")
    by (destruct Ha as [->| ->]; split; reflexivity).
  destruct E0 as [E0 E2]. rewrite E0, E2. cbn [bind].
  rewrite (setitem2_tab _ _ _ _ _ (Z.to_nat sx) (Z.to_nat sy))
    by (first [apply Nrow|apply Ncol]; lia).
  cbn [bind].
  rewrite (getitem2_tab _ _ _ _ _ (Z.to_nat ex) (Z.to_nat ey))
    by (first [apply Nrow|apply Ncol]; lia).
  cbn [bind].
  assert (Hread : exists e2,
            str_getitem (upd (vert_fun w ws) (Z.to_nat sx) (Z.to_nat sy)
                           (a ++ START term ++ " ")%string
                           (Z.to_nat ex) (Z.to_nat ey)) 0 = Ret a' /\
            str_getitem (upd (vert_fun w ws) (Z.to_nat sx) (Z.to_nat sy)
                           (a ++ START term ++ " ")%string
                           (Z.to_nat ex) (Z.to_nat ey)) 2 = Ret e2 /\
            (((sx, sy) <> (ex, ey) \/ START term = "S" -> e2 = " ") /\
             ((sx, sy) = (ex, ey) -> a' = a /\
                str_getitem (a ++ START term ++ " ") 2 = Ret e2) /\
             (exists c2, e2 = String c2 ""))).
  { unfold upd.
    destruct (Nat.eqb_spec (Z.to_nat ex) (Z.to_nat sx)) as [Ex|Nx];
      [destruct (Nat.eqb_spec (Z.to_nat ey) (Z.to_nat sy)) as [Ey|Ny]|];
      cbn [andb].
    - (* the end is the start: the cell already holds the start marker *)
      assert (Esame : a' = a).
      { rewrite Ex, Ey, Ea in Ea'.
        destruct Ha as [->| ->], Ha' as [->| ->]; try reflexivity;
          discriminate. }
      subst a'.
      destruct (str_getitem_ok (a ++ START term ++ " ") 2) as [c2 Hc2].
      { rewrite !str_length_app. pose proof START_length.
        destruct Ha as [->| ->]; cbn; lia. }
      exists (String c2 ""). split; [|split; [exact Hc2|]].
      + destruct Ha as [->| ->]; apply str_getitem_0.
      + split; [|split; [intros _; split; [reflexivity|exact Hc2]|eauto]].
        intros [Hne|HS].
        * exfalso. apply Hne. f_equal; lia.
        * rewrite HS in Hc2.
          destruct Ha as [->| ->]; vm_compute in Hc2; now injection Hc2 as <-.
    - exists " ". rewrite Ea'.
      split; [destruct Ha' as [->| ->]; reflexivity|].
      split; [destruct Ha' as [->| ->]; reflexivity|].
      split; [reflexivity|]. split; [|eauto].
      intros Eq. injection Eq as Hx' Hy'. lia.
    - exists " ". rewrite Ea'.
      split; [destruct Ha' as [->| ->]; reflexivity|].
      split; [destruct Ha' as [->| ->]; reflexivity|].
      split; [reflexivity|]. split; [|eauto].
      intros Eq. injection Eq as Hx' Hy'. lia. }
  destruct Hread as (e2 & Er0 & Er2 & He2). rewrite Er0, Er2. cbn [bind].
  rewrite (setitem2_tab _ _ _ _ _ (Z.to_nat ex) (Z.to_nat ey))
    by (first [apply Nrow|apply Ncol]; lia).
  exists a, a', e2.
  split; [exact Ha|]. split; [exact Ha'|]. split; [auto|].
  split; [auto|]. split; [exact He2|]. reflexivity.
Qed.

(** * The generator *)

Lemma dfs_loop_no_raise (w h : Z) (start end_ : pos) (pp : bool) (fuel : nat) :
  0 <= w -> 0 <= h ->
  forall T st (x : exn),
    dfs_inv w h start end_ T st -> dfs_loop fuel end_ pp st <> Raise x.
Proof.
  intros Hw Hh. induction fuel as [|fuel IH]; intros T st x Hinv;
    cbn [dfs_loop]; destruct (stack st) as [|e rest] eqn:Hstk;
    try discriminate.
  assert (Hne : stack st <> []) by congruence.
  destruct (dfs_body_inv w h start end_ pp T st Hw Hh Hinv Hne)
    as (T1 & st1 & Hbody & Hinv1 & _).
  rewrite Hbody. cbn [bind]. exact (IH T1 st1 x Hinv1).
Qed.

Lemma dfs_no_raise (w h : Z) (start end_ : pos) (pp : bool) (c fuel : nat)
    (x : exn) :
  0 <= w -> 0 <= h -> in_grid w h start = true ->
  dfs fuel (vert_matrix w h []) (horiz_matrix w h []) (vis_matrix w h [])
      start end_ pp c <> Raise x.
Proof.
  intros Hw Hh Hs. unfold dfs.
  destruct (dfs_init_inv w h start end_ c Hw Hh Hs) as (st0 & Hinit & Hinv0 & _).
  rewrite Hinit. cbn [bind].
  exact (dfs_loop_no_raise w h start end_ pp fuel Hw Hh [] st0 x Hinv0).
Qed.

Lemma carved_maze_small (fuel : nat) (w h : Z) (pp : bool) (c : nat) :
  w < 2 \/ h < 2 ->
  carved_maze fuel w h pp c = Raise (ValueError "maze dimension too small").
Proof.
  intros Hsmall. unfold carved_maze.
  destruct (Z.ltb_spec w 2), (Z.ltb_spec h 2); cbn [orb]; try reflexivity; lia.
Qed.

Lemma carved_maze_unfold (fuel : nat) (w h : Z) (pp : bool) (c : nat) :
  2 <= w -> 2 <= h ->
  carved_maze fuel w h pp c =
  (pts <- get_distant_points fuel w h c ;;
   st <- dfs fuel (vert_matrix w h []) (horiz_matrix w h []) (vis_matrix w h [])
             (fst (fst pts)) (snd (fst pts)) pp (snd pts) ;;
   Ret (st, fst (fst pts), snd (fst pts))).
Proof.
  intros Hw Hh. unfold carved_maze.
  destruct (Z.ltb_spec w 2), (Z.ltb_spec h 2); try lia. cbn [orb].
  rewrite generate_grid_fresh by lia. cbn [bind fst snd].
  now rewrite generate_boundaries_fresh by lia.
Qed.

Lemma carved_maze_ret (fuel : nat) (w h : Z) (pp : bool) (c : nat)
    (st : dfs_state) (s e : pos) :
  2 <= w -> 2 <= h ->
  carved_maze fuel w h pp c = Ret (st, s, e) ->
  in_grid w h s = true /\ in_grid w h e = true /\
  exists T, dfs_inv w h s e T st /\ stack st = [].
Proof.
  intros Hw Hh. rewrite carved_maze_unfold by assumption.
  destruct (get_distant_points fuel w h c) as [[[s1 e1] c1]| |] eqn:Hpts;
    cbn [bind fst snd]; try discriminate.
  apply get_distant_points_ret in Hpts as (Hs & He & _).
  destruct (dfs fuel _ _ _ s1 e1 pp c1) as [st1| |] eqn:Hdfs; cbn [bind];
    try discriminate.
  intros [= <- <- <-]. split; [exact Hs|]. split; [exact He|].
  eapply dfs_result_inv; eauto; lia.
Qed.

Lemma carved_maze_no_raise (fuel : nat) (w h : Z) (pp : bool) (c : nat)
    (x : exn) :
  2 <= w -> 2 <= h -> carved_maze fuel w h pp c <> Raise x.
Proof.
  intros Hw Hh. rewrite carved_maze_unfold by assumption.
  destruct (get_distant_points fuel w h c) as [[[s1 e1] c1]|x'|] eqn:Hpts;
    cbn [bind fst snd]; try discriminate.
  - apply get_distant_points_ret in Hpts as (Hs & He & _).
    destruct (dfs fuel _ _ _ s1 e1 pp c1) as [st1|x'|] eqn:Hdfs; cbn [bind];
      try discriminate.
    exfalso. eapply dfs_no_raise; [| | |exact Hdfs]; auto; lia.
  - exfalso. eapply get_distant_points_no_raise; [| |exact Hpts]; lia.
Qed.

Lemma rendered_grid_ret (fuel : nat) (w h : Z) (pp : bool) (c : nat)
    (st : dfs_state) (s e : pos) :
  2 <= w -> 2 <= h ->
  carved_maze fuel w h pp c = Ret (st, s, e) ->
  exists T a a' e2,
    dfs_inv w h s e T st /\
    (a = "|" \/ a = " ") /\ (a' = "|" \/ a' = " ") /\
    vert_fun w (map carved_wall T) (Z.to_nat (fst s)) (Z.to_nat (snd s)) =
      (a ++ "  ")%string /\
    vert_fun w (map carved_wall T) (Z.to_nat (fst e)) (Z.to_nat (snd e)) =
      (a' ++ "  ")%string /\
    ((s <> e \/ START term = "S" -> e2 = " ") /\
     (s = e -> a' = a /\
               str_getitem (a ++ START term ++ " ") 2 = Ret e2) /\
     (exists c2, e2 = String c2 "")) /\
    mark_points (vertical st) s e =
      Ret (tab (S (Z.to_nat h))
             (fun j => if (j <? Z.to_nat h)%nat then S (Z.to_nat w) else 0%nat)
             (marked (vert_fun w (map carved_wall T)) s e
                     (a ++ START term ++ " ")%string
                     (a' ++ END term ++ e2)%string)) /\
    rendered_grid fuel w h pp c =
      Ret (tab (S (Z.to_nat h))
             (fun j => if (j <? Z.to_nat h)%nat then S (Z.to_nat w) else 0%nat)
             (marked (vert_fun w (map carved_wall T)) s e
                     (a ++ START term ++ " ")%string
                     (a' ++ END term ++ e2)%string),
           horiz_matrix w h (map carved_wall T)).
Proof.
  intros Hw Hh Hcarved.
  destruct (carved_maze_ret _ _ _ _ _ _ _ _ Hw Hh Hcarved)
    as (Hs & He & T & Hinv & _).
  destruct (mark_points_spec w h (map carved_wall T) s e Hs He)
    as (a & a' & e2 & Ha & Ha' & Ea & Ea' & He2 & Hmark).
  exists T, a, a', e2.
  rewrite <- (inv_vertical _ _ _ _ _ _ Hinv) in Hmark.
  repeat (split; [assumption|]).
  unfold rendered_grid. rewrite Hcarved. cbn [bind fst snd].
  rewrite Hmark. cbn [bind]. now rewrite (inv_horizontal _ _ _ _ _ _ Hinv).
Qed.

(** C2: [make_maze(w, h, print_progress)] raises [ValueError("maze dimension
    too small")] exactly when [w < 2] or [h < 2], whatever the random source
    and the loop budget; it raises nothing else; and below the minimum the
    part of the call that builds the grid, the visited matrix and the two
    points has already raised, so no matrix is passed on and nothing is
    returned. *)
Theorem make_maze_invalid_dimension (fuel : nat) (w h : Z) (pp : bool) (c : nat) :
  (make_maze fuel w h pp c = Raise (ValueError "maze dimension too small")
   <-> (w < 2 \/ h < 2)) /\
  (forall x, make_maze fuel w h pp c = Raise x ->
             x = ValueError "maze dimension too small") /\
  (w < 2 \/ h < 2 ->
   carved_maze fuel w h pp c = Raise (ValueError "maze dimension too small") /\
   rendered_grid fuel w h pp c = Raise (ValueError "maze dimension too small")).
Proof.
  assert (Hsmall : w < 2 \/ h < 2 ->
            carved_maze fuel w h pp c =
              Raise (ValueError "maze dimension too small") /\
            rendered_grid fuel w h pp c =
              Raise (ValueError "maze dimension too small") /\
            make_maze fuel w h pp c =
              Raise (ValueError "maze dimension too small")).
  { intros Hs. pose proof (carved_maze_small fuel w h pp c Hs) as Hc.
    unfold make_maze, rendered_grid. rewrite Hc. cbn [bind]. auto. }
  assert (Hbig : 2 <= w -> 2 <= h -> forall x, make_maze fuel w h pp c <> Raise x).
  { intros Hw Hh x. unfold make_maze, rendered_grid at 1.
    destruct (carved_maze fuel w h pp c) as [[[st s] e]|x'|] eqn:Hc;
      cbn [bind fst snd]; try discriminate.
    - destruct (rendered_grid_ret _ _ _ _ _ _ _ _ Hw Hh Hc)
        as (T & a & a' & e2 & _ & _ & _ & _ & _ & _ & Hmark & _).
      rewrite Hmark. cbn [bind]. discriminate.
    - exfalso. eapply carved_maze_no_raise; [| |exact Hc]; assumption. }
  destruct (Z_lt_ge_dec w 2) as [Hw|Hw]; [|destruct (Z_lt_ge_dec h 2) as [Hh|Hh]].
  - destruct Hsmall as (H1 & H2 & H3); [lia|]. rewrite H3.
    split; [stauto|]. split; [congruence|auto].
  - destruct Hsmall as (H1 & H2 & H3); [lia|]. rewrite H3.
    split; [stauto|]. split; [congruence|auto].
  - split; [|split].
    + split; [|lia]. intros E. exfalso. eapply Hbig; [| |exact E]; lia.
    + intros x E. exfalso. eapply Hbig; [| |exact E]; lia.
    + lia.
Qed.

Lemma char_is_0 (c : ascii) (s : string) (x : string) :
  char_is (String c s) 0 x = String.eqb (String c "") x.
Proof. unfold char_is. now rewrite str_getitem_0. Qed.

Lemma marked_first_char (w : Z) (ws : list wall) (s e : pos)
    (a a' e2 : string) (i j : nat) :
  (a = "|" \/ a = " ") -> (a' = "|" \/ a' = " ") ->
  vert_fun w ws (Z.to_nat (fst s)) (Z.to_nat (snd s)) = (a ++ "  ")%string ->
  vert_fun w ws (Z.to_nat (fst e)) (Z.to_nat (snd e)) = (a' ++ "  ")%string ->
  char_is (marked (vert_fun w ws) s e (a ++ START term ++ " ")%string
                  (a' ++ END term ++ e2)%string i j) 0 EMPTY =
  char_is (vert_fun w ws i j) 0 EMPTY.
Proof.
  intros Ha Ha' Ea Ea'. unfold marked, upd.
  destruct (Nat.eqb_spec i (Z.to_nat (fst e))) as [->|Ni];
    [destruct (Nat.eqb_spec j (Z.to_nat (snd e))) as [->|Nj]|]; cbn [andb].
  - rewrite Ea'. destruct Ha' as [->| ->]; cbn [String.append];
      now rewrite !char_is_0.
  - destruct (Nat.eqb_spec (Z.to_nat (fst e)) (Z.to_nat (fst s))) as [Es|Ns];
      [destruct (Nat.eqb_spec j (Z.to_nat (snd s))) as [->|Nj']|]; cbn [andb];
      try reflexivity.
    rewrite Es, Ea. destruct Ha as [->| ->]; cbn [String.append];
      now rewrite !char_is_0.
  - destruct (Nat.eqb_spec i (Z.to_nat (fst s))) as [->|Ns];
      [destruct (Nat.eqb_spec j (Z.to_nat (snd s))) as [->|Nj']|]; cbn [andb];
      try reflexivity.
    rewrite Ea. destruct Ha as [->| ->]; cbn [String.append];
      now rewrite !char_is_0.
Qed.

Lemma marked_open_walls (w h : Z) (ws : list wall) (s e : pos)
    (a a' e2 : string) (hz : list (list string)) (wl : wall) :
  (a = "|" \/ a = " ") -> (a' = "|" \/ a' = " ") ->
  vert_fun w ws (Z.to_nat (fst s)) (Z.to_nat (snd s)) = (a ++ "  ")%string ->
  vert_fun w ws (Z.to_nat (fst e)) (Z.to_nat (snd e)) = (a' ++ "  ")%string ->
  is_open_wall
    (tab (S (Z.to_nat h))
         (fun j => if (j <? Z.to_nat h)%nat then S (Z.to_nat w) else 0%nat)
         (marked (vert_fun w ws) s e (a ++ START term ++ " ")%string
                 (a' ++ END term ++ e2)%string)) hz wl =
  is_open_wall (vert_matrix w h ws) hz wl.
Proof.
  intros Ha Ha' Ea Ea'. destruct wl as [x y|x y]; cbn [is_open_wall];
    [|reflexivity].
  unfold vert_matrix. rewrite !getitem2_tab_gen.
  destruct (norm_index (S (Z.to_nat h)) y) as [j|]; [|reflexivity].
  destruct (norm_index _ x) as [i|]; [|reflexivity].
  now apply marked_first_char.
Qed.



Lemma marked_cell (w : Z) (ws : list wall) (s e : pos) (a a' : string)
    (i j : nat) :
  (a = "|" \/ a = " ") -> (a' = "|" \/ a' = " ") ->
  (i < Z.to_nat w)%nat ->
  exists p q, (p = "|" \/ p = " ") /\ (q = " " \/ q = "S" \/ q = "E") /\
    marked (vert_fun w ws) s e (a ++ "S" ++ " ")%string
           (a' ++ "E" ++ " ")%string i j = (p ++ q ++ " ")%string.
Proof.
  intros Ha Ha' Hi. unfold marked, upd.
  destruct ((i =? Z.to_nat (fst e))%nat && (j =? Z.to_nat (snd e))%nat).
  - exists a', "E". auto.
  - destruct ((i =? Z.to_nat (fst s))%nat && (j =? Z.to_nat (snd s))%nat).
    + exists a, "S". auto.
    + now apply vert_fun_cell.
Qed.

Lemma marked_last (w h : Z) (ws : list wall) (s e : pos) (ms me : string)
    (j : nat) :
  in_grid w h s = true -> in_grid w h e = true ->
  marked (vert_fun w ws) s e ms me (Z.to_nat w) j = WALL.
Proof.
  intros Hs He. apply in_grid_iff in Hs, He. unfold marked, upd.
  destruct (Nat.eqb_spec (Z.to_nat w) (Z.to_nat (fst e))); [lia|].
  destruct (Nat.eqb_spec (Z.to_nat w) (Z.to_nat (fst s))); [lia|].
  cbn [andb]. apply vert_fun_last.
Qed.

Lemma make_maze_lines (fuel : nat) (w h : Z) (pp : bool) (c : nat)
    (txt : string) :
  2 <= w -> 2 <= h -> START term = "S" -> END term = "E" ->
  make_maze fuel w h pp c = Ret txt ->
  exists seps rows,
    List.length seps = S (Z.to_nat h) /\ List.length rows = Z.to_nat h /\
    Forall (separator_line w) seps /\ Forall (cell_row_line w) rows /\
    txt = unlines (interleave seps rows).
Proof.
  intros Hw Hh HS HE. unfold make_maze.
  destruct (rendered_grid fuel w h pp c) as [[vt hz]| |] eqn:Hr; cbn [bind];
    try discriminate.
  intros [= <-]. unfold rendered_grid in Hr.
  destruct (carved_maze fuel w h pp c) as [[[st s] e]| |] eqn:Hcarved;
    cbn [bind] in Hr; try discriminate.
  destruct (carved_maze_ret _ _ _ _ _ _ _ _ Hw Hh Hcarved) as (Hs & He & _).
  destruct (rendered_grid_ret _ _ _ _ _ _ _ _ Hw Hh Hcarved)
    as (T & a & a' & e2 & Hinv & Ha & Ha' & _ & _ & He2 & _ & Hrender).
  unfold rendered_grid in Hrender. rewrite Hcarved in Hrender.
  cbn [bind] in Hrender. rewrite Hr in Hrender. injection Hrender as -> ->.
  rewrite (proj1 He2 (or_intror HS)), HS, HE.
  unfold horiz_matrix. cbn [fst snd]. rewrite get_maze_string_tab.
  eexists _, _. split; [|split; [|split; [|split; [|reflexivity]]]].
  - now rewrite length_map, length_seq.
  - now rewrite length_map, length_seq.
  - apply Forall_forall. intros l Hl. apply in_map_iff in Hl as [j [<- _]].
    apply horiz_row_separator.
  - apply Forall_forall. intros l Hl. apply in_map_iff in Hl as [j [<- _]].
    apply vert_row_cells.
    + intros i Hi. now apply marked_cell.
    + now apply (marked_last w h).
Qed.

(** * The rendered maze *)

Lemma spanning_tree_ext (vt hz vt' hz' : list (list string)) (w h : Z) :
  (forall wl, is_open_wall vt hz wl = is_open_wall vt' hz' wl) ->
  spanning_tree vt' hz' w h -> spanning_tree vt hz w h.
Proof.
  intros Hopen (Hcount & Hconn & Hacyc).
  assert (Hpass : forall a b, passage vt hz w h a b <-> passage vt' hz' w h a b).
  { intros a b. unfold passage. split;
      intros (Ha & Hb & wl & Hwb & Ho); (split; [exact Ha|split; [exact Hb|]]);
      exists wl; (split; [exact Hwb|]); [rewrite <- Hopen|rewrite Hopen];
      exact Ho. }
  split; [|split].
  - unfold removed_walls in *. rewrite <- Hcount. f_equal. f_equal.
    apply filter_ext. exact Hopen.
  - intros a b Ha Hb. eapply connected_mono; [|apply Hconn; assumption].
    intros x y. apply Hpass.
  - intros c Hc. apply (Hacyc c). eapply simple_cycle_mono; [|exact Hc].
    intros x y _ _. apply Hpass.
Qed.

(** The matrices [make_maze] renders still describe a spanning tree of the
    cells: writing the markers leaves every wall as [dfs] left it. *)
Theorem rendered_maze_spanning_tree (fuel : nat) (w h : Z) (pp : bool)
    (c : nat) (vt hz : list (list string)) :
  2 <= w -> 2 <= h ->
  rendered_grid fuel w h pp c = Ret (vt, hz) ->
  spanning_tree vt hz w h.
Proof.
  intros Hw Hh Hr. pose proof Hr as Hr'. unfold rendered_grid in Hr'.
  destruct (carved_maze fuel w h pp c) as [[[st s] e]| |] eqn:Hcarved;
    cbn [bind] in Hr'; try discriminate. clear Hr'.
  destruct (carved_maze_ret _ _ _ _ _ _ _ _ Hw Hh Hcarved)
    as (_ & _ & T0 & Hinv0 & Hemp).
  destruct (rendered_grid_ret _ _ _ _ _ _ _ _ Hw Hh Hcarved)
    as (T & a & a' & e2 & Hinv & Ha & Ha' & Ea & Ea' & _ & _ & Hrender).
  rewrite Hr in Hrender. injection Hrender as -> ->.
  apply spanning_tree_ext
    with (vt' := vertical st) (hz' := horizontal st).
  - intros wl. rewrite (inv_vertical _ _ _ _ _ _ Hinv).
    rewrite (inv_horizontal _ _ _ _ _ _ Hinv). now apply marked_open_walls.
  - eapply inv_spanning_tree; eauto.
Qed.

(** Once the rejection sampling of the two points has returned, the rest of
    [make_maze] returns a text within [4 * w * h] loop iterations. *)
Theorem make_maze_returns_text (fuel : nat) (w h : Z) (pp : bool) (c : nat)
    (s e : pos) (c' : nat) :
  2 <= w -> 2 <= h ->
  get_distant_points fuel w h c = Ret (s, e, c') ->
  (4 * Z.to_nat (w * h) <= fuel)%nat ->
  exists txt, make_maze fuel w h pp c = Ret txt.
Proof.
  intros Hw Hh Hpts Hfuel.
  pose proof (get_distant_points_ret _ _ _ _ _ _ _ Hpts) as (Hs & He & _).
  destruct (dfs_fresh w h s e pp c' fuel) as (T & st0 & st & _ & Hdfs & _);
    try lia; auto.
  assert (Hcarved : carved_maze fuel w h pp c = Ret (st, s, e)).
  { rewrite carved_maze_unfold by assumption. rewrite Hpts. cbn [bind fst snd].
    now rewrite Hdfs. }
  destruct (rendered_grid_ret _ _ _ _ _ _ _ _ Hw Hh Hcarved)
    as (T' & a & a' & e2 & _ & _ & _ & _ & _ & _ & _ & Hrender).
  unfold make_maze. rewrite Hrender. cbn [bind]. eauto.
Qed.


(** * More on the grid parts and the fresh matrices *)

(** What [get_grid_part] returns: the closed or open part of a ceiling or of
    a wall, three characters long; it raises for any other part.  The
    character that tells an open part from a closed one is the second one
    of a ceiling and the first one of a wall. *)
Theorem get_grid_part_cases (part : string) (path : bool) :
  (part = CORNER ->
   get_grid_part part path = Ret (if path then "+  " else "+--")) /\
  (part = WALL ->
   get_grid_part part path = Ret (if path then "   " else "|  ")) /\
  (part <> CORNER -> part <> WALL ->
   get_grid_part part path =
   Raise (ValueError ("unknown part: '" ++ part ++ "'")%string)) /\
  (forall s, get_grid_part part path = Ret s ->
     String.length s = 3%nat /\
     (part = CORNER -> char_is s 1 EMPTY = path) /\
     (part = WALL -> char_is s 0 EMPTY = path)).
Proof.
  unfold get_grid_part. cbn [existsb].
  destruct (String.eqb_spec part CORNER) as [->|NC].
  - cbn. split; [intros _; now destruct path|]. split; [discriminate|].
    split; [congruence|]. intros s. destruct path; intros [= <-];
      repeat split; try reflexivity; discriminate.
  - destruct (String.eqb_spec part WALL) as [->|NW].
    + cbn. split; [discriminate|]. split; [intros _; now destruct path|].
      split; [congruence|]. intros s. destruct path; intros [= <-];
        repeat split; try reflexivity; discriminate.
    + cbn [orb negb]. split; [congruence|]. split; [congruence|].
      split; [reflexivity|]. discriminate.
Qed.

(** Reading [visited[y][x]] in the matrix [generate_boundaries] makes never
    fails for a cell of the grid or one step outside it, negative indices
    included: it gives 0 inside the grid and 1 outside; past the extra
    column it raises [IndexError]. *)
Theorem boundaries_guard_the_grid (w h x y : Z) :
  0 <= w -> 0 <= h -> -1 <= y <= h ->
  (-1 <= x <= w ->
   getitem2 (generate_boundaries w h) y x =
   Ret (if in_grid w h (x, y) then 0 else 1)) /\
  (w < x -> getitem2 (generate_boundaries w h) y x = Raise IndexError).
Proof.
  intros Hw Hh Hy. rewrite generate_boundaries_fresh by assumption. split.
  - intros Hx. rewrite getitem2_vis by assumption.
    cbn [mem_pos existsb negb]. now rewrite andb_true_r.
  - intros Hx. unfold vis_matrix. rewrite getitem2_tab_gen.
    destruct (norm_index_sentinel (Z.to_nat h) y) as [j [-> _]]; [lia|].
    unfold norm_index.
    destruct (Z.leb_spec 0 x); [|lia].
    destruct (Z.ltb_spec x (Z.of_nat (S (Z.to_nat w)))); [lia|].
    cbn [andb]. destruct (Z.ltb_spec x 0); [lia|]. reflexivity.
Qed.

Lemma fresh_vert_closed (w : Z) (i j : nat) :
  char_is (vert_fun w [] i j) 0 EMPTY = false.
Proof. unfold vert_fun. cbn [mem_wall existsb]. now destruct (_ <? _). Qed.

Lemma fresh_horiz_closed (w : Z) (i j : nat) :
  char_is (horiz_fun w [] i j) 1 EMPTY = false.
Proof. unfold horiz_fun. cbn [mem_wall existsb]. now destruct (_ <? _). Qed.

(** The grid [generate_grid] makes is closed everywhere: no entry of either
    matrix reads as an open wall, whatever the index, so no wall is counted
    as removed and no two cells are joined by a passage. *)
Theorem fresh_grid_is_closed (w h : Z) (vt hz : list (list string)) :
  0 <= h -> generate_grid w h = Ret (vt, hz) ->
  (forall wl, is_open_wall vt hz wl = false) /\
  removed_walls vt hz w h = 0%nat /\
  (forall a b, ~ passage vt hz w h a b).
Proof.
  intros Hh Hgrid. rewrite generate_grid_fresh in Hgrid by exact Hh.
  injection Hgrid as <- <-.
  assert (Hclosed : forall wl,
            is_open_wall (vert_matrix w h []) (horiz_matrix w h []) wl = false).
  { intros [x y|x y]; cbn [is_open_wall]; unfold vert_matrix, horiz_matrix;
      rewrite getitem2_tab_gen;
      destruct (norm_index (S (Z.to_nat h)) y) as [j|]; try reflexivity;
      destruct (norm_index _ x) as [i|]; try reflexivity.
    - apply fresh_vert_closed.
    - apply fresh_horiz_closed. }
  split; [exact Hclosed|]. split.
  - unfold removed_walls.
    rewrite (filter_ext _ (fun _ => false) Hclosed).
    induction (interior_walls w h); auto.
  - intros a b (_ & _ & wl & _ & Hopen). rewrite Hclosed in Hopen. discriminate.
Qed.

(** [get_random_pos(w, h)] draws twice and returns a cell of the grid when
    the grid has a cell.  When [w < 1] the first [randint] raises the
    [ValueError] of [randrange(0, w)], and when [1 <= w] and [h < 1] the
    second one raises that of [randrange(0, h)]; the text of the error
    carries the empty range. *)
Theorem get_random_pos_total (w h : Z) (c : nat) :
  (1 <= w -> 1 <= h ->
   exists p, get_random_pos w h c = Ret (p, S (S c)) /\ in_grid w h p = true) /\
  (w < 1 -> get_random_pos w h c = Raise (ValueError (empty_range 0 w))) /\
  (1 <= w -> h < 1 ->
   get_random_pos w h c = Raise (ValueError (empty_range 0 h))) /\
  empty_range 0 0 = "empty range for randrange() (0, 0, 0)" /\
  empty_range 0 (-2) = "empty range for randrange() (0, -2, -2)".
Proof.
  split; [apply get_random_pos_ok|]. unfold get_random_pos, randint.
  split; [|split; [|split; reflexivity]].
  - intros Hw. destruct (Z.ltb_spec (w - 1) 0); [|lia]. cbn [bind].
    now replace (w - 1 + 1) with w by lia.
  - intros Hw Hh. destruct (Z.ltb_spec (w - 1) 0); [lia|]. cbn [bind snd].
    destruct (Z.ltb_spec (h - 1) 0); [|lia].
    now replace (h - 1 + 1) with h by lia.
Qed.

(** * One iteration, case by case *)

Lemma get_neighbors_cursor (x y : Z) (c : nat) :
  snd (get_neighbors x y c) = (c + 3)%nat.
Proof. unfold get_neighbors, shuffle. now rewrite shuffle_from_cursor. Qed.

(** What an iteration does with the edge [(px, py, x, y)] it pops: it drops
    it when [(x, y)] is visited or outside the grid; otherwise it carves the
    edge, and unless [(x, y)] is the end it prints a frame, draws three
    times and pushes the edges to the unvisited neighbours. *)
Lemma dfs_body_cases (w h : Z) (start end_ : pos) (pp : bool)
    (T : list (pos * pos)) (st : dfs_state) (px py x y : Z)
    (rest : list (Z * Z * Z * Z)) :
  0 <= w -> 0 <= h ->
  dfs_inv w h start end_ T st -> stack st = (px, py, x, y) :: rest ->
  exists st',
    dfs_body end_ pp st = Ret st' /\
    ((unvisited w h (verts start T) (x, y) = false /\
      dfs_inv w h start end_ T st' /\
      stack st' = rest /\ cursor st' = cursor st /\ frames st' = frames st)
     \/
     (unvisited w h (verts start T) (x, y) = true /\
      In (px, py) (verts start T) /\
      dfs_inv w h start end_ (((px, py), (x, y)) :: T) st' /\
      (((x, y) = end_ /\ stack st' = rest /\ cursor st' = cursor st /\
        frames st' = frames st)
       \/
       ((x, y) <> end_ /\
        stack st' =
          rev (map (edge4 (x, y))
                 (filter (unvisited w h ((x, y) :: verts start T))
                         (fst (get_neighbors x y (cursor st))))) ++ rest /\
        cursor st' = (cursor st + 3)%nat /\
        frames st' =
          if pp
          then get_maze_string (vertical st') (horizontal st') :: frames st
          else frames st)))).
Proof.
  intros Hw Hh [Hs HT Hvis Hvt Hhz Hstk Hfr] Estk.
  destruct st as [vt hz vis stk cur frs].
  cbn [vertical horizontal visited stack cursor frames] in *. subst vt hz vis stk.
  destruct (Hstk (px, py) (x, y) (or_introl eq_refl)) as [Hp Hc].
  assert (Hpg : in_grid w h (px, py) = true)
    by (eapply tree_verts_in_grid; eauto).
  destruct (nbrs4_range w h _ _ Hpg Hc) as [Hxr Hyr]. cbn [fst snd] in Hxr, Hyr.
  unfold dfs_body. cbn [vertical horizontal visited stack cursor frames].
  rewrite getitem2_vis by assumption. cbn [bind].
  fold (unvisited w h (verts start T) (x, y)).
  destruct (unvisited w h (verts start T) (x, y)) eqn:Hunv.
  - pose proof Hunv as Hunv'. apply unvisited_true in Hunv' as [Hcg Hcn].
    change (0 =? 0) with true. cbv iota.
    pose proof (setitem2_vis w h (verts start T) (x, y) Hcg) as Evis.
    cbn [fst snd] in Evis. rewrite Evis. clear Evis. cbn [bind].
    pose proof (carve_spec w h (map carved_wall T) (px, py) (x, y) Hpg Hcg Hc)
      as Ecarve.
    cbn [fst snd] in Ecarve. rewrite Ecarve. clear Ecarve. cbn [bind fst snd].
    assert (HT' : tree w h start (((px, py), (x, y)) :: T))
      by (cbn [tree fst snd]; auto).
    assert (Hold : forall u n, In u (verts start T) -> u = start \/ u <> end_ ->
              In n (nbrs4 u) -> in_grid w h n = true ->
              ~ In n ((x, y) :: verts start T) -> In (edge4 u n) rest).
    { intros u n Hu Hue Hn Hng Hnv.
      destruct (Hfr u n Hu Hue Hn Hng) as [E|Hin]; [| |exact Hin].
      - intros Hin. apply Hnv. now right.
      - apply (edge4_inj (px, py) (x, y)) in E as [_ <-].
        exfalso. apply Hnv. now left. }
    destruct (pos_eqb_spec (x, y) end_) as [Eend|Nend].
    + eexists. split; [reflexivity|]. right.
      split; [reflexivity|]. split; [exact Hp|]. split.
      * constructor; cbn [vertical horizontal visited stack]; auto.
        -- intros p c Hin. destruct (Hstk p c (or_intror Hin)) as [Hp' Hc'].
           split; [|exact Hc']. rewrite verts_cons. now right.
        -- intros u n Hu Hue Hn Hng Hnv. rewrite verts_cons in Hu, Hnv.
           cbn [snd] in Hu, Hnv. destruct Hu as [<-|Hu].
           ++ exfalso. destruct Hue as [E|E]; [|congruence].
              apply Hcn. rewrite E. apply start_in_verts.
           ++ eapply Hold; eauto.
      * left. cbn [stack cursor frames]. auto.
    + rewrite push_unvisited_spec; try assumption.
      2: { intros n Hn. apply get_neighbors_In in Hn.
           eapply nbrs4_range; eauto. }
      cbn [bind]. eexists. split; [reflexivity|]. right.
      split; [reflexivity|]. split; [exact Hp|]. split.
      * constructor; cbn [vertical horizontal visited stack]; auto.
        -- intros p c Hin. apply in_app_or in Hin as [Hin|Hin].
           ++ apply in_rev, in_map_iff in Hin as [n [E Hn]].
              apply edge4_inj in E as [<- <-].
              apply filter_In in Hn as [Hn _]. apply get_neighbors_In in Hn.
              split; [rewrite verts_cons; now left|exact Hn].
           ++ destruct (Hstk p c (or_intror Hin)) as [Hp' Hc'].
              split; [|exact Hc']. rewrite verts_cons. now right.
        -- intros u n Hu Hue Hn Hng Hnv. rewrite verts_cons in Hu, Hnv.
           cbn [snd] in Hu, Hnv. apply in_or_app. destruct Hu as [<-|Hu].
           ++ left. apply -> in_rev. apply in_map. apply filter_In. split.
              ** now apply get_neighbors_In.
              ** apply unvisited_true. auto.
           ++ right. eapply Hold; eauto.
      * right. cbn [stack cursor frames vertical horizontal].
        split; [exact Nend|]. split; [reflexivity|].
        split; [apply get_neighbors_cursor|reflexivity].
  - change (1 =? 0) with false. cbv iota.
    eexists. split; [reflexivity|]. left. split; [reflexivity|].
    split; [|cbn [stack cursor frames]; auto].
    constructor; cbn [vertical horizontal visited stack]; auto.
    + intros p c Hin. apply Hstk. now right.
    + intros u n Hu Hue Hn Hng Hnv.
      destruct (Hfr u n Hu Hue Hn Hng Hnv) as [E|Hin]; [|exact Hin].
      apply (edge4_inj (px, py) (x, y)) in E as [_ <-].
      assert (unvisited w h (verts start T) (x, y) = true)
        by (apply unvisited_true; auto).
      congruence.
Qed.

(** * The traversal, edge by edge *)

Lemma dfs_step_exists (w h : Z) (start end_ : pos) (pp : bool)
    (T : list (pos * pos)) (st : dfs_state) :
  0 <= w -> 0 <= h ->
  dfs_inv w h start end_ T st -> stack st <> [] ->
  exists T' st',
    dfs_step w h start end_ pp T st T' st' /\ dfs_inv w h start end_ T' st'.
Proof.
  intros Hw Hh Hinv Hne.
  destruct (stack st) as [|[[[px py] x] y] rest] eqn:Hstk; [congruence|].
  destruct (dfs_body_cases w h start end_ pp T st px py x y rest Hw Hh Hinv Hstk)
    as (st' & Hbody & [(Hu & Hinv' & Hrest)|(Hu & Hp & Hinv' & Hrest)]).
  - exists T, st'. split; [|exact Hinv'].
    exists px, py, x, y, rest. split; [exact Hstk|]. split; [exact Hbody|].
    left. auto.
  - exists (((px, py), (x, y)) :: T), st'. split; [|exact Hinv'].
    exists px, py, x, y, rest. split; [exact Hstk|]. split; [exact Hbody|].
    right. auto.
Qed.

(** A property of the carved edges and the state that every iteration keeps
    holds when the loop ends. *)
Lemma dfs_loop_keeps (w h : Z) (start end_ : pos) (pp : bool)
    (Q : list (pos * pos) -> dfs_state -> Prop) :
  0 <= w -> 0 <= h ->
  (forall T st T' st',
      dfs_inv w h start end_ T st -> Q T st ->
      dfs_step w h start end_ pp T st T' st' -> Q T' st') ->
  forall fuel T st st',
    dfs_inv w h start end_ T st -> Q T st ->
    dfs_loop fuel end_ pp st = Ret st' ->
    exists T', dfs_inv w h start end_ T' st' /\ Q T' st' /\ stack st' = [].
Proof.
  intros Hw Hh HQ. induction fuel as [|fuel IH]; intros T st st' Hinv HQs;
    cbn [dfs_loop]; destruct (stack st) as [|e rest] eqn:Hstk;
    try discriminate.
  - intros [= <-]. eauto.
  - intros [= <-]. eauto.
  - assert (Hne : stack st <> []) by congruence.
    destruct (dfs_step_exists w h start end_ pp T st Hw Hh Hinv Hne)
      as (T1 & st1 & Hstep & Hinv1).
    pose proof Hstep as (px & py & x & y & rest' & _ & Hbody & _).
    rewrite Hbody. cbn [bind]. apply (IH T1 st1); [exact Hinv1|].
    exact (HQ T st T1 st1 Hinv HQs Hstep).
Qed.

Lemma dfs_init_state (w h : Z) (start end_ : pos) (c : nat) :
  0 <= w -> 0 <= h -> in_grid w h start = true ->
  exists st0,
    dfs_init (vert_matrix w h []) (horiz_matrix w h []) (vis_matrix w h [])
             start c = Ret st0 /\
    dfs_inv w h start end_ [] st0 /\
    (forall p n, In (edge4 p n) (stack st0) -> p = start) /\
    cursor st0 = (c + 3)%nat /\ frames st0 = [].
Proof.
  intros Hw Hh Hs.
  destruct (dfs_init_inv w h start end_ c Hw Hh Hs) as (st0 & Hinit & Hinv & _).
  exists st0. split; [exact Hinit|]. split; [exact Hinv|].
  unfold dfs_init in Hinit. rewrite (setitem2_vis w h [] start Hs) in Hinit.
  cbn [bind] in Hinit. injection Hinit as <-.
  cbn [stack cursor frames]. split; [|split; [lia|reflexivity]].
  intros p n Hin. apply in_rev, in_map_iff in Hin as [adj [E _]].
  now apply (edge4_inj start adj) in E as [<- _].
Qed.

(** When [dfs] returns, every entry of the visited matrix is 1: each cell
    of the grid has been visited, and the extra row and column were marked
    from the start. *)
Theorem dfs_visits_every_cell (w h : Z) (start end_ : pos) (pp : bool)
    (c fuel : nat) (vt hz : list (list string)) :
  2 <= w -> 2 <= h -> in_grid w h start = true ->
  generate_grid w h = Ret (vt, hz) ->
  (4 * Z.to_nat (w * h) <= fuel)%nat ->
  exists st,
    dfs fuel vt hz (generate_boundaries w h) start end_ pp c = Ret st /\
    visited st = repeat (repeat 1 (Z.to_nat (w + 1))) (Z.to_nat (h + 1)).
Proof.
  intros Hw Hh Hs Hgrid Hfuel.
  rewrite generate_grid_fresh in Hgrid by lia. injection Hgrid as <- <-.
  rewrite generate_boundaries_fresh by lia.
  destruct (dfs_fresh w h start end_ pp c fuel)
    as (T & st0 & st & _ & Hdfs & Hinv & Hemp & _); try lia; auto.
  exists st. split; [exact Hdfs|].
  rewrite (inv_visited _ _ _ _ _ _ Hinv).
  pose proof (all_visited w h start end_ T st Hw Hh Hinv Hemp) as Hall.
  replace (Z.to_nat (w + 1)) with (S (Z.to_nat w)) by lia.
  replace (Z.to_nat (h + 1)) with (S (Z.to_nat h)) by lia.
  unfold vis_matrix, tab. apply map_seq_const. intros j Hj.
  apply map_seq_const. intros i Hi. unfold vis_fun.
  destruct (in_grid w h (Z.of_nat i, Z.of_nat j)) eqn:Hg; [|reflexivity].
  apply Hall, mem_pos_In in Hg. now rewrite Hg.
Qed.

Lemma dfs_fresh_keeps (w h : Z) (start end_ : pos) (pp : bool) (c fuel : nat)
    (Q : list (pos * pos) -> dfs_state -> Prop) :
  0 <= w -> 0 <= h -> in_grid w h start = true ->
  (forall st0,
      (forall p n, In (edge4 p n) (stack st0) -> p = start) ->
      cursor st0 = (c + 3)%nat -> frames st0 = [] -> Q [] st0) ->
  (forall T st T' st',
      dfs_inv w h start end_ T st -> Q T st ->
      dfs_step w h start end_ pp T st T' st' -> Q T' st') ->
  (4 * Z.to_nat (w * h) <= fuel)%nat ->
  exists T st,
    dfs fuel (vert_matrix w h []) (horiz_matrix w h []) (vis_matrix w h [])
        start end_ pp c = Ret st /\
    dfs_inv w h start end_ T st /\ Q T st /\ stack st = [].
Proof.
  intros Hw Hh Hs Hinit Hkeep Hfuel.
  destruct (dfs_init_state w h start end_ c Hw Hh Hs)
    as (st0 & Einit & Hinv0 & Hstk0 & Hcur0 & Hfr0).
  destruct (dfs_fresh w h start end_ pp c fuel Hw Hh Hs Hfuel)
    as (T1 & st0' & st & _ & Hdfs & _).
  pose proof Hdfs as Hloop. unfold dfs in Hloop. rewrite Einit in Hloop.
  cbn [bind] in Hloop.
  destruct (dfs_loop_keeps w h start end_ pp Q Hw Hh Hkeep fuel [] st0 st
              Hinv0 (Hinit st0 Hstk0 Hcur0 Hfr0) Hloop) as (T & HT & HQ & Hemp).
  exists T, st. auto.
Qed.

Lemma children_unique (T : list (pos * pos)) (a b c : pos) :
  NoDup (map snd T) -> In (a, c) T -> In (b, c) T -> a = b.
Proof.
  induction T as [|[p q] T IH]; cbn [map snd]; [intros _ []|].
  intros Hnd [E1|H1] [E2|H2]; apply NoDup_cons_iff in Hnd as [Hq Hnd].
  - congruence.
  - injection E1 as -> ->. exfalso. apply Hq.
    apply in_map_iff. exists (b, c). auto.
  - injection E2 as -> ->. exfalso. apply Hq.
    apply in_map_iff. exists (a, c). auto.
  - auto.
Qed.

Lemma verts_NoDup_children (start : pos) (T : list (pos * pos)) :
  NoDup (verts start T) -> NoDup (map snd T) /\ ~ In start (map snd T).
Proof.
  unfold verts. intros Hnd. split.
  - eapply NoDup_app_remove_r; eauto.
  - intros Hin. apply (NoDup_app_disjoint _ _ start Hnd Hin). now left.
Qed.

(** The end is a dead end of the maze: when it is another cell than the
    start, exactly one passage leads into it, because [dfs] never pushes
    the edges out of it. *)
Theorem end_is_a_dead_end (w h : Z) (start end_ : pos) (pp : bool)
    (c fuel : nat) (vt hz : list (list string)) :
  2 <= w -> 2 <= h ->
  in_grid w h start = true -> in_grid w h end_ = true -> start <> end_ ->
  generate_grid w h = Ret (vt, hz) ->
  (4 * Z.to_nat (w * h) <= fuel)%nat ->
  exists st b,
    dfs fuel vt hz (generate_boundaries w h) start end_ pp c = Ret st /\
    forall b', passage (vertical st) (horizontal st) w h end_ b' <-> b' = b.
Proof.
  intros Hw Hh Hs He Hse Hgrid Hfuel.
  rewrite generate_grid_fresh in Hgrid by lia. injection Hgrid as <- <-.
  rewrite generate_boundaries_fresh by lia.
  destruct (dfs_fresh_keeps w h start end_ pp c fuel
              (fun T st => (forall p n, In (p, n) T -> p <> end_) /\
                           (forall p n, In (edge4 p n) (stack st) -> p <> end_)))
    as (T & st & Hdfs & Hinv & [HQ _] & Hemp); try lia; auto.
  { intros st0 Hstk _ _. split; [intros p n []|].
    intros p n Hin. now rewrite (Hstk p n Hin). }
  { intros T st T' st' Hinv [HQT HQs]
      (px & py & x & y & rest & Hstk & _ & Hcase).
    assert (Hrest : forall p n, In (edge4 p n) rest -> p <> end_)
      by (intros p n Hin; apply (HQs p n); rewrite Hstk; now right).
    assert (Hpar : (px, py) <> end_).
    { apply (HQs (px, py) (x, y)). rewrite Hstk. now left. }
    destruct Hcase as [(_ & -> & -> & _)|(_ & _ & -> & Hsub)].
    - auto.
    - split.
      + intros p n [E|Hin]; [congruence|eauto].
      + destruct Hsub as [(_ & -> & _)|(Nend & -> & _)]; [exact Hrest|].
        intros p n Hin. apply in_app_or in Hin as [Hin|Hin]; [|eauto].
        apply in_rev, in_map_iff in Hin as [m [E _]].
        now apply edge4_inj in E as [<- _]. }
  pose proof (inv_start _ _ _ _ _ _ Hinv) as Hs'.
  pose proof (inv_tree _ _ _ _ _ _ Hinv) as HT.
  pose proof (all_visited w h start end_ T st Hw Hh Hinv Hemp end_ He) as Hin.
  unfold verts in Hin. apply in_app_or in Hin as [Hin|[E|[]]]; [|congruence].
  apply in_map_iff in Hin as [[p e] [E Hpe]]. cbn [snd] in E. subst e.
  exists st, p. split; [exact Hdfs|]. intros b'.
  rewrite (passage_tree_edge w h start end_ T st end_ b' Hinv). split.
  - intros [Hout|Hinto]; [exfalso; now apply (HQ end_ b')|].
    destruct (verts_NoDup_children start T (tree_verts_NoDup w h start T HT))
      as [Hnd _].
    exact (children_unique T b' p end_ Hnd Hinto Hpe).
  - intros ->. now right.
Qed.

Lemma expanded_length (end_ : pos) (T : list (pos * pos)) :
  NoDup (map snd T) ->
  List.length (expanded end_ T) =
  (List.length T - (if mem_pos end_ (map snd T) then 1 else 0))%nat.
Proof.
  induction T as [|[p q] T IH]; cbn [map snd]; [reflexivity|].
  intros Hnd. apply NoDup_cons_iff in Hnd as [Hq Hnd]. specialize (IH Hnd).
  unfold expanded in *. cbn [filter snd mem_pos existsb].
  fold (mem_pos end_ (map snd T)).
  destruct (pos_eqb_spec q end_) as [->|Nq].
  - destruct (pos_eqb_spec end_ end_); [|congruence]. cbn [negb orb].
    apply mem_pos_false in Hq. rewrite Hq in IH. cbn [List.length]. lia.
  - destruct (pos_eqb_spec end_ q); [congruence|]. cbn [negb orb List.length].
    destruct (mem_pos end_ (map snd T)) eqn:Hm; [|lia].
    apply mem_pos_In in Hm. destruct T; [destruct Hm|]. cbn [List.length] in *.
    lia.
Qed.

(** The random draws and the frames of a traversal: [dfs] draws three
    numbers for the start and for every cell it carves into except the end,
    and with [print_progress] it prints one frame for each of those cells;
    without it, nothing is printed. *)
Theorem dfs_draws_and_frames (w h : Z) (start end_ : pos) (pp : bool)
    (c fuel : nat) (vt hz : list (list string)) :
  2 <= w -> 2 <= h ->
  in_grid w h start = true -> in_grid w h end_ = true ->
  generate_grid w h = Ret (vt, hz) ->
  (4 * Z.to_nat (w * h) <= fuel)%nat ->
  exists st,
    dfs fuel vt hz (generate_boundaries w h) start end_ pp c = Ret st /\
    cursor st =
      (c + 3 * (Z.to_nat (w * h) - (if pos_eqb start end_ then 0 else 1)))%nat /\
    List.length (frames st) =
      if pp
      then (Z.to_nat (w * h) - (if pos_eqb start end_ then 1 else 2))%nat
      else 0%nat.
Proof.
  intros Hw Hh Hs He Hgrid Hfuel.
  rewrite generate_grid_fresh in Hgrid by lia. injection Hgrid as <- <-.
  rewrite generate_boundaries_fresh by lia.
  destruct (dfs_fresh_keeps w h start end_ pp c fuel
              (fun T st =>
                 cursor st = (c + 3 + 3 * List.length (expanded end_ T))%nat /\
                 List.length (frames st) =
                   if pp then List.length (expanded end_ T) else 0%nat))
    as (T & st & Hdfs & Hinv & [Hcur Hfr] & Hemp); try lia; auto.
  { intros st0 _ -> ->. cbn. split; [lia|now destruct pp]. }
  { intros T st T' st' Hinv [HQc HQf]
      (px & py & x & y & rest & Hstk & _ & Hcase).
    destruct Hcase as [(_ & -> & _ & -> & ->)|(_ & _ & -> & Hsub)]; [auto|].
    unfold expanded. cbn [filter snd].
    destruct Hsub as [(Eend & _ & -> & ->)|(Nend & _ & -> & ->)].
    - destruct (pos_eqb_spec (x, y) end_); [|congruence]. cbn [negb]. auto.
    - destruct (pos_eqb_spec (x, y) end_); [congruence|].
      cbn [negb List.length]. fold (expanded end_ T). split; [lia|].
      destruct pp; [cbn [List.length]; lia|exact HQf]. }
  exists st. split; [exact Hdfs|].
  pose proof (inv_start _ _ _ _ _ _ Hinv) as Hs'.
  pose proof (inv_tree _ _ _ _ _ _ Hinv) as HT.
  pose proof (all_visited w h start end_ T st Hw Hh Hinv Hemp) as Hall.
  destruct (verts_NoDup_children start T (tree_verts_NoDup w h start T HT))
    as [Hnd Hstart].
  assert (Hlen : List.length T = (Z.to_nat (w * h) - 1)%nat).
  { assert (Hv : List.length (verts start T) = Z.to_nat (w * h)).
    { rewrite <- length_all_cells by lia.
      apply Permutation_length, NoDup_Permutation.
      - eapply tree_verts_NoDup; eauto.
      - apply all_cells_NoDup.
      - intros p. rewrite all_cells_In. split; [|apply Hall].
        eapply tree_verts_in_grid; eauto. }
    rewrite length_verts in Hv. lia. }
  assert (Hmem : mem_pos end_ (map snd T) = negb (pos_eqb start end_)).
  { destruct (pos_eqb_spec start end_) as [<-|N]; cbn [negb].
    - now apply mem_pos_false.
    - apply mem_pos_In. specialize (Hall end_ He). unfold verts in Hall.
      apply in_app_or in Hall as [Hin|[E|[]]]; [exact Hin|congruence]. }
  rewrite (expanded_length end_ T Hnd), Hmem, Hlen in Hcur, Hfr.
  assert (Hwh : (4 <= Z.to_nat (w * h))%nat) by nia.
  rewrite Hcur, Hfr. destruct (pos_eqb start end_), pp; cbn [negb]; split; lia.
Qed.

Lemma dfs_body_erase (end_ : pos) (pp1 pp2 : bool) (st1 st2 : dfs_state) :
  erase_frames st1 = erase_frames st2 ->
  map_result erase_frames (dfs_body end_ pp1 st1) =
  map_result erase_frames (dfs_body end_ pp2 st2).
Proof.
  destruct st1 as [vt1 hz1 vis1 stk1 c1 fr1], st2 as [vt2 hz2 vis2 stk2 c2 fr2].
  unfold erase_frames. cbn [vertical horizontal visited stack cursor frames].
  intros E. injection E as -> -> -> -> ->.
  unfold dfs_body. cbn [vertical horizontal visited stack cursor frames].
  destruct stk2 as [|[[[px py] x] y] rest]; [reflexivity|].
  destruct (getitem2 vis2 y x) as [v| |]; cbn [bind map_result]; try reflexivity.
  destruct (v =? 0); [|reflexivity].
  destruct (setitem2 vis2 y x 1) as [vis| |]; cbn [bind map_result];
    try reflexivity.
  destruct (carve vt2 hz2 px py x y) as [walls| |]; cbn [bind map_result];
    try reflexivity.
  destruct (pos_eqb (x, y) end_); [reflexivity|].
  destruct (push_unvisited vis x y _ rest); reflexivity.
Qed.

Lemma dfs_loop_erase (end_ : pos) (pp1 pp2 : bool) (fuel : nat) :
  forall st1 st2, erase_frames st1 = erase_frames st2 ->
    map_result erase_frames (dfs_loop fuel end_ pp1 st1) =
    map_result erase_frames (dfs_loop fuel end_ pp2 st2).
Proof.
  assert (Hstk : forall st1 st2, erase_frames st1 = erase_frames st2 ->
                   stack st1 = stack st2).
  { intros st1 st2 E.
    change (stack (erase_frames st1) = stack (erase_frames st2)).
    now rewrite E. }
  induction fuel as [|fuel IH]; intros st1 st2 E;
    cbn [dfs_loop]; rewrite (Hstk st1 st2 E);
    destruct (stack st2) as [|e rest]; cbn [map_result];
    [now rewrite E|reflexivity|now rewrite E|].
  pose proof (dfs_body_erase end_ pp1 pp2 st1 st2 E) as Hb.
  destruct (dfs_body end_ pp1 st1) as [a| |],
           (dfs_body end_ pp2 st2) as [b| |];
    cbn [map_result bind] in *; try discriminate; try exact Hb;
    try reflexivity.
  apply IH. congruence.
Qed.

(** [print_progress] only prints: with or without it, [dfs] leaves the same
    walls, the same visited matrix and the same position in the random
    draws, or fails in the same way; and [make_maze] returns the same text
    or raises the same error. *)
Theorem print_progress_only_prints (fuel : nat) (pp : bool) :
  (forall vt hz vis start end_ c,
      map_result erase_frames (dfs fuel vt hz vis start end_ pp c) =
      map_result erase_frames (dfs fuel vt hz vis start end_ false c)) /\
  (forall w h c, make_maze fuel w h pp c = make_maze fuel w h false c).
Proof.
  assert (Hdfs : forall vt hz vis start end_ c,
      map_result erase_frames (dfs fuel vt hz vis start end_ pp c) =
      map_result erase_frames (dfs fuel vt hz vis start end_ false c)).
  { intros vt hz vis start end_ c. unfold dfs.
    destruct (dfs_init vt hz vis start c) as [st0| |]; cbn [bind map_result];
      try reflexivity.
    now apply dfs_loop_erase. }
  split; [exact Hdfs|].
  intros w h c. unfold make_maze, rendered_grid, carved_maze.
  destruct ((w <? 2) || (h <? 2)); [reflexivity|].
  destruct (generate_grid w h) as [grid| |]; cbn [bind]; try reflexivity.
  destruct (get_distant_points fuel w h c) as [pts| |]; cbn [bind];
    try reflexivity.
  specialize (Hdfs (fst grid) (snd grid) (generate_boundaries w h)
                (fst (fst pts)) (snd (fst pts)) (snd pts)).
  destruct (dfs fuel (fst grid) (snd grid) (generate_boundaries w h)
              (fst (fst pts)) (snd (fst pts)) pp (snd pts)) as [a| |],
           (dfs fuel (fst grid) (snd grid) (generate_boundaries w h)
              (fst (fst pts)) (snd (fst pts)) false (snd pts)) as [b| |];
    cbn [map_result bind] in *; try discriminate; try reflexivity;
    [|congruence].
  assert (E : erase_frames a = erase_frames b) by congruence.
  assert (Hv : vertical a = vertical b)
    by (change (vertical (erase_frames a) = vertical (erase_frames b));
        now rewrite E).
  assert (Hh : horizontal a = horizontal b)
    by (change (horizontal (erase_frames a) = horizontal (erase_frames b));
        now rewrite E).
  cbn [fst snd]. now rewrite Hv, Hh.
Qed.

(** * The rejection sampling, draw by draw *)

Lemma get_random_pos_drawn (w h : Z) (c : nat) :
  1 <= w -> 1 <= h ->
  get_random_pos w h c = Ret (drawn_pos w h c, S (S c)).
Proof.
  intros Hw Hh. unfold get_random_pos, randint, drawn_pos.
  destruct (Z.ltb_spec (w - 1) 0); [lia|]. cbn [bind fst snd].
  destruct (Z.ltb_spec (h - 1) 0); [lia|]. cbn [bind fst snd].
  replace (w - 1 - 0 + 1) with w by lia.
  replace (h - 1 - 0 + 1) with h by lia. reflexivity.
Qed.

Lemma distant_loop_step (fuel : nat) (w h : Z) (c : nat) :
  1 <= w -> 1 <= h ->
  distant_loop fuel w h (drawn_pos w h c) (drawn_pos w h (c + 2)) (c + 4) =
  if too_close w h c then
    match fuel with
    | O => OutOfFuel
    | S fuel' =>
        distant_loop fuel' w h (drawn_pos w h (c + 4))
                     (drawn_pos w h (c + 4 + 2)) (c + 4 + 4)
    end
  else Ret (drawn_pos w h c, drawn_pos w h (c + 2), (c + 4)%nat).
Proof.
  intros Hw Hh. unfold too_close.
  destruct fuel as [|fuel]; cbn [distant_loop]; [reflexivity|].
  destruct (get_distance _ _ <? distance_threshold w h)%float; [|reflexivity].
  rewrite (get_random_pos_drawn w h (c + 4) Hw Hh). cbn [bind fst snd].
  rewrite (get_random_pos_drawn w h (S (S (c + 4))) Hw Hh). cbn [bind fst snd].
  replace (S (S (c + 4))) with (c + 4 + 2)%nat by lia.
  replace (S (S (c + 4 + 2))) with (c + 4 + 4)%nat by lia. reflexivity.
Qed.

Lemma get_distant_points_loop (fuel : nat) (w h : Z) (c : nat) :
  1 <= w -> 1 <= h ->
  get_distant_points fuel w h c =
  distant_loop fuel w h (drawn_pos w h c) (drawn_pos w h (c + 2)) (c + 4).
Proof.
  intros Hw Hh. unfold get_distant_points.
  rewrite (get_random_pos_drawn w h c Hw Hh). cbn [bind fst snd].
  rewrite (get_random_pos_drawn w h (S (S c)) Hw Hh). cbn [bind fst snd].
  replace (S (S c)) with (c + 2)%nat by lia.
  replace (S (S (c + 2))) with (c + 4)%nat by lia. reflexivity.
Qed.

Lemma distant_loop_first_far (w h : Z) :
  1 <= w -> 1 <= h ->
  forall (k fuel c : nat), (k <= fuel)%nat ->
    (forall j, (j < k)%nat -> too_close w h (c + 4 * j) = true) ->
    too_close w h (c + 4 * k) = false ->
    distant_loop fuel w h (drawn_pos w h c) (drawn_pos w h (c + 2)) (c + 4) =
    Ret (drawn_pos w h (c + 4 * k), drawn_pos w h (c + 4 * k + 2),
         (c + 4 * k + 4)%nat).
Proof.
  intros Hw Hh k. induction k as [|k IH]; intros fuel c Hk Hclose Hfar.
  - rewrite (distant_loop_step fuel w h c Hw Hh).
    replace (c + 4 * 0)%nat with c in * by lia. now rewrite Hfar.
  - destruct fuel as [|fuel]; [lia|].
    rewrite (distant_loop_step (S fuel) w h c Hw Hh).
    pose proof (Hclose 0%nat ltac:(lia)) as H0.
    replace (c + 4 * 0)%nat with c in H0 by lia. rewrite H0.
    rewrite (IH fuel (c + 4)%nat); try lia.
    + now replace (c + 4 + 4 * k)%nat with (c + 4 * S k)%nat by lia.
    + intros j Hj. replace (c + 4 + 4 * j)%nat with (c + 4 * S j)%nat by lia.
      apply Hclose. lia.
    + now replace (c + 4 + 4 * k)%nat with (c + 4 * S k)%nat by lia.
Qed.

Lemma distant_loop_all_close (w h : Z) :
  1 <= w -> 1 <= h ->
  forall (fuel c : nat),
    (forall j, (j <= fuel)%nat -> too_close w h (c + 4 * j) = true) ->
    distant_loop fuel w h (drawn_pos w h c) (drawn_pos w h (c + 2)) (c + 4) =
    OutOfFuel.
Proof.
  intros Hw Hh fuel. induction fuel as [|fuel IH]; intros c Hclose;
    rewrite (distant_loop_step _ w h c Hw Hh);
    pose proof (Hclose 0%nat ltac:(lia)) as H0;
    replace (c + 4 * 0)%nat with c in H0 by lia; rewrite H0; [reflexivity|].
  apply IH. intros j Hj.
  replace (c + 4 + 4 * j)%nat with (c + 4 * S j)%nat by lia.
  apply Hclose. lia.
Qed.

Lemma get_distant_points_all_close (fuel : nat) (w h : Z) (c : nat) :
  1 <= w -> 1 <= h ->
  (forall j, (j <= fuel)%nat -> too_close w h (c + 4 * j) = true) ->
  get_distant_points fuel w h c = OutOfFuel.
Proof.
  intros Hw Hh Hclose. rewrite (get_distant_points_loop fuel w h c Hw Hh).
  now apply distant_loop_all_close.
Qed.

(** [get_distant_points] returns the first pair of positions it draws that
    is not closer than the threshold: when the first [k] pairs are too close
    and the next one is not, it returns that one, having drawn [4 * (k + 1)]
    numbers; and as long as every pair is too close it keeps drawing. *)
Theorem get_distant_points_first_far (fuel : nat) (w h : Z) (c : nat) :
  1 <= w -> 1 <= h ->
  (forall k, (k <= fuel)%nat ->
     (forall j, (j < k)%nat -> too_close w h (c + 4 * j) = true) ->
     too_close w h (c + 4 * k) = false ->
     get_distant_points fuel w h c =
     Ret (drawn_pos w h (c + 4 * k), drawn_pos w h (c + 4 * k + 2),
          (c + 4 * k + 4)%nat)) /\
  ((forall j, (j <= fuel)%nat -> too_close w h (c + 4 * j) = true) ->
   get_distant_points fuel w h c = OutOfFuel).
Proof.
  intros Hw Hh. split.
  - intros k Hk Hclose Hfar. rewrite (get_distant_points_loop fuel w h c Hw Hh).
    now apply distant_loop_first_far.
  - now apply get_distant_points_all_close.
Qed.

(** * The text, character by character *)

Lemma str_get_app_l (s1 s2 : string) (k : nat) :
  (k < String.length s1)%nat -> String.get k (s1 ++ s2) = String.get k s1.
Proof.
  revert k. induction s1 as [|a s1 IH]; intros k Hk; cbn in Hk; [lia|].
  destruct k as [|k]; cbn; [reflexivity|]. apply IH. lia.
Qed.

Lemma str_get_app_r (s1 s2 : string) (k : nat) :
  String.get (String.length s1 + k) (s1 ++ s2) = String.get k s2.
Proof. induction s1 as [|a s1 IH]; cbn; [reflexivity|exact IH]. Qed.

Lemma length_join_cells (g : nat -> string) (n : nat) :
  (forall i, (i < n)%nat -> String.length (g i) = 3%nat) ->
  String.length (join (map g (seq 0 n))) = (3 * n)%nat.
Proof.
  induction n as [|n IH]; intros Hg; [reflexivity|].
  rewrite map_seq_snoc, join_app, join_single, str_length_app.
  rewrite IH by (intros i Hi; apply Hg; lia). rewrite Hg by lia. lia.
Qed.

Lemma get_join_cell (g : nat -> string) (n : nat) :
  (forall i, (i < n)%nat -> String.length (g i) = 3%nat) ->
  forall (rest : string) (i k : nat), (i < n)%nat -> (k < 3)%nat ->
    String.get (3 * i + k) (join (map g (seq 0 n)) ++ rest) =
    String.get k (g i).
Proof.
  induction n as [|n IH]; intros Hg rest i k Hi Hk; [lia|].
  rewrite map_seq_snoc, join_app, join_single, str_app_assoc.
  destruct (Nat.eq_dec i n) as [->|Ni].
  - rewrite <- (length_join_cells g n) by (intros i' Hi'; apply Hg; lia).
    rewrite str_get_app_r. apply str_get_app_l. rewrite Hg by lia. exact Hk.
  - apply IH; [intros i' Hi'; apply Hg; lia|lia|exact Hk].
Qed.

Lemma get_join_last (g : nat -> string) (n : nat) (rest : string) (k : nat) :
  (forall i, (i < n)%nat -> String.length (g i) = 3%nat) ->
  String.get (3 * n + k) (join (map g (seq 0 n)) ++ rest) = String.get k rest.
Proof.
  intros Hg. rewrite <- (length_join_cells g n Hg). apply str_get_app_r.
Qed.

Lemma nth_error_interleave_even {A : Type} (l1 : list A) :
  forall (l2 : list A) (j : nat), List.length l1 = S (List.length l2) ->
    nth_error (interleave l1 l2) (2 * j) = nth_error l1 j.
Proof.
  induction l1 as [|a l1 IH]; intros l2 j Hlen; [discriminate|].
  destruct l2 as [|b l2]; cbn [interleave].
  - destruct l1; [|discriminate]. destruct j as [|j]; [reflexivity|].
    replace (2 * S j)%nat with (S (S (2 * j))) by lia. now destruct j.
  - destruct j as [|j]; [reflexivity|].
    replace (2 * S j)%nat with (S (S (2 * j))) by lia. cbn [nth_error].
    apply IH. cbn in Hlen. lia.
Qed.

Lemma nth_error_interleave_odd {A : Type} (l1 : list A) :
  forall (l2 : list A) (j : nat), List.length l1 = S (List.length l2) ->
    nth_error (interleave l1 l2) (2 * j + 1) = nth_error l2 j.
Proof.
  induction l1 as [|a l1 IH]; intros l2 j Hlen; [discriminate|].
  destruct l2 as [|b l2]; cbn [interleave].
  - destruct l1; [|discriminate].
    replace (2 * j + 1)%nat with (S (2 * j)) by lia. cbn [nth_error].
    now destruct (2 * j)%nat, j.
  - destruct j as [|j]; [reflexivity|].
    replace (2 * S j + 1)%nat with (S (S (2 * j + 1))) by lia. cbn [nth_error].
    apply IH. cbn in Hlen. lia.
Qed.

Lemma nth_error_map_seq {A : Type} (g : nat -> A) (n j : nat) :
  (j < n)%nat -> nth_error (map g (seq 0 n)) j = Some (g j).
Proof.
  intros Hj. rewrite nth_error_map, nth_error_seq.
  destruct (Nat.ltb_spec j n); [reflexivity|lia].
Qed.

(** The lines of the text are the rows of the two matrices, a row of
    [horizontal] on every even line and a row of [vertical] on every odd
    one. *)
Lemma text_char_tab (H W : nat) (fv fh : nat -> nat -> string) :
  (forall j, no_newline (join (map (fun i => fh i j) (seq 0 (S W))))) ->
  (forall j, no_newline (join (map (fun i => fv i j) (seq 0 (S W))))) ->
  forall (j col : nat),
    ((j <= H)%nat ->
     text_char (get_maze_string
                  (tab (S H) (fun j => if (j <? H)%nat then S W else 0%nat) fv)
                  (tab (S H) (fun _ => S W) fh)) (2 * j) col =
     String.get col (join (map (fun i => fh i j) (seq 0 (S W))))) /\
    ((j < H)%nat ->
     text_char (get_maze_string
                  (tab (S H) (fun j => if (j <? H)%nat then S W else 0%nat) fv)
                  (tab (S H) (fun _ => S W) fh)) (2 * j + 1) col =
     String.get col (join (map (fun i => fv i j) (seq 0 (S W))))).
Proof.
  intros Hh Hv j col. rewrite get_maze_string_tab. unfold text_char.
  set (seps := map (fun j => join (map (fun i => fh i j) (seq 0 (S W))))
                   (seq 0 (S H))).
  set (rows := map (fun j => join (map (fun i => fv i j) (seq 0 (S W))))
                   (seq 0 H)).
  assert (Hlen : List.length seps = S (List.length rows))
    by (unfold seps, rows; now rewrite !length_map, !length_seq).
  assert (Hrows : List.length rows = H)
    by (unfold rows; now rewrite length_map, length_seq).
  assert (Hnl : Forall no_newline (interleave seps rows)).
  { apply Forall_interleave; apply Forall_forall; intros l Hl;
      apply in_map_iff in Hl as [j' [<- _]]; auto. }
  rewrite (split_lines_unlines _ Hnl).
  pose proof (length_interleave seps rows Hlen) as Hil.
  split; intros Hj.
  - rewrite nth_error_app1 by lia.
    rewrite (nth_error_interleave_even seps rows j Hlen). unfold seps.
    now rewrite nth_error_map_seq by lia.
  - rewrite nth_error_app1 by lia.
    rewrite (nth_error_interleave_odd seps rows j Hlen). unfold rows.
    now rewrite nth_error_map_seq by lia.
Qed.

Lemma line_get (g : nat -> string) (W : nat) :
  (forall i, (i < W)%nat -> String.length (g i) = 3%nat) ->
  (forall i k, (i < W)%nat -> (k < 3)%nat ->
     String.get (3 * i + k) (join (map g (seq 0 (S W)))) = String.get k (g i)) /\
  String.get (3 * W) (join (map g (seq 0 (S W)))) = String.get 0 (g W).
Proof.
  intros Hg. rewrite map_seq_snoc, join_app, join_single. split.
  - intros i k Hi Hk. now apply get_join_cell.
  - replace (3 * W)%nat with (3 * W + 0)%nat by lia. now apply get_join_last.
Qed.

Lemma horiz_fun_chars (w : Z) (ws : list wall) (x y : Z) :
  0 <= x < w -> 0 <= y ->
  horiz_fun w ws (Z.to_nat x) (Z.to_nat y) =
  (let c := if mem_wall (HWall x y) ws then " "%char else "-"%char in
   String "+" (String c (String c ""))).
Proof.
  intros Hx Hy. unfold horiz_fun. rewrite !Z2Nat.id by lia.
  destruct (Z.ltb_spec x w); [|lia]. now destruct (mem_wall _ ws).
Qed.

Lemma marked_chars (w h : Z) (ws : list wall) (s e : pos) (a a' : string)
    (x y : Z) :
  in_grid w h s = true -> in_grid w h e = true ->
  (a = "|" \/ a = " ") -> (a' = "|" \/ a' = " ") ->
  vert_fun w ws (Z.to_nat (fst s)) (Z.to_nat (snd s)) = (a ++ "  ")%string ->
  vert_fun w ws (Z.to_nat (fst e)) (Z.to_nat (snd e)) = (a' ++ "  ")%string ->
  0 <= x < w -> 0 <= y ->
  marked (vert_fun w ws) s e (a ++ "S" ++ " ")%string (a' ++ "E" ++ " ")%string
         (Z.to_nat x) (Z.to_nat y) =
  String (if mem_wall (VWall x y) ws then " "%char else "|"%char)
    (String (if pos_eqb (x, y) e then "E"%char
             else if pos_eqb (x, y) s then "S"%char else " "%char) " ").
Proof.
  intros Hs He Ha Ha' Ea Ea' Hx Hy. apply in_grid_iff in Hs, He.
  assert (Hcell : forall p b, (b = "|" \/ b = " ") -> p = (x, y) ->
            vert_fun w ws (Z.to_nat (fst p)) (Z.to_nat (snd p)) =
              (b ++ "  ")%string ->
            b = String (if mem_wall (VWall x y) ws then " "%char else "|"%char)
                       "").
  { intros p b Hb -> E. cbn [fst snd] in E. unfold vert_fun in E.
    rewrite !Z2Nat.id in E by lia. destruct (Z.ltb_spec x w); [|lia].
    destruct (mem_wall _ ws), Hb as [->| ->]; try discriminate; reflexivity. }
  assert (Htest : forall p, 0 <= fst p -> 0 <= snd p ->
            ((Z.to_nat x =? Z.to_nat (fst p))%nat &&
             (Z.to_nat y =? Z.to_nat (snd p))%nat) = pos_eqb (x, y) p).
  { intros [px py] Hpx Hpy. cbn [fst snd] in *. unfold pos_eqb. cbn [fst snd].
    destruct (Nat.eqb_spec (Z.to_nat x) (Z.to_nat px)),
             (Nat.eqb_spec (Z.to_nat y) (Z.to_nat py)),
             (Z.eqb_spec x px), (Z.eqb_spec y py); cbn; try reflexivity; lia. }
  unfold marked, upd. rewrite (Htest e), (Htest s) by lia.
  destruct (pos_eqb_spec (x, y) e) as [Ee|Ne].
  - rewrite (Hcell e a' Ha' (eq_sym Ee) Ea'). reflexivity.
  - destruct (pos_eqb_spec (x, y) s) as [Es|Ns].
    + rewrite (Hcell s a Ha (eq_sym Es) Ea). reflexivity.
    + unfold vert_fun. rewrite !Z2Nat.id by lia.
      destruct (Z.ltb_spec x w); [|lia]. now destruct (mem_wall _ ws).
Qed.

(** The text [make_maze] returns is a picture of the maze [dfs] carved.
    With markers of one character (the output is not a terminal), the line
    [2 * y + 1] shows at column [3 * x] the wall left of the cell [(x, y)],
    a bar when it stands and a blank when it is open, and at column
    [3 * x + 1] the mark of the cell: E at the end, S at the start, a blank
    elsewhere; the line [2 * y] shows at column [3 * x] a corner and at
    column [3 * x + 1] the ceiling of the cell, a dash or a blank. *)
Theorem make_maze_shows_the_maze (fuel : nat) (w h : Z) (pp : bool) (c : nat)
    (st : dfs_state) (s e : pos) :
  2 <= w -> 2 <= h -> START term = "S" -> END term = "E" ->
  carved_maze fuel w h pp c = Ret (st, s, e) ->
  exists txt,
    make_maze fuel w h pp c = Ret txt /\
    (forall x y, 0 <= x <= w -> 0 <= y < h ->
       text_char txt (2 * Z.to_nat y + 1) (3 * Z.to_nat x) =
       Some (if is_open_wall (vertical st) (horizontal st) (VWall x y)
             then " "%char else "|"%char)) /\
    (forall x y, 0 <= x < w -> 0 <= y < h ->
       text_char txt (2 * Z.to_nat y + 1) (3 * Z.to_nat x + 1) =
       Some (if pos_eqb (x, y) e then "E"%char
             else if pos_eqb (x, y) s then "S"%char else " "%char)) /\
    (forall x y, 0 <= x <= w -> 0 <= y <= h ->
       text_char txt (2 * Z.to_nat y) (3 * Z.to_nat x) = Some "+"%char) /\
    (forall x y, 0 <= x < w -> 0 <= y <= h ->
       text_char txt (2 * Z.to_nat y) (3 * Z.to_nat x + 1) =
       Some (if is_open_wall (vertical st) (horizontal st) (HWall x y)
             then " "%char else "-"%char)).
Proof.
  intros Hw Hh HS HE Hcarved.
  destruct (carved_maze_ret _ _ _ _ _ _ _ _ Hw Hh Hcarved) as (Hs & He & _).
  destruct (rendered_grid_ret _ _ _ _ _ _ _ _ Hw Hh Hcarved)
    as (T & a & a' & e2 & Hinv & Ha & Ha' & Ea & Ea' & He2 & _ & Hrender).
  rewrite (proj1 He2 (or_intror HS)), HS, HE in Hrender.
  unfold make_maze. rewrite Hrender. cbn [bind fst snd].
  eexists. split; [reflexivity|].
  rewrite (inv_vertical _ _ _ _ _ _ Hinv), (inv_horizontal _ _ _ _ _ _ Hinv).
  set (ws := map carved_wall T) in *.
  set (fv := marked (vert_fun w ws) s e (a ++ "S" ++ " ")%string
                    (a' ++ "E" ++ " ")%string).
  assert (Hrowh : forall j, no_newline
            (join (map (fun i => horiz_fun w ws i j) (seq 0 (S (Z.to_nat w)))))).
  { intros j. apply (separator_line_shape w), horiz_row_separator. }
  assert (Hrowv : forall j, no_newline
            (join (map (fun i => fv i j) (seq 0 (S (Z.to_nat w)))))).
  { intros j. apply (cell_row_line_shape w), vert_row_cells.
    - intros i Hi. now apply marked_cell.
    - now apply (marked_last w h). }
  pose proof (text_char_tab (Z.to_nat h) (Z.to_nat w) fv (horiz_fun w ws)
                Hrowh Hrowv) as Htext.
  unfold horiz_matrix at 1 2 3 4.
  assert (Hlenh : forall j i, (i < Z.to_nat w)%nat ->
            String.length (horiz_fun w ws i j) = 3%nat).
  { intros j i Hi. unfold horiz_fun. destruct (Z.ltb_spec (Z.of_nat i) w); [|lia].
    now destruct (mem_wall _ ws). }
  assert (Hlenv : forall j i, (i < Z.to_nat w)%nat ->
            String.length (fv i j) = 3%nat).
  { intros j i Hi. destruct (marked_cell w ws s e a a' i j Ha Ha' Hi)
      as (p & q & Hp & Hq & E). unfold fv. rewrite E.
    destruct Hp as [->| ->], Hq as [->|[->| ->]]; reflexivity. }
  split; [|split; [|split]].
  - intros x y Hx Hy.
    rewrite (proj2 (Htext (Z.to_nat y) _)) by lia.
    rewrite is_open_vert by lia.
    destruct (line_get (fun i => fv i (Z.to_nat y)) (Z.to_nat w)
                (Hlenv (Z.to_nat y))) as [Hcellget Hlastget].
    destruct (Z.ltb_spec x w) as [Hlt|Hge]; cbn [andb].
    + replace (3 * Z.to_nat x)%nat with (3 * Z.to_nat x + 0)%nat by lia.
      rewrite Hcellget by lia. unfold fv.
      rewrite (marked_chars w h ws s e a a' x y) by (auto; lia). reflexivity.
    + replace x with w by lia. rewrite Hlastget. unfold fv.
      now rewrite (marked_last w h).
  - intros x y Hx Hy.
    rewrite (proj2 (Htext (Z.to_nat y) _)) by lia.
    destruct (line_get (fun i => fv i (Z.to_nat y)) (Z.to_nat w)
                (Hlenv (Z.to_nat y))) as [Hcellget _].
    rewrite Hcellget by lia. unfold fv.
    rewrite (marked_chars w h ws s e a a' x y) by (auto; lia). reflexivity.
  - intros x y Hx Hy.
    rewrite (proj1 (Htext (Z.to_nat y) _)) by lia.
    destruct (line_get (fun i => horiz_fun w ws i (Z.to_nat y)) (Z.to_nat w)
                (Hlenh (Z.to_nat y))) as [Hcellget Hlastget].
    destruct (Z.ltb_spec x w) as [Hlt|Hge].
    + replace (3 * Z.to_nat x)%nat with (3 * Z.to_nat x + 0)%nat by lia.
      rewrite Hcellget by lia.
      rewrite (horiz_fun_chars w ws x y) by lia. reflexivity.
    + replace x with w by lia. rewrite Hlastget. unfold horiz_fun.
      destruct (Z.ltb_spec (Z.of_nat (Z.to_nat w)) w); [lia|reflexivity].
  - intros x y Hx Hy.
    rewrite (proj1 (Htext (Z.to_nat y) _)) by lia.
    rewrite is_open_horiz by lia.
    destruct (line_get (fun i => horiz_fun w ws i (Z.to_nat y)) (Z.to_nat w)
                (Hlenh (Z.to_nat y))) as [Hcellget _].
    rewrite Hcellget by lia.
    rewrite (horiz_fun_chars w ws x y) by lia.
    destruct (Z.ltb_spec x w); [|lia]. cbn [andb].
    now destruct (mem_wall _ ws).
Qed.

(** * The text and its colour codes *)

Lemma join_map_concat {A : Type} (g : A -> string) (ls : list (list A)) :
  join (map g (List.concat ls)) = join (map (fun l => join (map g l)) ls).
Proof.
  induction ls as [|l ls IH]; [reflexivity|].
  cbn [List.concat map]. now rewrite map_app, join_app, join_cons, IH.
Qed.

Lemma START_plain : START term = "S" -> green term = "" /\ normal term = "".
Proof.
  unfold START. destruct (green term) as [|c g]; cbn.
  - intros E. injection E as E. now split.
  - intros E. injection E as _ E. destruct g; discriminate.
Qed.

Lemma END_plain : END term = "E" -> red term = "" /\ normal term = "".
Proof.
  unfold END. destruct (red term) as [|c g]; cbn.
  - intros E. injection E as E. now split.
  - intros E. injection E as _ E. destruct g; discriminate.
Qed.

Lemma str_get_In (s : string) (k : nat) (c : ascii) :
  String.get k s = Some c -> In c (list_ascii_of_string s).
Proof.
  revert k. induction s as [|a s IH]; intros k; cbn; [discriminate|].
  destruct k as [|k]; [intros [= ->]; now left|]. intros H. right. eauto.
Qed.

Lemma str_getitem_In (s : string) (i : Z) (c : ascii) :
  str_getitem s i = Ret (String c "") -> In c (list_ascii_of_string s).
Proof.
  unfold str_getitem. destruct (norm_index _ i) as [k|]; [|discriminate].
  destruct (String.get k s) as [c'|] eqn:G; [|discriminate].
  intros [= ->]. eapply str_get_In; eauto.
Qed.

Lemma no_newline_app (s1 s2 : string) :
  no_newline s1 -> no_newline s2 -> no_newline (s1 ++ s2).
Proof.
  unfold no_newline. rewrite chars_app. intros H1 H2 Hin.
  apply in_app_or in Hin as [Hin|Hin]; auto.
Qed.

Lemma written_cell (w : Z) (ws : list wall) (s e : pos) (a a' e2 : string)
    (i j : nat) :
  written (cell_pieces w ws s e a a' e2 i j) =
  marked (vert_fun w ws) s e (a ++ START term ++ " ")%string
         (a' ++ END term ++ e2)%string i j.
Proof.
  unfold cell_pieces, marked, upd, START, END.
  destruct ((i =? Z.to_nat (fst e))%nat && (j =? Z.to_nat (snd e))%nat).
  - unfold written. cbn [map]. rewrite !join_cons. change (join []) with "".
    now rewrite str_app_nil_r, !str_app_assoc.
  - destruct ((i =? Z.to_nat (fst s))%nat && (j =? Z.to_nat (snd s))%nat).
    + unfold written. cbn [map]. rewrite !join_cons. change (join []) with "".
      now rewrite !str_app_assoc.
    + reflexivity.
Qed.

Lemma stripped_cell (w : Z) (ws : list wall) (s e : pos) (a a' e2 : string)
    (i j : nat) :
  stripped (cell_pieces w ws s e a a' e2 i j) =
  marked (vert_fun w ws) s e (a ++ "S" ++ " ")%string
         (a' ++ "E" ++ e2)%string i j.
Proof.
  unfold cell_pieces, marked, upd.
  destruct ((i =? Z.to_nat (fst e))%nat && (j =? Z.to_nat (snd e))%nat).
  - unfold stripped. cbn [map]. rewrite !join_cons. change (join []) with "".
    cbn [String.append]. now rewrite str_app_nil_r.
  - destruct ((i =? Z.to_nat (fst s))%nat && (j =? Z.to_nat (snd s))%nat).
    + unfold stripped. cbn [map]. rewrite !join_cons. change (join []) with "".
      reflexivity.
    + reflexivity.
Qed.

Lemma cell_pieces_codes (w : Z) (ws : list wall) (s e : pos)
    (a a' e2 : string) (i j : nat) :
  Forall terminal_code (cell_pieces w ws s e a a' e2 i j).
Proof.
  unfold cell_pieces, upd.
  destruct ((i =? Z.to_nat (fst e))%nat && (j =? Z.to_nat (snd e))%nat);
    [|destruct ((i =? Z.to_nat (fst s))%nat && (j =? Z.to_nat (snd s))%nat)];
    repeat (apply Forall_cons; [cbn; auto|]); apply Forall_nil.
Qed.

Lemma written_plain (l : list piece) :
  green term = "" -> red term = "" -> normal term = "" ->
  Forall terminal_code l -> written l = stripped l.
Proof.
  intros Hg Hr Hn Hl. unfold written, stripped. f_equal.
  apply map_ext_in. intros p Hp.
  rewrite Forall_forall in Hl. specialize (Hl p Hp).
  destruct p as [x|x]; [reflexivity|]. cbn in Hl.
  destruct Hl as [->|[->| ->]]; assumption.
Qed.

Lemma stripped_row_line_shape (w : Z) (l : string) :
  stripped_row_line w l ->
  (0 <= w -> Z.of_nat (String.length l) = 3 * w + 1) /\ no_newline l.
Proof.
  intros (cells & Hlen & Hcells & ->).
  apply line_of_cells; auto.
  - eapply Forall_impl; [|exact Hcells].
    intros c [(a & b & Ha & Hb & ->)|(a & z & Ha & Hz & Hnl & ->)].
    + destruct Ha as [->| ->], Hb as [->|[->| ->]]; split;
        try reflexivity; cbn; intros H;
        repeat (destruct H as [H|H]; [discriminate|]); exact H.
    + split.
      * rewrite !str_length_app, Hz. destruct Ha as [->| ->]; reflexivity.
      * apply no_newline_app; [|apply no_newline_app; [|exact Hnl]];
          [destruct Ha as [->| ->]|]; cbn; intros H;
          repeat (destruct H as [H|H]; [discriminate|]); exact H.
  - cbn. intros H; repeat (destruct H as [H|H]; [discriminate|]); exact H.
Qed.

Lemma stripped_marked_cell (w : Z) (ws : list wall) (s e : pos)
    (a a' e2 : string) (i j : nat) :
  (a = "|" \/ a = " ") -> (a' = "|" \/ a' = " ") ->
  String.length e2 = 1%nat -> no_newline e2 ->
  (i < Z.to_nat w)%nat ->
  (exists p q, (p = "|" \/ p = " ") /\ (q = " " \/ q = "S" \/ q = "E") /\
     marked (vert_fun w ws) s e (a ++ "S" ++ " ")%string
            (a' ++ "E" ++ e2)%string i j = (p ++ q ++ " ")%string) \/
  (exists p z, (p = "|" \/ p = " ") /\
     String.length z = 1%nat /\ no_newline z /\
     marked (vert_fun w ws) s e (a ++ "S" ++ " ")%string
            (a' ++ "E" ++ e2)%string i j = (p ++ "E" ++ z)%string).
Proof.
  intros Ha Ha' Hlen Hnl Hi. unfold marked, upd.
  destruct ((i =? Z.to_nat (fst e))%nat && (j =? Z.to_nat (snd e))%nat).
  - right. exists a', e2. auto.
  - left. destruct ((i =? Z.to_nat (fst s))%nat && (j =? Z.to_nat (snd s))%nat).
    + exists a, "S". auto.
    + now apply vert_fun_cell.
Qed.

(** The text of [make_maze] as lines of characters and colour codes. *)
Lemma make_maze_stripped_lines (fuel : nat) (w h : Z) (pp : bool) (c : nat)
    (txt : string) :
  2 <= w -> 2 <= h ->
  no_newline (green term) -> no_newline (normal term) ->
  make_maze fuel w h pp c = Ret txt ->
  exists (seps : list string) (rows : list (list piece)),
    List.length seps = S (Z.to_nat h) /\ List.length rows = Z.to_nat h /\
    txt = unlines (interleave seps (map written rows)) /\
    Forall (Forall terminal_code) rows /\
    Forall (separator_line w) seps /\
    Forall (stripped_row_line w) (map stripped rows) /\
    (START term = "S" -> END term = "E" ->
     map written rows = map stripped rows /\
     Forall (cell_row_line w) (map stripped rows)).
Proof.
  intros Hw Hh Hgreen Hnormal. unfold make_maze.
  destruct (rendered_grid fuel w h pp c) as [[vt hz]| |] eqn:Hr; cbn [bind];
    try discriminate.
  intros [= <-]. unfold rendered_grid in Hr.
  destruct (carved_maze fuel w h pp c) as [[[st s] e]| |] eqn:Hcarved;
    cbn [bind] in Hr; try discriminate.
  destruct (carved_maze_ret _ _ _ _ _ _ _ _ Hw Hh Hcarved) as (Hs & He & _).
  destruct (rendered_grid_ret _ _ _ _ _ _ _ _ Hw Hh Hcarved)
    as (T & a & a' & e2 & Hinv & Ha & Ha' & _ & _ & He2 & _ & Hrender).
  unfold rendered_grid in Hrender. rewrite Hcarved in Hrender.
  cbn [bind] in Hrender. rewrite Hr in Hrender. injection Hrender as -> ->.
  set (ws := map carved_wall T).
  destruct He2 as (Hblank & Hsame & c2 & Ec2).
  assert (Hlen2 : String.length e2 = 1%nat) by now rewrite Ec2.
  assert (Hnl2 : no_newline e2).
  { destruct (pos_eq_dec s e) as [Heq|Hne].
    - destruct (Hsame Heq) as [_ Hthird]. rewrite Ec2 in Hthird |- *.
      apply str_getitem_In in Hthird. intros [Enl|[]]. subst c2.
      revert Hthird. change (no_newline (a ++ START term ++ " ")).
      apply no_newline_app; [|apply no_newline_app].
      + destruct Ha as [->| ->]; cbn; intros H;
          repeat (destruct H as [H|H]; [discriminate|]); exact H.
      + unfold START. apply no_newline_app; [exact Hgreen|].
        apply no_newline_app; [|exact Hnormal].
        cbn; intros H; repeat (destruct H as [H|H]; [discriminate|]); exact H.
      + cbn; intros H; repeat (destruct H as [H|H]; [discriminate|]); exact H.
    - rewrite (Hblank (or_introl Hne)).
      cbn; intros H; repeat (destruct H as [H|H]; [discriminate|]); exact H. }
  unfold horiz_matrix. cbn [fst snd]. rewrite get_maze_string_tab.
  set (rowp := fun j => List.concat (map (fun i => cell_pieces w ws s e a a' e2 i j)
                                    (seq 0 (S (Z.to_nat w))))).
  assert (Hwritten : forall j, written (rowp j) =
            join (map (fun i => marked (vert_fun w ws) s e
                                  (a ++ START term ++ " ")%string
                                  (a' ++ END term ++ e2)%string i j)
                      (seq 0 (S (Z.to_nat w))))).
  { intros j. unfold rowp, written. rewrite join_map_concat, map_map.
    f_equal. apply map_ext. intros i. apply written_cell. }
  assert (Hstripped : forall j, stripped (rowp j) =
            join (map (fun i => marked (vert_fun w ws) s e
                                  (a ++ "S" ++ " ")%string
                                  (a' ++ "E" ++ e2)%string i j)
                      (seq 0 (S (Z.to_nat w))))).
  { intros j. unfold rowp, stripped. rewrite join_map_concat, map_map.
    f_equal. apply map_ext. intros i. apply stripped_cell. }
  exists (map (fun j => join (map (fun i => horiz_fun w ws i j)
                                  (seq 0 (S (Z.to_nat w)))))
              (seq 0 (S (Z.to_nat h)))),
         (map rowp (seq 0 (Z.to_nat h))).
  split; [now rewrite length_map, length_seq|].
  split; [now rewrite length_map, length_seq|].
  split; [|split; [|split; [|split]]].
  - do 2 f_equal. rewrite map_map. apply map_ext. intros j.
    symmetry. apply Hwritten.
  - apply Forall_forall. intros r Hin. apply in_map_iff in Hin as [j [<- _]].
    apply Forall_forall. intros p Hp. unfold rowp in Hp.
    apply in_concat in Hp as (l & Hl & Hp).
    apply in_map_iff in Hl as [i [<- _]].
    pose proof (cell_pieces_codes w ws s e a a' e2 i j) as Hc.
    rewrite Forall_forall in Hc. now apply Hc.
  - apply Forall_forall. intros l Hl. apply in_map_iff in Hl as [j [<- _]].
    apply horiz_row_separator.
  - apply Forall_forall. intros l Hl. rewrite map_map in Hl.
    apply in_map_iff in Hl as [j [<- _]]. rewrite Hstripped.
    exists (map (fun i => marked (vert_fun w ws) s e (a ++ "S" ++ " ")%string
                            (a' ++ "E" ++ e2)%string i j)
                (seq 0 (Z.to_nat w))).
    split; [now rewrite length_map, length_seq|]. split.
    + apply Forall_forall. intros x Hx. apply in_map_iff in Hx as [i [<- Hi]].
      apply in_seq in Hi. apply stripped_marked_cell; auto. lia.
    + rewrite map_seq_snoc, join_app, join_single.
      now rewrite (marked_last w h).
  - intros HS HE. destruct (START_plain HS) as [Eg En].
    destruct (END_plain HE) as [Er _]. split.
    + rewrite !map_map. apply map_ext. intros j.
      apply written_plain; auto. unfold rowp.
      apply Forall_forall. intros p Hp.
      apply in_concat in Hp as (l & Hl & Hp).
      apply in_map_iff in Hl as [i [<- _]].
      pose proof (cell_pieces_codes w ws s e a a' e2 i j) as Hc.
      rewrite Forall_forall in Hc. now apply Hc.
    + apply Forall_forall. intros l Hl. rewrite map_map in Hl.
      apply in_map_iff in Hl as [j [<- _]]. rewrite Hstripped.
      rewrite (Hblank (or_intror HS)). apply vert_row_cells.
      * intros i Hi. now apply marked_cell.
      * now apply (marked_last w h).
Qed.

End Maze.

(** * The rendered text *)

(** C8: the text [make_maze(w, h, print_progress)] returns for [w, h >= 2]
    is [h + 1] separator lines interleaved with [h] cell-row lines, each
    followed by a newline.  A cell-row line is made of characters and of
    the colour codes of the terminal around the two marks; with the codes
    stripped, every line is [3 * w + 1] characters wide and holds no
    newline, for every terminal whose codes hold no newline.  When the
    terminal adds no codes, the text itself has this shape and every cell
    ends in a blank. *)
Theorem make_maze_text_shape (tape : nat -> Z) (hypot : Z -> Z -> float)
    (term : Terminal) (fuel : nat) (w h : Z) (print_progress : bool) (c : nat)
    (txt : string) :
  2 <= w -> 2 <= h ->
  no_newline (green term) -> no_newline (normal term) ->
  make_maze tape hypot term fuel w h print_progress c = Ret txt ->
  exists (seps : list string) (rows : list (list piece)),
    List.length seps = S (Z.to_nat h) /\ List.length rows = Z.to_nat h /\
    txt = unlines (interleave seps (map written rows)) /\
    Forall (Forall (terminal_code term)) rows /\
    Forall (separator_line w) seps /\
    Forall (stripped_row_line w) (map stripped rows) /\
    Forall (fun l => Z.of_nat (String.length l) = 3 * w + 1 /\ no_newline l)
           (interleave seps (map stripped rows)) /\
    (START term = "S" -> END term = "E" ->
     txt = unlines (interleave seps (map stripped rows)) /\
     Forall (cell_row_line w) (map stripped rows)).
Proof.
  intros Hw Hh Hgreen Hnormal Hret.
  destruct (make_maze_stripped_lines tape hypot term fuel w h print_progress c
              txt Hw Hh Hgreen Hnormal Hret)
    as (seps & rows & Hls & Hlr & Htxt & Hcodes & Hseps & Hrows & Hplain).
  exists seps, rows.
  split; [exact Hls|]. split; [exact Hlr|]. split; [exact Htxt|].
  split; [exact Hcodes|]. split; [exact Hseps|]. split; [exact Hrows|].
  split.
  - apply Forall_interleave.
    + eapply Forall_impl; [|exact Hseps]. intros l Hl.
      destruct (separator_line_shape w l Hl) as [Hlen Hnl]. split; [|exact Hnl].
      apply Hlen. lia.
    + eapply Forall_impl; [|exact Hrows]. intros l Hl.
      destruct (stripped_row_line_shape w l Hl) as [Hlen Hnl].
      split; [|exact Hnl]. apply Hlen. lia.
  - intros HS HE. destruct (Hplain HS HE) as [Heq Hcells].
    split; [|exact Hcells]. now rewrite <- Heq.
Qed.

(** * Sample runs *)

Example make_maze_1_5 :
  make_maze count_tape hypot_sqrt plain_terminal 100 1 5 false 0 =
  Raise (ValueError "maze dimension too small").
Proof. reflexivity. Qed.

Example make_maze_5_1 :
  make_maze count_tape hypot_sqrt plain_terminal 100 5 1 false 0 =
  Raise (ValueError "maze dimension too small").
Proof. reflexivity. Qed.

Example make_maze_2_2 :
  option_map split_lines
    (match make_maze zero_tape hypot_sqrt plain_terminal 16 2 2 false 0 with
     | Ret txt => Some txt
     | _ => None
     end) =
  Some ["+--+--+"; "|E |  |"; "+  +  +"; "|     |"; "+--+--+"; ""].
Proof. vm_compute. reflexivity. Qed.
Example make_maze_5_4 :
  option_map split_lines
    (match make_maze count_tape hypot_sqrt plain_terminal 100 5 4 false 0 with
     | Ret txt => Some txt
     | _ => None
     end) =
  Some ["+--+--+--+--+--+"; "|     |E |     |"; "+  +  +  +  +  +";
        "|  |        |  |"; "+  +--+  +--+  +"; "|  |  |  |S |  |";
        "+  +  +  +  +  +"; "|     |     |  |"; "+--+--+--+--+--+"; ""].
Proof. vm_compute. reflexivity. Qed.

(** * The theorems at concrete inputs *)

(** On a colour terminal, when the start is the end, the cell holds the
    end mark followed by the second character of the code of the start
    mark. *)
Example mark_points_colour_same_cell :
  mark_points colour_terminal (vertical sample_carved) (0, 0) (0, 0) =
  Ret [[("|" ++ END colour_terminal ++ "[")%string; "|  "; "|"];
       ["|  "; "   "; "|"]; []].
Proof. reflexivity. Qed.

Example get_random_pos_0_3 :
  get_random_pos zero_tape 0 3 0 =
  Raise (ValueError "empty range for randrange() (0, 0, 0)").
Proof. reflexivity. Qed.

Example get_random_pos_3_m1 :
  get_random_pos zero_tape 3 (-1) 0 =
  Raise (ValueError "empty range for randrange() (0, -1, -1)").
Proof. reflexivity. Qed.

Lemma dfs_carves_spanning_tree_witness :
  exists st,
    dfs zero_tape 16 sample_vertical sample_horizontal
        (generate_boundaries 2 2) (0, 0) (1, 1) false 0 = Ret st /\
    spanning_tree (vertical st) (horizontal st) 2 2.
Proof.
  apply (dfs_carves_spanning_tree zero_tape 2 2 (0, 0) (1, 1) false 0 16);
    [lia|lia|reflexivity|reflexivity|vm_compute; lia].
Defined.

Lemma boundary_never_carved_witness :
  boundary_intact sample_vertical sample_horizontal 2 2 /\
  (forall st, dfs_reaches zero_tape (1, 1) false sample_init st ->
              boundary_intact (vertical st) (horizontal st) 2 2) /\
  (forall fuel st,
      dfs zero_tape fuel sample_vertical sample_horizontal
          (generate_boundaries 2 2) (0, 0) (1, 1) false 0 = Ret st ->
      boundary_intact (vertical st) (horizontal st) 2 2).
Proof.
  apply (boundary_never_carved zero_tape 2 2 (0, 0) (1, 1) false 0
           sample_vertical sample_horizontal sample_init);
    [lia|lia|reflexivity|reflexivity|reflexivity].
Defined.

Lemma dfs_terminates_witness :
  exists st,
    dfs zero_tape 16 sample_vertical sample_horizontal
        (generate_boundaries 2 2) (0, 0) (1, 1) true 0 = Ret st /\
    stack st = [].
Proof.
  apply (dfs_terminates zero_tape 2 2 (0, 0) (1, 1) true 0 16);
    [lia|lia|reflexivity|reflexivity|reflexivity|vm_compute; lia].
Defined.


(** The claim C4 fails on a grid of two rows and two columns: the threshold
    is negative there, and the tape of zeros draws the cell [(0, 0)] twice. *)
Lemma distant_points_may_coincide :
  exists s e c',
    get_distant_points zero_tape hypot_sqrt 0 2 2 0 = Ret (s, e, c') /\ s = e.
Proof.
  exists (0, 0), (0, 0), 4%nat. split; [vm_compute; reflexivity|reflexivity].
Qed.

Lemma distant_points_in_grid_witness :
  in_grid 5 4 (3, 2) = true /\ in_grid 5 4 (2, 0) = true /\
  (PrimFloat.ltb (hypot_sqrt 0 0) (distance_threshold hypot_sqrt 5 4) = true ->
   (3, 2) <> (2, 0)).
Proof.
  apply (distant_points_in_grid count_tape hypot_sqrt 100 5 4 0 (3, 2) (2, 0) 4);
    [lia|lia|vm_compute; reflexivity].
Defined.



Lemma make_maze_text_shape_witness :
  exists (seps : list string) (rows : list (list piece)),
    List.length seps = S (Z.to_nat 2) /\ List.length rows = Z.to_nat 2 /\
    sample_colour_text = unlines (interleave seps (map written rows)) /\
    Forall (Forall (terminal_code colour_terminal)) rows /\
    Forall (separator_line 2) seps /\
    Forall (stripped_row_line 2) (map stripped rows) /\
    Forall (fun l => Z.of_nat (String.length l) = 3 * 2 + 1 /\ no_newline l)
           (interleave seps (map stripped rows)) /\
    (START colour_terminal = "S" -> END colour_terminal = "E" ->
     sample_colour_text = unlines (interleave seps (map stripped rows)) /\
     Forall (cell_row_line 2) (map stripped rows)).
Proof.
  apply (make_maze_text_shape zero_tape hypot_sqrt colour_terminal 16 2 2
           false 0 sample_colour_text);
    [lia|lia| | |vm_compute; reflexivity];
    intros H; vm_compute in H;
    repeat (destruct H as [H|H]; [discriminate H|]); exact H.
Defined.

Lemma maze_string_ends_with_newline_witness :
  exists ls,
    List.length ls = (2 * Z.to_nat 2 + 1)%nat /\
    Forall no_newline ls /\
    get_maze_string sample_vertical sample_horizontal = unlines ls /\
    split_lines (get_maze_string sample_vertical sample_horizontal) = ls ++ [""] /\
    exists body,
      get_maze_string sample_vertical sample_horizontal = (body ++ NL)%string.
Proof.
  apply (maze_string_ends_with_newline 2 2 sample_vertical sample_horizontal);
    [lia|reflexivity].
Defined.

Lemma rendered_maze_spanning_tree_witness :
  spanning_tree [["|E "; "|  "; "|"]; ["|  "; "   "; "|"]; []]
                (horizontal sample_carved) 2 2.
Proof.
  apply (rendered_maze_spanning_tree zero_tape hypot_sqrt plain_terminal 16 2 2
           false 0); [lia|lia|vm_compute; reflexivity].
Defined.

Lemma make_maze_returns_text_witness :
  exists txt,
    make_maze count_tape hypot_sqrt plain_terminal 100 5 4 true 0 = Ret txt.
Proof.
  apply (make_maze_returns_text count_tape hypot_sqrt plain_terminal 100 5 4
           true 0 (3, 2) (2, 0) 4); [lia|lia|vm_compute; reflexivity|vm_compute; lia].
Defined.

(** * The random source reaches every outcome *)

(** Every cell of the grid is drawn by some random source. *)
Theorem every_cell_can_be_drawn (w h : Z) (p : pos) (c : nat) :
  in_grid w h p = true ->
  exists tape, get_random_pos tape w h c = Ret (p, S (S c)).
Proof.
  intros Hp. apply in_grid_iff in Hp. destruct p as [x y]. cbn [fst snd] in Hp.
  exists (fun n => if (n =? c)%nat then x else y).
  unfold get_random_pos, randint.
  destruct (Z.ltb_spec (w - 1) 0); [lia|]. cbn [bind fst snd].
  destruct (Z.ltb_spec (h - 1) 0); [lia|]. cbn [bind fst snd].
  rewrite Nat.eqb_refl.
  destruct (Nat.eqb_spec (S c) c); [lia|].
  replace (w - 1 - 0 + 1) with w by lia. replace (h - 1 - 0 + 1) with h by lia.
  rewrite !Z.mod_small by lia. reflexivity.
Qed.

Lemma every_cell_can_be_drawn_witness :
  exists tape, get_random_pos tape 5 4 7 = Ret ((3, 2), 9%nat).
Proof. apply (every_cell_can_be_drawn 5 4 (3, 2) 7). reflexivity. Defined.

Lemma shuffle_from_shift {A : Type} (t1 t2 : nat -> Z) (i : nat) :
  forall (l : list A) (c1 c2 : nat),
    (forall k, t1 (c1 + k)%nat = t2 (c2 + k)%nat) ->
    fst (shuffle_from t1 i l c1) = fst (shuffle_from t2 i l c2).
Proof.
  induction i as [|i IH]; intros l c1 c2 H; cbn [shuffle_from]; [reflexivity|].
  pose proof (H 0%nat) as H0. rewrite !Nat.add_0_r in H0. rewrite H0.
  apply IH. intros k. specialize (H (S k)).
  now rewrite !Nat.add_succ_r in H.
Qed.

Lemma shuffle4_every_order {A : Type} (a b c d : A) (l : list A) :
  NoDup [a; b; c; d] -> Permutation l [a; b; c; d] ->
  exists j3 j2 j1, fst (shuffle (draws3 j3 j2 j1) [a; b; c; d] 0) = l.
Proof.
  intros Hnd HP.
  assert (Hnd' : NoDup l) by (eapply Permutation_NoDup; [symmetry|]; eauto).
  pose proof (Permutation_length HP) as Hlen.
  destruct l as [|p [|q [|r [|s [|]]]]]; try discriminate.
  assert (Hin : forall z, In z [p; q; r; s] -> In z [a; b; c; d])
    by (intros z; apply Permutation_in; exact HP).
  pose proof (Hin p (or_introl eq_refl)) as Hp.
  pose proof (Hin q (or_intror (or_introl eq_refl))) as Hq.
  pose proof (Hin r (or_intror (or_intror (or_introl eq_refl)))) as Hr.
  pose proof (Hin s (or_intror (or_intror (or_intror (or_introl eq_refl)))))
    as Hs.
  clear Hin HP Hlen Hnd.
  assert (Hd : p <> q /\ p <> r /\ p <> s /\ q <> r /\ q <> s /\ r <> s).
  { apply NoDup_cons_iff in Hnd' as [H1 Hnd'].
    apply NoDup_cons_iff in Hnd' as [H2 Hnd'].
    apply NoDup_cons_iff in Hnd' as [H3 _].
    cbn in H1, H2, H3. repeat split; intros E; subst; tauto. }
  destruct Hd as (D1 & D2 & D3 & D4 & D5 & D6). clear Hnd'.
  cbn [In] in Hp, Hq, Hr, Hs.
  destruct Hp as [<-|[<-|[<-|[<-|[]]]]];
    destruct Hq as [<-|[<-|[<-|[<-|[]]]]]; try congruence;
    destruct Hr as [<-|[<-|[<-|[<-|[]]]]]; try congruence;
    destruct Hs as [<-|[<-|[<-|[<-|[]]]]]; try congruence;
    clear D1 D2 D3 D4 D5 D6;
    first [ exists 0, 0, 0; reflexivity | exists 0, 0, 1; reflexivity
          | exists 0, 1, 0; reflexivity | exists 0, 1, 1; reflexivity
          | exists 0, 2, 0; reflexivity | exists 0, 2, 1; reflexivity
          | exists 1, 0, 0; reflexivity | exists 1, 0, 1; reflexivity
          | exists 1, 1, 0; reflexivity | exists 1, 1, 1; reflexivity
          | exists 1, 2, 0; reflexivity | exists 1, 2, 1; reflexivity
          | exists 2, 0, 0; reflexivity | exists 2, 0, 1; reflexivity
          | exists 2, 1, 0; reflexivity | exists 2, 1, 1; reflexivity
          | exists 2, 2, 0; reflexivity | exists 2, 2, 1; reflexivity
          | exists 3, 0, 0; reflexivity | exists 3, 0, 1; reflexivity
          | exists 3, 1, 0; reflexivity | exists 3, 1, 1; reflexivity
          | exists 3, 2, 0; reflexivity | exists 3, 2, 1; reflexivity ].
Qed.

(** [get_neighbors(x, y)] can return the four neighbours in every order:
    each of their 24 arrangements is the result for some random source. *)
Theorem get_neighbors_every_order (x y : Z) (c : nat) (l : list pos) :
  Permutation l [(x - 1, y); (x + 1, y); (x, y - 1); (x, y + 1)] ->
  exists tape, fst (get_neighbors tape x y c) = l.
Proof.
  intros HP.
  destruct (shuffle4_every_order _ _ _ _ l (nbrs4_NoDup (x, y)) HP)
    as (j3 & j2 & j1 & E).
  exists (fun n => draws3 j3 j2 j1 (n - c)). rewrite <- E.
  unfold get_neighbors, shuffle. apply shuffle_from_shift.
  intros k. f_equal. lia.
Qed.

Lemma get_neighbors_every_order_witness :
  exists tape,
    fst (get_neighbors tape 3 2 5) = [(3, 3); (2, 2); (4, 2); (3, 1)].
Proof.
  apply (get_neighbors_every_order 3 2 5 [(3, 3); (2, 2); (4, 2); (3, 1)]).
  change [(3 - 1, 2); (3 + 1, 2); (3, 2 - 1); (3, 2 + 1)]
    with [(2, 2); (4, 2); (3, 1); (3, 3)].
  apply Permutation_cons_app with (l1 := [(2, 2); (4, 2); (3, 1)]) (l2 := []).
  reflexivity.
Defined.

(** * The rejection sampling has no bound *)

(** On a random source that repeats one number, [get_distant_points] draws
    the same cell twice in every round; when the threshold is above the
    distance of a cell to itself, the loop rejects every pair and no number
    of redraws ends it. *)
Theorem get_distant_points_may_never_return (hypot : Z -> Z -> float) (v : Z)
    (w h : Z) (fuel c : nat) :
  1 <= w -> 1 <= h ->
  PrimFloat.ltb (hypot 0 0) (distance_threshold hypot w h) = true ->
  get_distant_points (fun _ => v) hypot fuel w h c = OutOfFuel.
Proof.
  intros Hw Hh Hthr.
  apply (get_distant_points_all_close (fun _ => v) hypot fuel w h c Hw Hh).
  intros j _. unfold too_close, drawn_pos, get_distance. cbn [fst snd].
  rewrite !Z.sub_diag. exact Hthr.
Qed.

Lemma get_distant_points_may_never_return_witness :
  get_distant_points (fun _ => 5) hypot_sqrt 1000 16 8 0 = OutOfFuel.
Proof.
  apply (get_distant_points_may_never_return hypot_sqrt 5 16 8 1000 0);
    [lia|lia|vm_compute; reflexivity].
Defined.

Lemma get_distant_points_first_far_witness :
  get_distant_points count_tape hypot_sqrt 100 10 5 0 =
  Ret (drawn_pos count_tape 10 5 8, drawn_pos count_tape 10 5 10, 12%nat).
Proof.
  apply (proj1 (get_distant_points_first_far count_tape hypot_sqrt 100 10 5 0
                  ltac:(lia) ltac:(lia)) 2%nat).
  - lia.
  - intros j Hj. destruct j as [|[|j]]; [vm_compute; reflexivity..|lia].
  - vm_compute. reflexivity.
Defined.

(** * Sample runs of the further properties *)

Lemma boundaries_guard_the_grid_witness :
  (-1 <= -1 <= 3 ->
   getitem2 (generate_boundaries 3 2) 1 (-1) =
   Ret (if in_grid 3 2 (-1, 1) then 0 else 1)) /\
  (3 < -1 -> getitem2 (generate_boundaries 3 2) 1 (-1) = Raise IndexError).
Proof.
  apply (boundaries_guard_the_grid 3 2 (-1) 1); lia.
Defined.

Lemma fresh_grid_is_closed_witness :
  (forall wl, is_open_wall sample_vertical sample_horizontal wl = false) /\
  removed_walls sample_vertical sample_horizontal 2 2 = 0%nat /\
  (forall a b, ~ passage sample_vertical sample_horizontal 2 2 a b).
Proof.
  apply (fresh_grid_is_closed 2 2 sample_vertical sample_horizontal);
    [lia|reflexivity].
Defined.

Lemma dfs_visits_every_cell_witness :
  exists st,
    dfs zero_tape 16 sample_vertical sample_horizontal
        (generate_boundaries 2 2) (0, 0) (1, 1) false 0 = Ret st /\
    visited st = repeat (repeat 1 (Z.to_nat (2 + 1))) (Z.to_nat (2 + 1)).
Proof.
  apply (dfs_visits_every_cell zero_tape 2 2 (0, 0) (1, 1) false 0 16);
    [lia|lia|reflexivity|reflexivity|vm_compute; lia].
Defined.

Lemma end_is_a_dead_end_witness :
  exists st b,
    dfs zero_tape 16 sample_vertical sample_horizontal
        (generate_boundaries 2 2) (0, 0) (1, 1) true 0 = Ret st /\
    forall b', passage (vertical st) (horizontal st) 2 2 (1, 1) b' <-> b' = b.
Proof.
  apply (end_is_a_dead_end zero_tape 2 2 (0, 0) (1, 1) true 0 16);
    [lia|lia|reflexivity|reflexivity|discriminate|reflexivity|vm_compute; lia].
Defined.

Lemma dfs_draws_and_frames_witness :
  exists st,
    dfs zero_tape 16 sample_vertical sample_horizontal
        (generate_boundaries 2 2) (0, 0) (1, 1) true 0 = Ret st /\
    cursor st =
      (0 + 3 * (Z.to_nat (2 * 2) -
                (if pos_eqb (0, 0)%Z (1, 1)%Z then 0 else 1)))%nat /\
    List.length (frames st) =
      (Z.to_nat (2 * 2) - (if pos_eqb (0, 0)%Z (1, 1)%Z then 1 else 2))%nat.
Proof.
  apply (dfs_draws_and_frames zero_tape 2 2 (0, 0) (1, 1) true 0 16);
    [lia|lia|reflexivity|reflexivity|reflexivity|vm_compute; lia].
Defined.

Lemma make_maze_shows_the_maze_witness :
  exists txt,
    make_maze zero_tape hypot_sqrt plain_terminal 16 2 2 false 0 = Ret txt /\
    (forall x y, 0 <= x <= 2 -> 0 <= y < 2 ->
       text_char txt (2 * Z.to_nat y + 1) (3 * Z.to_nat x) =
       Some (if is_open_wall (vertical sample_carved)
                  (horizontal sample_carved) (VWall x y)
             then " "%char else "|"%char)) /\
    (forall x y, 0 <= x < 2 -> 0 <= y < 2 ->
       text_char txt (2 * Z.to_nat y + 1) (3 * Z.to_nat x + 1) =
       Some (if pos_eqb (x, y) (0, 0) then "E"%char
             else if pos_eqb (x, y) (0, 0) then "S"%char else " "%char)) /\
    (forall x y, 0 <= x <= 2 -> 0 <= y <= 2 ->
       text_char txt (2 * Z.to_nat y) (3 * Z.to_nat x) = Some "+"%char) /\
    (forall x y, 0 <= x < 2 -> 0 <= y <= 2 ->
       text_char txt (2 * Z.to_nat y) (3 * Z.to_nat x + 1) =
       Some (if is_open_wall (vertical sample_carved)
                  (horizontal sample_carved) (HWall x y)
             then " "%char else "-"%char)).
Proof.
  apply (make_maze_shows_the_maze zero_tape hypot_sqrt plain_terminal 16 2 2
           false 0 sample_carved (0, 0) (0, 0));
    [lia|lia|reflexivity|reflexivity|vm_compute; reflexivity].
Defined.
